(** * Instruction reordering for the stack-machine back end of the Move compiler v2

    Shallow embedding of
    [third_party/move/move-compiler-v2/src/pipeline/instruction_reordering.rs]:
    the per-block pipeline (use-def graph, [Prepare] synthesis, dependence
    constraints, DFS post-order numbering, total-order selection, remapping)
    and the function-level driver. *)

From Stdlib Require Import List Arith Lia Bool Permutation Sorted.
Import ListNotations.

(** ** Ordered containers ([BTreeMap], [BTreeSet])

    A [BTreeMap] is a key-sorted association list, a [BTreeSet] a sorted list
    without duplicates; iteration is in key order, as in Rust. *)

Section Ordered.
  Context {K : Type} (kcmp : K -> K -> comparison).

Fixpoint omap_insert {V : Type} (k : K) (v : V) (m : list (K * V)) : list (K * V) :=
    match m with
    | [] => [(k, v)]
    | (k', v') :: t =>
        match kcmp k k' with
        | Eq => (k, v) :: t
        | Lt => (k, v) :: m
        | Gt => (k', v') :: omap_insert k v t
        end
    end.

Fixpoint omap_get {V : Type} (k : K) (m : list (K * V)) : option V :=
    match m with
    | [] => None
    | (k', v') :: t => match kcmp k k' with Eq => Some v' | _ => omap_get k t end
    end.

Fixpoint omap_remove {V : Type} (k : K) (m : list (K * V)) : list (K * V) :=
    match m with
    | [] => []
    | (k', v') :: t => match kcmp k k' with Eq => t | _ => (k', v') :: omap_remove k t end
    end.

  (** [map.entry(k).or_default()] followed by an update [f] of the entry. *)
Definition omap_entry_update {V : Type} (d : V) (k : K) (f : V -> V) (m : list (K * V)) :=
    omap_insert k (f (match omap_get k m with Some v => v | None => d end)) m.

Fixpoint oset_insert (x : K) (s : list K) : list K :=
    match s with
    | [] => [x]
    | y :: t =>
        match kcmp x y with
        | Eq => s
        | Lt => x :: s
        | Gt => y :: oset_insert x t
        end
    end.

Fixpoint oset_mem (x : K) (s : list K) : bool :=
    match s with
    | [] => false
    | y :: t => match kcmp x y with Eq => true | _ => oset_mem x t end
    end.
End Ordered.

Definition cmp_option {A} (c : A -> A -> comparison) (x y : option A) : comparison :=
  match x, y with
  | None, None => Eq
  | None, Some _ => Lt
  | Some _, None => Gt
  | Some a, Some b => c a b
  end.

Definition cmp_pair {A B} (ca : A -> A -> comparison) (cb : B -> B -> comparison)
  (x y : A * B) : comparison :=
  match ca (fst x) (fst y) with Eq => cb (snd x) (snd y) | r => r end.

(** Lexicographic order of [Vec]s: a proper prefix is smaller. *)
Fixpoint cmp_list {A} (c : A -> A -> comparison) (x y : list A) : comparison :=
  match x, y with
  | [], [] => Eq
  | [], _ :: _ => Lt
  | _ :: _, [] => Gt
  | a :: x', b :: y' => match c a b with Eq => cmp_list c x' y' | r => r end
  end.

(** [v[i] = x]; Rust panics out of range, which the callers never reach. *)
Fixpoint list_set {A} (l : list A) (i : nat) (x : A) : list A :=
  match l, i with
  | [], _ => []
  | _ :: t, 0 => x :: t
  | y :: t, S i' => y :: list_set t i' x
  end.

(** [iter().enumerate()] *)
Fixpoint enumerate_from {A} (n : nat) (l : list A) : list (nat * A) :=
  match l with
  | [] => []
  | x :: t => (n, x) :: enumerate_from (S n) t
  end.
Definition enumerate {A} (l : list A) := enumerate_from 0 l.

(** ** Stackless bytecode (the shape the pass inspects) *)

Definition TempIndex := nat.
Definition CodeOffset := nat.
Definition AttrId := nat.
Definition Lbl := nat.

Inductive Operation :=
| Function (mid fid : nat)
| Pack (sid : nat)
| Unpack (sid : nat)
| BorrowLoc
| BorrowField (fid : nat)
| ReadRef
| WriteRef
| FreezeRef (explicit : bool)
| Drop
| Add | Sub | Mul
| Lt_ | Eq_ (* [Operation::Lt], [Operation::Eq], renamed so as not to hide [comparison] *)
| Not
| Prepare.

(** Modelled from the spec: [Operation::can_abort] lives in the
    stackless-bytecode crate. Calls and arithmetic can abort; reference
    operations, comparisons and [Prepare] (which has no runtime semantics
    beyond moving an operand, spec 4.3) cannot. *)
Definition can_abort (op : Operation) : bool :=
  match op with
  | Function _ _ | Add | Sub | Mul => true
  | _ => false
  end.

Inductive AssignKind := Copy | Move | Store.
Record AbortAction := MkAbortAction { aa_label : Lbl; aa_temp : TempIndex }.

Inductive Bytecode :=
| Assign (a : AttrId) (dst src : TempIndex) (k : AssignKind)
| Call (a : AttrId) (dests : list TempIndex) (op : Operation) (srcs : list TempIndex)
       (aa : option AbortAction)
| Ret (a : AttrId) (srcs : list TempIndex)
| Load (a : AttrId) (dst : TempIndex) (c : nat)
| Branch (a : AttrId) (then_ else_ : Lbl) (cond : TempIndex)
| Jump (a : AttrId) (l : Lbl)
| Label (a : AttrId) (l : Lbl)
| Abort (a : AttrId) (src : TempIndex)
| Nop (a : AttrId)
| SpecBlock (a : AttrId) (spec : nat)
| Prop_ (a : AttrId) (e : nat).

(** Modelled from the spec (section 3): the operand accessors of [Bytecode]. *)
Definition sources (i : Bytecode) : list TempIndex :=
  match i with
  | Assign _ _ src _ => [src]
  | Call _ _ _ srcs _ => srcs
  | Ret _ srcs => srcs
  | Branch _ _ _ cond => [cond]
  | Abort _ src => [src]
  | _ => []
  end.

Definition dests (i : Bytecode) : list TempIndex :=
  match i with
  | Assign _ dst _ _ => [dst]
  | Call _ ds _ _ _ => ds
  | Load _ dst _ => [dst]
  | _ => []
  end.

Definition get_attr_id (i : Bytecode) : AttrId :=
  match i with
  | Assign a _ _ _ | Call a _ _ _ _ | Ret a _ | Load a _ _ | Branch a _ _ _
  | Jump a _ | Label a _ | Abort a _ | Nop a | SpecBlock a _ | Prop_ a _ => a
  end.

(** Modelled from the spec: specification-only instructions. *)
Definition is_spec_only (i : Bytecode) : bool :=
  match i with SpecBlock _ _ | Prop_ _ _ => true | _ => false end.

Definition is_prepare (i : Bytecode) : bool :=
  match i with Call _ _ Prepare _ _ => true | _ => false end.

Definition is_assign (i : Bytecode) : bool :=
  match i with Assign _ _ _ _ => true | _ => false end.

(** [Bytecode::Call(attr, vec![], Operation::Prepare, vec![tmp], None)] *)
Definition mk_prepare (a : AttrId) (tmp : TempIndex) : Bytecode :=
  Call a [] Prepare [tmp] None.

(** Containers of the pass, with the key orders of Rust. *)
Definition NatMap V := list (nat * V).
Definition UseKey := (TempIndex * option CodeOffset)%type.
Definition cmp_usekey : UseKey -> UseKey -> comparison :=
  cmp_pair Nat.compare (cmp_option Nat.compare).
Definition cmp_usepair : nat * nat -> nat * nat -> comparison :=
  cmp_pair Nat.compare Nat.compare.

Definition UseDefGraph := NatMap (list (option CodeOffset)).
Definition UsesMap := list (UseKey * list (nat * nat)).
Definition PrepareUseMap := NatMap (CodeOffset * nat * bool).

Definition nget {V} (k : nat) (m : NatMap V) : option V := omap_get Nat.compare k m.
Definition nins {V} (k : nat) (v : V) (m : NatMap V) : NatMap V := omap_insert Nat.compare k v m.

(** ** [InstructionReordering::ordered_edge_data_dependence_graph]

    First loop: forward walk building the use-def graph and the reverse
    [uses] index from [latest_write]. *)

Record WalkState := mkWalk {
  w_latest : NatMap CodeOffset;
  w_uses : UsesMap;
  w_graph : UseDefGraph
}.

(** One source [(pos, src)] of the instruction at [offset]. *)
Definition walk_source (offset : CodeOffset) (latest : NatMap CodeOffset)
    (acc : list (option CodeOffset) * UsesMap) (ps : nat * TempIndex) :=
  let '(edges, uses) := acc in
  let '(pos, src) := ps in
  let def_offset := nget src latest in
  (edges ++ [def_offset],
   omap_entry_update cmp_usekey [] (src, def_offset)
     (oset_insert cmp_usepair (offset, pos)) uses).

Definition walk_instr (st : WalkState) (oi : CodeOffset * Bytecode) : WalkState :=
  let '(offset, instr) := oi in
  let '(graph, uses) :=
    match sources instr with
    | [] => (w_graph st, w_uses st)
    | srcs =>
        let start := match nget offset (w_graph st) with Some e => e | None => [] end in
        let '(edges, uses) :=
          fold_left (walk_source offset (w_latest st)) (enumerate srcs) (start, w_uses st) in
        (nins offset edges (w_graph st), uses)
    end in
  mkWalk (fold_left (fun lw d => nins d offset lw) (dests instr) (w_latest st)) uses graph.

Definition use_def_walk (block : list Bytecode) : WalkState :=
  fold_left walk_instr (enumerate block) (mkWalk [] [] []).

(** State of the [Prepare] synthesis: graph, [prepare_use_map],
    [prepare_instrs], [prepare_edges]. *)
Record PrepState := mkPrep {
  p_graph : UseDefGraph;
  p_map : PrepareUseMap;
  p_instrs : list Bytecode;
  p_edges : NatMap CodeOffset
}.

(** Phase A, one non-last slot [(pos, (def, tmp))] of the use at
    [usage_offset]; [defs] is the graph entry being updated in place. *)
Definition phaseA_slot (block : list Bytecode) (usage_offset : CodeOffset)
    (usage_instr : Bytecode)
    (acc : list (option CodeOffset) * PrepareUseMap * list Bytecode * NatMap CodeOffset)
    (x : nat * (option CodeOffset * TempIndex)) :=
  let '(defs, pum, instrs, pedges) := acc in
  let '(pos, (def, tmp)) := x in
  let prepare_offset := length block + length instrs in
  let prepare := mk_prepare (get_attr_id usage_instr) tmp in
  match def with
  | None =>
      (list_set defs pos (Some prepare_offset),
       nins prepare_offset (usage_offset, pos, false) pum,
       instrs ++ [prepare], pedges)
  | Some def_offset =>
      (* [block[def_offset]]: always in range, a definer precedes its use. *)
      match nth_error block def_offset with
      | Some def_instr =>
          if is_assign def_instr then
            (list_set defs pos (Some prepare_offset),
             nins prepare_offset (usage_offset, pos, false) pum,
             instrs ++ [prepare], nins prepare_offset def_offset pedges)
          else acc
      | None => acc
      end
  end.

Definition phaseA_instr (block : list Bytecode) (st : PrepState)
    (ui : CodeOffset * Bytecode) : PrepState :=
  let '(usage_offset, usage_instr) := ui in
  let srcs := sources usage_instr in
  if length srcs <? 2 then st else
  match nget usage_offset (p_graph st) with
  | None => st
  | Some defs =>
      let without_last_len := match defs with [] => 0 | _ => length defs - 1 end in
      let '(defs', pum, instrs, pedges) :=
        fold_left (phaseA_slot block usage_offset usage_instr)
          (enumerate (firstn without_last_len (combine defs srcs)))
          (defs, p_map st, p_instrs st, p_edges st) in
      mkPrep (nins usage_offset defs' (p_graph st)) pum instrs pedges
  end.

(** Phase B, one use [(use_offset, pos)] of a multiply used definition of [tmp]. *)
Definition phaseB_use (block : list Bytecode) (tmp : TempIndex) (st : PrepState)
    (up : CodeOffset * nat) : PrepState :=
  let '(use_offset, pos) := up in
  match nth_error block use_offset with
  | None => st (* [uses] only records offsets of [block] *)
  | Some use_instr =>
      let srcs := sources use_instr in
      if match srcs with [] => true | _ => pos =? length srcs - 1 end then st else
      match nget use_offset (p_graph st) with
      | None => st
      | Some defs =>
          (* [defs[pos]]: in range, [defs] has one slot per source. *)
          match nth pos defs None with
          | None => st
          | Some def =>
              if length block <=? def then
                match nget def (p_map st) with
                | Some (u, q, _) =>
                    mkPrep (p_graph st) (nins def (u, q, true) (p_map st))
                      (p_instrs st) (p_edges st)
                | None => st
                end
              else
                let prepare_offset := length block + length (p_instrs st) in
                mkPrep (nins use_offset (list_set defs pos (Some prepare_offset)) (p_graph st))
                  (nins prepare_offset (use_offset, pos, true) (p_map st))
                  (p_instrs st ++ [mk_prepare (get_attr_id use_instr) tmp])
                  (nins prepare_offset def (p_edges st))
          end
      end
  end.

Definition phaseB_group (block : list Bytecode) (st : PrepState)
    (g : UseKey * list (CodeOffset * nat)) : PrepState :=
  let '((tmp, _), use_pairs) := g in
  if 1 <? length use_pairs then fold_left (phaseB_use block tmp) use_pairs st else st.

Definition synthesize_prepares (block : list Bytecode) : PrepState * WalkState :=
  let w := use_def_walk block in
  let stA := fold_left (phaseA_instr block) (enumerate block) (mkPrep (w_graph w) [] [] []) in
  (fold_left (phaseB_group block) (w_uses w) stA, w).

(** Returns the extended block (the Rust code extends [block] in place), the
    use-def graph and the [prepare_use_map]. *)
Definition ordered_edge_data_dependence_graph (block : list Bytecode)
    : list Bytecode * UseDefGraph * PrepareUseMap :=
  let st := fst (synthesize_prepares block) in
  let graph :=
    fold_left (fun g pd => omap_entry_update Nat.compare [] (fst pd)
                             (fun e => e ++ [Some (snd pd)]) g)
      (p_edges st) (p_graph st) in
  (block ++ p_instrs st, graph, p_map st).


(** ** [DependenceConstraints]: edges [a -> b] meaning "a must precede b". *)

Definition Edges := NatMap (list CodeOffset).

(** [edges.entry(a).or_default().insert(b)] *)
Definition add_edge (a b : CodeOffset) (e : Edges) : Edges :=
  omap_entry_update Nat.compare [] a (oset_insert Nat.compare b) e.

Definition has_edge (a b : CodeOffset) (e : Edges) : bool :=
  match nget a e with Some s => oset_mem Nat.compare b s | None => false end.

(** [add_false_dependencies]: the walk stops at the first [Prepare]. *)
Fixpoint false_deps_walk (offset : CodeOffset) (block : list Bytecode)
    (reads_before : NatMap (list CodeOffset)) (latest_write : NatMap CodeOffset)
    (edges : Edges) : Edges :=
  match block with
  | [] => edges
  | instr :: rest =>
      if is_prepare instr then edges else
      let rb := fold_left (fun rb t => omap_entry_update Nat.compare [] t
                                         (oset_insert Nat.compare offset) rb)
                  (sources instr) reads_before in
      let '(rb, lw, edges) :=
        fold_left (fun acc t =>
            let '(rb, lw, edges) := acc in
            let edges := match nget t rb with
                         | Some nodes =>
                             fold_left (fun e n => if n =? offset then e else add_edge n offset e)
                               nodes edges
                         | None => edges
                         end in
            let rb := omap_remove Nat.compare t rb in
            let edges := match nget t lw with
                         | Some node => if node =? offset then edges else add_edge node offset edges
                         | None => edges
                         end in
            (rb, nins t offset lw, edges))
          (dests instr) (rb, latest_write, edges) in
      false_deps_walk (S offset) rest rb lw edges
  end.

Definition add_false_dependencies (block : list Bytecode) (edges : Edges) : Edges :=
  false_deps_walk 0 block [] [] edges.

Definition flat_opt (l : list (option CodeOffset)) : list CodeOffset :=
  fold_right (fun o acc => match o with Some d => d :: acc | None => acc end) [] l.

Definition add_true_dependencies (g : UseDefGraph) (edges : Edges) : Edges :=
  fold_left (fun e ud => fold_left (fun e d => add_edge d (fst ud) e) (flat_opt (snd ud)) e)
    g edges.

(** [is_ref_arg_instr]; [local_is_mut_ref] answers
    [target.get_local_type(t).is_mutable_reference()]. *)
Definition is_ref_arg_instr (local_is_mut_ref : TempIndex -> bool) (i : Bytecode) : bool :=
  match i with
  | Call _ _ (FreezeRef _) _ _ => true
  | Call _ dsts BorrowLoc _ _ =>
      match dsts with d :: _ => local_is_mut_ref d | [] => false end
  | _ => false
  end.

Definition ref_arg_step (local_is_mut_ref : TempIndex -> bool)
    (acc : NatMap (list CodeOffset) * NatMap CodeOffset * Edges)
    (oi : CodeOffset * Bytecode) :=
  let '(offset, instr) := oi in
  if is_ref_arg_instr local_is_mut_ref instr then
    fold_left (fun acc src =>
        let '(reads, ref_args, edges) := acc in
        let edges := match nget src reads with
                     | Some prev => fold_left (fun e r => add_edge r offset e) prev edges
                     | None => edges
                     end in
        let reads := omap_remove Nat.compare src reads in
        let edges := match nget src ref_args with
                     | Some p => add_edge p offset edges
                     | None => edges
                     end in
        (reads, nins src offset ref_args, edges))
      (sources instr) acc
  else
    fold_left (fun acc src =>
        let '(reads, ref_args, edges) := acc in
        let reads := omap_entry_update Nat.compare [] src (oset_insert Nat.compare offset) reads in
        let edges := match nget src ref_args with
                     | Some p => add_edge p offset edges
                     | None => edges
                     end in
        (reads, ref_args, edges))
      (sources instr) acc.

Definition add_ref_arg_dependencies (local_is_mut_ref : TempIndex -> bool)
    (block : list Bytecode) (edges : Edges) : Edges :=
  let '(_, _, edges) := fold_left (ref_arg_step local_is_mut_ref) (enumerate block) ([], [], edges) in
  edges.

Definition is_relatively_non_reorderable (i : Bytecode) : bool :=
  match i with
  | Ret _ _ | Branch _ _ _ _ | Jump _ _ | Label _ _ | Abort _ _ => true
  | Call _ _ op _ _ =>
      can_abort op
      || match op with WriteRef | ReadRef | FreezeRef _ | Drop => true | _ => false end
  | _ => false
  end.

Definition add_relatively_non_reorderable_dependencies (block : list Bytecode) (edges : Edges)
    : Edges :=
  snd (fold_left (fun acc oi =>
           let '(prev, edges) := acc in
           if is_relatively_non_reorderable (snd oi) then
             (Some (fst oi),
              match prev with Some p => add_edge p (fst oi) edges | None => edges end)
           else acc)
         (enumerate block) (None, edges)).

(** Floyd-Warshall transitive closure over [0 .. num_nodes). *)
Definition make_transitively_closed (num_nodes : nat) (edges : Edges) : Edges :=
  fold_left (fun e k =>
    fold_left (fun e i =>
      fold_left (fun e j =>
          if has_edge i k e && has_edge k j e then add_edge i j e else e)
        (seq 0 num_nodes) e)
      (seq 0 num_nodes) e)
    (seq 0 num_nodes) edges.

(** The four constraint families, before the closure. *)
Definition dependence_edges (local_is_mut_ref : TempIndex -> bool) (block : list Bytecode)
    (g : UseDefGraph) : Edges :=
  add_relatively_non_reorderable_dependencies block
    (add_ref_arg_dependencies local_is_mut_ref block
       (add_true_dependencies g (add_false_dependencies block []))).

(** ** [InstructionReordering::dfs_post_order_numbering] *)

Definition Numbering := list (list (option CodeOffset)).

(** [ordering[i].push(x)] *)
Fixpoint push_at {A} (rows : list (list A)) (i : nat) (x : A) : list (list A) :=
  match rows, i with
  | [], _ => []
  | r :: t, 0 => (r ++ [x]) :: t
  | r :: t, S i' => r :: push_at t i' x
  end.

(** [dfs_recurse] with explicit [visited], [ordering] and [num]. The fuel
    bounds the recursion depth; every level inserts a new node into
    [visited], so [S (length block)] is never exhausted on the graph of a
    block. *)
Fixpoint dfs_recurse (fuel : nat) (node : CodeOffset) (graph : UseDefGraph)
    (st : list CodeOffset * Numbering * nat) : list CodeOffset * Numbering * nat :=
  match fuel with
  | 0 => st
  | S f =>
      let '(visited, ordering, num) := st in
      if oset_mem Nat.compare node visited then st else
      let deps := match nget node graph with Some ds => flat_opt ds | None => [] end in
      let '(visited, ordering, num) :=
        fold_left (fun st d => dfs_recurse f d graph st) deps
          (oset_insert Nat.compare node visited, ordering, num) in
      (visited, push_at ordering node (Some num), S num)
  end.

Definition has_sources (i : Bytecode) : bool :=
  match sources i with [] => false | _ => true end.

Definition dfs_run (block : list Bytecode) (graph : UseDefGraph)
    (st : Numbering * list CodeOffset) (offset : CodeOffset) : Numbering * list CodeOffset :=
  let '(true_dependencies, visited_by_any_run) := st in
  match nth_error block offset with
  | None => st
  | Some instr =>
      if negb (oset_mem Nat.compare offset visited_by_any_run)
         && is_relatively_non_reorderable instr && has_sources instr then
        let '(visited_by_this_run, td, _) :=
          dfs_recurse (S (length block)) offset graph ([], true_dependencies, 0) in
        let max_len := length (nth offset td []) in
        let td := map (fun order => if length order <? max_len then order ++ [None] else order) td in
        (td, fold_left (fun s x => oset_insert Nat.compare x s) visited_by_this_run
               visited_by_any_run)
      else st
  end.

Definition dfs_post_order_numbering (block : list Bytecode) (graph : UseDefGraph) : Numbering :=
  fst (fold_left (dfs_run block graph) (rev (seq 0 (length block)))
         (repeat [] (length block), [])).

(** ** [OrderingConstraints] and the total-order selection *)

Record OrderingConstraints := mkOC {
  dependencies : Edges;
  dfs_numberings : Numbering
}.

(** The loop over the zipped numbering vectors: the first column where both
    sides are [Some] decides. *)
Fixpoint first_defined_column (a b : list (option CodeOffset)) : option comparison :=
  match a, b with
  | Some x :: _, Some y :: _ => Some (Nat.compare x y)
  | _ :: a', _ :: b' => first_defined_column a' b'
  | _, _ => None
  end.

(** The comparator passed to [sort_by]. *)
Definition order_cmp (oc : OrderingConstraints) (a b : CodeOffset) : comparison :=
  if has_edge a b (dependencies oc) then Lt
  else if has_edge b a (dependencies oc) then Gt
  else
    let na := nth a (dfs_numberings oc) [] in
    let nb := nth b (dfs_numberings oc) [] in
    match first_defined_column na nb with
    | Some c => c
    | None =>
        match cmp_list (cmp_option Nat.compare) na nb with
        | Eq => Nat.compare a b
        | r => r
        end
    end.

(** [slice::sort_by] and [slice::sort_by_key]. On slices of at most 20
    elements ([MAX_LEN_ALWAYS_INSERTION_SORT] of the standard library's
    stable sort, the same bound as [MAX_INSERTION] in the merge sort of
    older toolchains) the sort is exactly
    [insertion_sort_shift_left(v, 1, is_less)] with
    [is_less a b = (compare(a, b) == Less)]: every element is shifted left
    while it is less than its left neighbour. *)
Section Sort.
  Context {A : Type} (is_less : A -> A -> bool).

  (** [insert_tail] on the sorted prefix, kept reversed. *)
Fixpoint insert_tail (x : A) (rev_sorted : list A) : list A :=
    match rev_sorted with
    | y :: t => if is_less x y then y :: insert_tail x t else x :: rev_sorted
    | [] => [x]
    end.

Definition insertion_sort_shift_left (v : list A) : list A :=
    rev (fold_left (fun acc x => insert_tail x acc) v []).
End Sort.

Definition MAX_LEN_ALWAYS_INSERTION_SORT : nat := 20.

Definition is_less_of {A} (cmp : A -> A -> comparison) (a b : A) : bool :=
  match cmp a b with Lt => true | _ => false end.

(** On more than 20 elements the library runs driftsort (a merge sort on
    older toolchains), whose result is not modelled. The library guarantees
    only that, when the sort returns, the slice holds a permutation of its
    elements; with a comparator that is not a total order it may panic. A
    [LargeSort] is any such behaviour: [ls_sort cmp v = None] is the panic,
    [Some w] the order it leaves. *)
Record LargeSort := mkLargeSort {
  ls_sort : (CodeOffset -> CodeOffset -> comparison) -> list CodeOffset -> option (list CodeOffset);
  ls_sort_perm : forall cmp v w, ls_sort cmp v = Some w -> Permutation w v
}.

(** [order.sort_by(cmp)]; [None] is a panic. *)
Definition sort_by (ls : LargeSort) (cmp : CodeOffset -> CodeOffset -> comparison)
    (v : list CodeOffset) : option (list CodeOffset) :=
  if length v <=? MAX_LEN_ALWAYS_INSERTION_SORT
  then Some (insertion_sort_shift_left (is_less_of cmp) v)
  else ls_sort ls cmp v.

(** [v.sort_by_key(key)] with a key into [usize]: the order is total, so
    every stable sort, at any length, returns the list that insertion sort
    computes, and none panics. *)
Definition sort_by_key {A} (key : A -> nat) (v : list A) : list A :=
  insertion_sort_shift_left (fun a b => key a <? key b) v.

(** [None] is a panic of the sort. *)
Definition get_ordered_instr_indices (ls : LargeSort) (oc : OrderingConstraints)
    : option (list CodeOffset) :=
  sort_by ls (order_cmp oc) (seq 0 (length (dfs_numberings oc))).

Record OrderInfo := mkOrderInfo {
  oi_dependencies : list CodeOffset;
  oi_dfs_numberings : list (option CodeOffset)
}.

Definition OrderingAnnotation := NatMap OrderInfo.
Definition PrepareUseAnnotation := PrepareUseMap.

Definition remap_and_convert_to_annotation (oc : OrderingConstraints) (remap : list CodeOffset)
    : OrderingAnnotation :=
  fst (fold_left (fun acc od =>
           let '(ordering, deps) := acc in
           let '(offset, dfs) := od in
           let d := match nget offset deps with Some s => s | None => [] end in
           (nins (nth offset remap 0) (mkOrderInfo d dfs) ordering,
            omap_remove Nat.compare offset deps))
         (enumerate (dfs_numberings oc)) ([], dependencies oc)).

(** [index_remapping[reordered_indices[i]] = i] *)
Definition index_remapping (order : list CodeOffset) : list CodeOffset :=
  fold_left (fun r ix => list_set r (snd ix) (fst ix)) (enumerate order) (repeat 0 (length order)).

Definition remap_prepare_use_map (remap : list CodeOffset) (pum : PrepareUseMap) : PrepareUseMap :=
  fold_left (fun m kv =>
      let '(k, (u, pos, b)) := kv in
      nins (nth k remap 0) (nth u remap 0, pos, b) m) pum [].

(** ** [InstructionReordering::optimize_block_for_stack_machine] *)

Record ReorderedBlock := mkReorderedBlock {
  rb_block : list Bytecode;
  rb_ordering : OrderingAnnotation;
  rb_touch_use : PrepareUseAnnotation
}.

(** What [optimize_block_for_stack_machine] computes before the sort:
    [new_block] after [Prepare] synthesis, its use-def graph, the
    [prepare_use_map] (before remapping), the four families of edges before
    the closure, and the ordering constraints. *)
Record BlockConstraints := mkBlockConstraints {
  bc_block : list Bytecode;
  bc_graph : UseDefGraph;
  bc_prepare_use : PrepareUseMap;
  bc_edges : Edges;
  bc_constraints : OrderingConstraints
}.

Definition block_constraints (local_is_mut_ref : TempIndex -> bool) (block : list Bytecode)
    : BlockConstraints :=
  let '(new_block, use_def_graph, prepare_use_map) := ordered_edge_data_dependence_graph block in
  let edges := dependence_edges local_is_mut_ref new_block use_def_graph in
  mkBlockConstraints new_block use_def_graph prepare_use_map edges
    (mkOC (make_transitively_closed (length new_block) edges)
       (dfs_post_order_numbering new_block use_def_graph)).

(** The intermediate values of one non-skipped block. *)
Record BlockRun := mkBlockRun {
  br_block : list Bytecode;        (* [new_block] after [Prepare] synthesis *)
  br_graph : UseDefGraph;
  br_prepare_use : PrepareUseMap;  (* before remapping *)
  br_edges : Edges;                (* the four families, before the closure *)
  br_constraints : OrderingConstraints;
  br_order : list CodeOffset;      (* [reordered_indices] *)
  br_remap : list CodeOffset       (* [index_remapping] *)
}.

Definition run_with (c : BlockConstraints) (order : list CodeOffset) : BlockRun :=
  mkBlockRun (bc_block c) (bc_graph c) (bc_prepare_use c) (bc_edges c) (bc_constraints c)
    order (index_remapping order).

(** [None] is a panic of the sort. *)
Definition run_block (ls : LargeSort) (local_is_mut_ref : TempIndex -> bool) (block : list Bytecode)
    : option BlockRun :=
  let c := block_constraints local_is_mut_ref block in
  match get_ordered_instr_indices ls (bc_constraints c) with
  | Some order => Some (run_with c order)
  | None => None
  end.

(** The order [get_ordered_instr_indices] computes for a block of at most
    20 instructions. *)
Definition small_order (c : BlockConstraints) : list CodeOffset :=
  insertion_sort_shift_left (is_less_of (order_cmp (bc_constraints c)))
    (seq 0 (length (dfs_numberings (bc_constraints c)))).

(** [code[lower..=upper]] *)
Definition slice (code : list Bytecode) (lower upper : CodeOffset) : list Bytecode :=
  firstn (S upper - lower) (skipn lower code).

Definition has_abort_action (i : Bytecode) : bool :=
  match i with Call _ _ _ _ (Some _) => true | _ => false end.

Definition is_spec_block (i : Bytecode) : bool :=
  match i with SpecBlock _ _ => true | _ => false end.

(** The per-block skip condition. *)
Definition skip_block (new_block : list Bytecode) : bool :=
  (128 <? length new_block)
  || existsb (fun i => is_spec_only i || is_spec_block i || has_abort_action i) new_block.

Definition reordered_of_run (r : BlockRun) : ReorderedBlock :=
  mkReorderedBlock
    (map (fun v => nth v (br_block r) (Nop 0)) (br_order r))
    (remap_and_convert_to_annotation (br_constraints r) (br_remap r))
    (remap_prepare_use_map (br_remap r) (br_prepare_use r)).

(** [None] is a panic of the sort. *)
Definition optimize_block_for_stack_machine (ls : LargeSort) (local_is_mut_ref : TempIndex -> bool)
    (code : list Bytecode) (lower upper : CodeOffset) : option ReorderedBlock :=
  let new_block := slice code lower upper in
  if skip_block new_block then Some (mkReorderedBlock new_block [] [])
  else
    match run_block ls local_is_mut_ref new_block with
    | Some r => Some (reordered_of_run r)
    | None => None
    end.

(** ** [InstructionReordering::compute_reordered_instructions] and the processor *)

Record ReorderedFunction := mkReorderedFunction {
  rf_code : list Bytecode;
  rf_ordering : OrderingAnnotation;
  rf_touch_use : PrepareUseAnnotation
}.

(** What the pass reads of the [FunctionTarget]: its code, the mutability of
    the declared locals, and whether a [LiveVarAnnotation] is present. The
    block bounds come from [StacklessControlFlowGraph::new_forward] and are an
    input of the model. *)
Record FunctionTarget := mkFunctionTarget {
  ft_code : list Bytecode;
  ft_local_is_mut_ref : TempIndex -> bool;
  ft_has_live_vars : bool
}.

Definition concat_block (acc : list Bytecode * OrderingAnnotation * PrepareUseAnnotation)
    (rb : ReorderedBlock) :=
  let '(new_code, ordering_annotation, touch_use_annotation) := acc in
  let new_lower := length new_code in
  (new_code ++ rb_block rb,
   fold_left (fun m oi => nins (new_lower + fst oi) (snd oi) m) (rb_ordering rb) ordering_annotation,
   fold_left (fun m kv => let '(t, (u, p, b)) := kv in nins (new_lower + t) (new_lower + u, p, b) m)
     (rb_touch_use rb) touch_use_annotation).

(** One iteration of the loop over the blocks; [None] is a panic. *)
Definition concat_step (ls : LargeSort) (target : FunctionTarget)
    (acc : option (list Bytecode * OrderingAnnotation * PrepareUseAnnotation))
    (r : CodeOffset * CodeOffset) :=
  match acc with
  | None => None
  | Some acc =>
      match optimize_block_for_stack_machine ls (ft_local_is_mut_ref target) (ft_code target)
              (fst r) (snd r) with
      | Some rb => Some (concat_block acc rb)
      | None => None
      end
  end.

(** The outer [None] is a panic: of [expect] when the live-variable
    annotation is missing, or of the sort of a block; the inner [None] is
    the [return None]. *)
Definition compute_reordered_instructions (ls : LargeSort) (target : FunctionTarget)
    (cfg_block_ranges : list (CodeOffset * CodeOffset)) : option (option ReorderedFunction) :=
  let code := ft_code target in
  if existsb is_spec_only code then Some None
  else if negb (ft_has_live_vars target) then None
  else
    let block_ranges := sort_by_key fst cfg_block_ranges in
    match fold_left (concat_step ls target) block_ranges (Some ([], [], [])) with
    | Some (new_code, ordering, touch_use) =>
        Some (Some (mkReorderedFunction new_code ordering touch_use))
    | None => None
    end.

Inductive Annotation :=
| LiveVarAnnotation
| OrderingAnn (a : OrderingAnnotation)
| PrepareUseAnn (a : PrepareUseAnnotation)
| OtherAnnotation (n : nat).

Record FunctionData := mkFunctionData {
  fd_code : list Bytecode;
  fd_annotations : list Annotation
}.

(** [InstructionReorderingProcessor::process]; [None] is a panic. *)
Definition process (ls : LargeSort) (is_native : bool) (local_is_mut_ref : TempIndex -> bool)
    (cfg_block_ranges : list (CodeOffset * CodeOffset)) (data : FunctionData)
    : option FunctionData :=
  if is_native then Some data else
  let target := mkFunctionTarget (fd_code data) local_is_mut_ref
                  (existsb (fun a => match a with LiveVarAnnotation => true | _ => false end)
                     (fd_annotations data)) in
  match compute_reordered_instructions ls target cfg_block_ranges with
  | None => None
  | Some None => Some data
  | Some (Some rf) =>
      Some (mkFunctionData (rf_code rf) [OrderingAnn (rf_ordering rf); PrepareUseAnn (rf_touch_use rf)])
  end.

(** ** Vocabulary of the properties *)

(** Offset of the latest instruction strictly before [o] that writes [t]. *)
Fixpoint latest_write_before (block : list Bytecode) (o : CodeOffset) (t : TempIndex)
    : option CodeOffset :=
  match o with
  | 0 => None
  | S o' =>
      if existsb (Nat.eqb t) (dests (nth o' block (Nop 0))) then Some o'
      else latest_write_before block o' t
  end.

(** All reads [(offset, position, temporary)] of a block. *)
Definition use_sites (block : list Bytecode) : list (CodeOffset * nat * TempIndex) :=
  flat_map (fun ui => map (fun pt => (fst ui, fst pt, snd pt)) (enumerate (sources (snd ui))))
    (enumerate block).

(** Reads of [t] in a non-last source position. *)
Definition nonlast_reads (block : list Bytecode) (t : TempIndex) : nat :=
  length (filter (fun s => let '(u, pos, t') := s in
                    (t' =? t) && (S pos <? length (sources (nth u block (Nop 0)))))
            (use_sites block)).

Definition opt_eqb (x y : option nat) : bool :=
  match x, y with
  | None, None => true
  | Some a, Some b => a =? b
  | _, _ => false
  end.

(** Reads of the definition of [t] reaching offset [u] (last positions included):
    the size of the entry [(t, def)] of [uses]. *)
Definition reads_of_def (block : list Bytecode) (t : TempIndex) (d : option CodeOffset) : nat :=
  length (filter (fun s => let '(u, _, t') := s in
                    (t' =? t) && opt_eqb (latest_write_before block u t') d)
            (use_sites block)).

Definition respects_dependences (r : BlockRun) : Prop :=
  forall a b, has_edge a b (br_edges r) = true -> nth a (br_remap r) 0 < nth b (br_remap r) 0.

Definition prepared_temp (i : Bytecode) : TempIndex := hd 0 (sources i).

Definition not_prepare (i : Bytecode) : bool := negb (is_prepare i).

(** Paths of [e] whose intermediate nodes satisfy [P]. *)
Inductive reach (P : nat -> Prop) (e : Edges) : CodeOffset -> CodeOffset -> Prop :=
| reach_edge a b : has_edge a b e = true -> reach P e a b
| reach_via a c b : reach P e a c -> P c -> reach P e c b -> reach P e a b.

(** The instruction at [o] is relatively non-reorderable. *)
Definition nr_at (block : list Bytecode) (o : CodeOffset) : bool :=
  is_relatively_non_reorderable (nth o block (Nop 0)).

(** Failing inputs. *)
Definition lt_load_jump : list Bytecode := [Call 0 [2] Lt_ [0; 1] None; Load 1 3 7; Jump 2 0].
Definition add_add_swapped : list Bytecode :=
  [Call 0 [2] Add [0; 1] None; Call 1 [3] Add [1; 0] None].
Definition single_add : list Bytecode := [Call 0 [2] Add [0; 1] None].
Definition add_then_borrow : list Bytecode :=
  [Call 0 [2] Add [0; 1] None; Call 1 [3] BorrowLoc [0] None].
Definition spec_fun : FunctionTarget :=
  mkFunctionTarget [Call 0 [2] Add [0; 1] None; Prop_ 1 0; Ret 2 [2]] (fun _ => true) true.

(** Two blocks, the second skipped for its call with an abort action. *)
Definition abort_call_fun : FunctionTarget :=
  mkFunctionTarget
    [Call 0 [2] Add [0; 1] None; Jump 1 0;
     Call 2 [] (Function 0 0) [] (Some (MkAbortAction 0 0)); Ret 3 []]
    (fun _ => false) true.

(** A behaviour of the sort on more than 20 elements that the library's
    contract allows: it always panics. *)
Definition panicking_sort : LargeSort :=
  mkLargeSort (fun _ _ => None) (fun _ _ _ H => ltac:(discriminate H)).

(** * Properties *)

Module Scenarios.
  (* spec 8, scenario 1: R := Add(x, y) *)
Example s1 : ordered_edge_data_dependence_graph [Call 0 [2] Add [0; 1] None]
    = ([Call 0 [2] Add [0; 1] None; mk_prepare 0 0], [(0, [Some 1; None])], [(1, (0, 0, false))]).
  Proof. reflexivity. Qed.
  (* scenario 2: t := Assign(x); R := Add(t, y) *)
Example s2 : ordered_edge_data_dependence_graph [Assign 0 3 0 Copy; Call 1 [2] Add [3; 1] None]
    = ([Assign 0 3 0 Copy; Call 1 [2] Add [3; 1] None; mk_prepare 1 3],
       [(0, [None]); (1, [Some 2; None]); (2, [Some 0])], [(2, (1, 0, false))]).
  Proof. reflexivity. Qed.
  (* scenario 3: A := Add(x, y); B := Add(x, z) *)
Example s3 : ordered_edge_data_dependence_graph
      [Call 0 [3] Add [0; 1] None; Call 1 [4] Add [0; 2] None]
    = ([Call 0 [3] Add [0; 1] None; Call 1 [4] Add [0; 2] None; mk_prepare 0 0; mk_prepare 1 0],
       [(0, [Some 2; None]); (1, [Some 3; None])], [(2, (0, 0, true)); (3, (1, 0, true))]).
  Proof. reflexivity. Qed.
End Scenarios.

(** ** Counterexamples *)

(** C1 (fails): in [t2 := Lt(t0, t1); t3 := Load 7; Jump], the [Prepare(t0)]
    synthesized at offset 3 must precede the [Lt] at offset 0 (a true
    dependence), but the comparator falls back on offsets for the unrelated
    [Load], so the insertion sort never moves the [Prepare] past it: the
    permutation is the identity and the edge [3 -> 0] is violated. The
    extended block has 4 instructions, so this holds whatever the sort does
    on more than 20 elements. *)
Lemma dependence_edge_violated (ls : LargeSort) :
  ~ (forall local_is_mut_ref code lower upper,
        skip_block (slice code lower upper) = false ->
        forall r, run_block ls local_is_mut_ref (slice code lower upper) = Some r ->
        respects_dependences r).
Proof.
  intro H.
  specialize (H (fun _ => false) lt_load_jump 0 2 eq_refl
                (run_with (block_constraints (fun _ => false) lt_load_jump) [0; 1; 2; 3])
                ltac:(vm_compute; reflexivity) 3 0 eq_refl).
  vm_compute in H. lia.
Qed.

(** The same block, evaluated: the edge, the identity permutation. *)
Lemma lt_load_jump_run (ls : LargeSort) :
  let c := block_constraints (fun _ => false) lt_load_jump in
  run_block ls (fun _ => false) lt_load_jump = Some (run_with c [0; 1; 2; 3])
  /\ has_edge 3 0 (bc_edges c) = true /\ bc_prepare_use c = [(3, (0, 0, false))].
Proof. vm_compute. repeat split. Qed.

(** A second way the constraint graph fails to be acyclic: the reference
    argument walk does not stop at the appended [Prepare]s. In
    [t2 := Add(t0, t1); t3 := BorrowLoc(t0)] (with [t3] a mutable reference)
    the edges [0 -> 1] (read before borrow), [1 -> 2] (borrow before the
    [Prepare(t0)] read) and [2 -> 0] (true dependence) form a cycle. *)
Lemma ref_arg_cycle :
  let e := bc_edges (block_constraints (fun _ => true) add_then_borrow) in
  has_edge 0 1 e = true /\ has_edge 1 2 e = true /\ has_edge 2 0 e = true.
Proof. vm_compute. repeat split. Qed.

(** C6 (fails): on the same block the [Prepare] is emitted after its use. *)
Lemma prepare_after_use (ls : LargeSort) :
  ~ (forall local_is_mut_ref code lower upper,
        skip_block (slice code lower upper) = false ->
        forall rb, optimize_block_for_stack_machine ls local_is_mut_ref code lower upper = Some rb ->
        forall p u pos m, nget p (rb_touch_use rb) = Some (u, pos, m) -> p < u).
Proof.
  intro H.
  specialize (H (fun _ => false) lt_load_jump 0 2 eq_refl
                (reordered_of_run (run_with (block_constraints (fun _ => false) lt_load_jump) [0; 1; 2; 3]))
                ltac:(vm_compute; reflexivity) 3 0 0 false ltac:(vm_compute; reflexivity)).
  lia.
Qed.

(** C3 (fails): in [t2 := Add(t0, t1); t3 := Add(t1, t0)] both [Prepare]s are
    flagged multi-use, although each temporary is read only once in a
    non-last position: the last-position reads count as uses. *)
Lemma multi_use_counts_last_reads :
  ~ (exists ls : LargeSort, forall local_is_mut_ref code lower upper,
        skip_block (slice code lower upper) = false ->
        forall rb, optimize_block_for_stack_machine ls local_is_mut_ref code lower upper = Some rb ->
        forall p u pos m,
          nget p (rb_touch_use rb) = Some (u, pos, m) ->
          (m = true <-> 1 < nonlast_reads (rb_block rb) (prepared_temp (nth p (rb_block rb) (Nop 0))))).
Proof.
  intros [ls H].
  pose (c := block_constraints (fun _ => false) add_add_swapped).
  specialize (H (fun _ => false) add_add_swapped 0 1 eq_refl
                (reordered_of_run (run_with c (small_order c)))
                ltac:(vm_compute; reflexivity) 0 1 0 true ltac:(vm_compute; reflexivity)).
  vm_compute in H. destruct H as [H _]. specialize (H eq_refl). lia.
Qed.

(** C4 (fails): running the block step on its own output [Prepare(t0); Add(t0, t1)]
    synthesizes one more [Prepare]. *)
Lemma rerun_synthesizes_prepare :
  ~ (exists ls : LargeSort, forall local_is_mut_ref code lower upper rb,
        optimize_block_for_stack_machine ls local_is_mut_ref code lower upper = Some rb ->
        skip_block (rb_block rb) = false -> p_instrs (fst (synthesize_prepares (rb_block rb))) = []).
Proof.
  intros [ls H].
  pose (c := block_constraints (fun _ => false) single_add).
  specialize (H (fun _ => false) single_add 0 0 (reordered_of_run (run_with c (small_order c)))
                ltac:(vm_compute; reflexivity) eq_refl).
  vm_compute in H. discriminate H.
Qed.

(** C5 (fails): a block holding a spec-only instruction makes the whole
    function computation return [None]: nothing is reordered and no
    annotation is produced. *)
Lemma spec_only_block_aborts_function :
  ~ (exists ls : LargeSort, forall target ranges,
        ft_has_live_vars target = true ->
        (forall r, In r ranges ->
           skip_block (slice (ft_code target) (fst r) (snd r)) = true ->
           exists rf, compute_reordered_instructions ls target ranges = Some (Some rf))).
Proof.
  intros [ls H].
  destruct (H spec_fun [(0, 2)] eq_refl (0, 2) (or_introl eq_refl) eq_refl) as [rf Hrf].
  vm_compute in Hrf. discriminate Hrf.
Qed.

(** ** Ordered containers: lemmas *)

Section OrderedFacts.
  Context {K : Type} (kcmp : K -> K -> comparison).
  Hypothesis kcmp_eq : forall a b, kcmp a b = Eq <-> a = b.
  Hypothesis kcmp_opp : forall a b, kcmp b a = CompOpp (kcmp a b).
  Hypothesis kcmp_trans : forall a b c, kcmp a b = Lt -> kcmp b c = Lt -> kcmp a c = Lt.

Lemma kcmp_refl a : kcmp a a = Eq.
  Proof. apply kcmp_eq; reflexivity. Qed.

Lemma kcmp_neq a b : a <> b -> kcmp a b <> Eq.
  Proof. intros H E; apply H, kcmp_eq, E. Qed.

Lemma omap_get_insert_same {V} (k : K) (v : V) m :
    omap_get kcmp k (omap_insert kcmp k v m) = Some v.
  Proof.
    induction m as [|[k' v'] t IH]; simpl.
    - rewrite kcmp_refl; reflexivity.
    - destruct (kcmp k k') eqn:E; simpl; rewrite ?kcmp_refl, ?E; auto.
  Qed.

Lemma omap_get_insert_other {V} (k k' : K) (v : V) m :
    k' <> k -> omap_get kcmp k' (omap_insert kcmp k v m) = omap_get kcmp k' m.
  Proof.
    intro Hne. induction m as [|[k0 v0] t IH]; simpl.
    - destruct (kcmp k' k) eqn:E; auto. apply kcmp_eq in E; congruence.
    - destruct (kcmp k k0) eqn:E; simpl.
      + apply kcmp_eq in E; subst k0.
        destruct (kcmp k' k) eqn:E'; auto. apply kcmp_eq in E'; congruence.
      + destruct (kcmp k' k) eqn:E'; auto. apply kcmp_eq in E'; congruence.
      + destruct (kcmp k' k0); auto.
  Qed.

Lemma omap_get_insert {V} (k k' : K) (v : V) m :
    omap_get kcmp k' (omap_insert kcmp k v m)
    = match kcmp k' k with Eq => Some v | _ => omap_get kcmp k' m end.
  Proof.
    destruct (kcmp k' k) eqn:E.
    - apply kcmp_eq in E; subst; apply omap_get_insert_same.
    - apply omap_get_insert_other; intro; subst; rewrite kcmp_refl in E; discriminate.
    - apply omap_get_insert_other; intro; subst; rewrite kcmp_refl in E; discriminate.
  Qed.

Lemma omap_get_In {V} (k : K) (v : V) m :
    omap_get kcmp k m = Some v -> In (k, v) m.
  Proof.
    induction m as [|[k' v'] t IH]; simpl; [discriminate|].
    destruct (kcmp k k') eqn:E; intro H; try (right; auto; fail).
    inversion H; subst. apply kcmp_eq in E; subst; auto.
  Qed.

Lemma omap_insert_keys_new {V} (k : K) (v : V) m :
    ~ In k (map fst m) -> Permutation (map fst (omap_insert kcmp k v m)) (k :: map fst m).
  Proof.
    induction m as [|[k' v'] t IH]; simpl; intro Hn; [auto|].
    destruct (kcmp k k') eqn:E; simpl.
    - apply kcmp_eq in E; subst; tauto.
    - auto.
    - rewrite IH by tauto. apply perm_swap.
  Qed.

Definition keys_sorted {V} (m : list (K * V)) : Prop :=
    StronglySorted (fun a b => kcmp a b = Lt) (map fst m).

Lemma omap_insert_keys_in {V} (k : K) (v : V) m x :
    In x (map fst (omap_insert kcmp k v m)) <-> x = k \/ In x (map fst m).
  Proof.
    induction m as [|[k' v'] t IH]; simpl; [intuition congruence|].
    destruct (kcmp k k') eqn:E; simpl.
    - apply kcmp_eq in E; subst; intuition congruence.
    - intuition congruence.
    - rewrite IH; intuition congruence.
  Qed.

Lemma omap_insert_sorted {V} (k : K) (v : V) m :
    keys_sorted m -> keys_sorted (omap_insert kcmp k v m).
  Proof.
    unfold keys_sorted.
    induction m as [|[k' v'] t IH]; simpl; intro S.
    - constructor; constructor.
    - inversion S as [|? ? S1 F1]; subst.
      destruct (kcmp k k') eqn:E; simpl.
      + apply kcmp_eq in E; subst. constructor; auto.
      + constructor; [constructor; auto|].
        constructor; [exact E|]. eapply Forall_impl; [|exact F1].
        intros a Ha; eapply kcmp_trans; eauto.
      + constructor; [apply IH; auto|].
        apply Forall_forall; intros x Hx.
        apply omap_insert_keys_in in Hx as [->|Hx].
        * rewrite kcmp_opp, E; reflexivity.
        * rewrite Forall_forall in F1; auto.
  Qed.

Lemma keys_sorted_NoDup {V} (m : list (K * V)) : keys_sorted m -> NoDup (map fst m).
  Proof.
    unfold keys_sorted. induction 1 as [|a l S IH F]; constructor; auto.
    intro Hin. rewrite Forall_forall in F. specialize (F a Hin).
    rewrite kcmp_refl in F; discriminate.
  Qed.

Lemma oset_insert_In (x y : K) s : In x (oset_insert kcmp y s) <-> x = y \/ In x s.
  Proof.
    induction s as [|z t IH]; simpl; [intuition congruence|].
    destruct (kcmp y z) eqn:E; simpl.
    - apply kcmp_eq in E; subst; intuition congruence.
    - intuition congruence.
    - rewrite IH; intuition congruence.
  Qed.

Lemma oset_insert_sorted (y : K) s :
    StronglySorted (fun a b => kcmp a b = Lt) s ->
    StronglySorted (fun a b => kcmp a b = Lt) (oset_insert kcmp y s).
  Proof.
    induction s as [|z t IH]; simpl; intro S.
    - constructor; constructor.
    - inversion S as [|? ? S1 F1]; subst.
      destruct (kcmp y z) eqn:E.
      + exact S.
      + constructor; [exact S|]. constructor; [exact E|].
        eapply Forall_impl; [|exact F1]. intros a Ha; eapply kcmp_trans; eauto.
      + constructor; [apply IH; auto|].
        apply Forall_forall; intros x Hx. apply oset_insert_In in Hx as [->|Hx].
        * rewrite kcmp_opp, E; reflexivity.
        * rewrite Forall_forall in F1; auto.
  Qed.

Lemma sorted_NoDup s : StronglySorted (fun a b => kcmp a b = Lt) s -> NoDup s.
  Proof.
    induction 1 as [|a l S IH F]; constructor; auto.
    intro Hin. rewrite Forall_forall in F. specialize (F a Hin).
    rewrite kcmp_refl in F; discriminate.
  Qed.

Lemma oset_mem_In (x : K) s : oset_mem kcmp x s = true <-> In x s.
  Proof.
    induction s as [|y t IH]; simpl; [split; [discriminate|tauto]|].
    destruct (kcmp x y) eqn:E.
    - apply kcmp_eq in E; subst; tauto.
    - rewrite IH; split; [tauto|]. intros [->|H]; auto. rewrite kcmp_refl in E; discriminate.
    - rewrite IH; split; [tauto|]. intros [->|H]; auto. rewrite kcmp_refl in E; discriminate.
  Qed.
End OrderedFacts.

Lemma nat_compare_opp a b : Nat.compare b a = CompOpp (Nat.compare a b).
Proof. apply Nat.compare_antisym. Qed.

Lemma nat_compare_trans a b c :
  Nat.compare a b = Lt -> Nat.compare b c = Lt -> Nat.compare a c = Lt.
Proof. rewrite !Nat.compare_lt_iff; lia. Qed.

Lemma nat_compare_eq_iff a b : Nat.compare a b = Eq <-> a = b.
Proof. apply Nat.compare_eq_iff. Qed.

Lemma nget_nins {V} (k k' : nat) (v : V) m :
  nget k' (nins k v m) = if k' =? k then Some v else nget k' m.
Proof.
  unfold nget, nins. rewrite (omap_get_insert Nat.compare nat_compare_eq_iff).
  destruct (Nat.compare k' k) eqn:E.
  - apply Nat.compare_eq_iff in E; subst; rewrite Nat.eqb_refl; auto.
  - apply Nat.compare_lt_iff in E. destruct (Nat.eqb_spec k' k); [lia|auto].
  - apply Nat.compare_gt_iff in E. destruct (Nat.eqb_spec k' k); [lia|auto].
Qed.

(** ** Lists, [list_set] and [push_at] *)

Lemma length_list_set {A} (l : list A) i x : length (list_set l i x) = length l.
Proof. revert i; induction l as [|y t IH]; intros [|i]; simpl; auto. Qed.

Lemma nth_list_set_same {A} (l : list A) i x d : i < length l -> nth i (list_set l i x) d = x.
Proof.
  revert i; induction l as [|y t IH]; intros [|i] H; simpl in *; try lia; auto.
  apply IH; lia.
Qed.

Lemma nth_list_set_other {A} (l : list A) i j x d : i <> j -> nth j (list_set l i x) d = nth j l d.
Proof.
  revert i j; induction l as [|y t IH]; intros [|i] [|j] H; simpl; auto; try congruence.
Qed.

Lemma length_push_at {A} (rows : list (list A)) i x : length (push_at rows i x) = length rows.
Proof. revert i; induction rows as [|r t IH]; intros [|i]; simpl; auto. Qed.

Lemma nth_push_at {A} (rows : list (list A)) i j x :
  nth j (push_at rows i x) [] = if (i =? j) && (i <? length rows) then nth j rows [] ++ [x]
                                else nth j rows [].
Proof.
  revert i j; induction rows as [|r t IH]; intros [|i] [|j]; simpl; rewrite ?andb_false_r; auto.
  all: try (destruct j; reflexivity).
Qed.

Lemma Permutation_filter' {A} (f : A -> bool) l l' :
  Permutation l l' -> Permutation (filter f l) (filter f l').
Proof.
  induction 1; simpl; auto.
  - destruct (f x); auto.
  - destruct (f x), (f y); auto. apply perm_swap.
  - eapply perm_trans; eauto.
Qed.

Lemma map_nth_seq_id {A} (l : list A) d : map (fun i => nth i l d) (seq 0 (length l)) = l.
Proof.
  induction l as [|x t IH]; simpl; auto. f_equal.
  rewrite <- seq_shift, map_map. simpl. exact IH.
Qed.

(** ** The sort returns a permutation *)

Lemma insert_tail_perm {A} (is_less : A -> A -> bool) x l :
  Permutation (insert_tail is_less x l) (x :: l).
Proof.
  induction l as [|y t IH]; simpl; auto.
  destruct (is_less x y); auto.
  eapply perm_trans; [apply perm_skip, IH|apply perm_swap].
Qed.

Lemma insertion_sort_perm {A} (is_less : A -> A -> bool) v :
  Permutation (insertion_sort_shift_left is_less v) v.
Proof.
  unfold insertion_sort_shift_left.
  assert (H : forall acc, Permutation (fold_left (fun acc x => insert_tail is_less x acc) v acc)
                            (rev v ++ acc)).
  { induction v as [|x t IH]; intro acc; simpl; auto.
    rewrite IH, <- app_assoc. simpl. apply Permutation_app_head.
    apply insert_tail_perm. }
  rewrite (H []), app_nil_r, rev_involutive. reflexivity.
Qed.

Lemma sort_by_perm ls cmp v w : sort_by ls cmp v = Some w -> Permutation w v.
Proof.
  unfold sort_by. destruct (length v <=? MAX_LEN_ALWAYS_INSERTION_SORT).
  - intro E. injection E as <-. apply insertion_sort_perm.
  - apply ls_sort_perm.
Qed.


(** ** [index_remapping] inverts the permutation *)

Lemma remap_fold_spec (l : list nat) s r :
  NoDup l -> (forall x, In x l -> x < length r) ->
  let F := fold_left (fun r ix => list_set r (snd ix) (fst ix)) (enumerate_from s l) r in
  length F = length r
  /\ (forall y, ~ In y l -> nth y F 0 = nth y r 0)
  /\ (forall j, j < length l -> nth (nth j l 0) F 0 = s + j).
Proof.
  revert s r; induction l as [|x t IH]; intros s r ND Hlt; simpl.
  - repeat split; auto. intros j H; simpl in H; lia.
  - inversion ND as [|? ? Hx ND']; subst.
    assert (Hlt' : forall y, In y t -> y < length (list_set r x s)).
    { intros y Hy; rewrite length_list_set; apply Hlt; right; exact Hy. }
    destruct (IH (S s) (list_set r x s) ND' Hlt') as [L1 [L2 L3]].
    repeat split.
    + rewrite L1, length_list_set; auto.
    + intros y Hy. rewrite L2 by tauto. apply nth_list_set_other. intro; subst; tauto.
    + intros [|j] Hj; simpl.
      * rewrite L2 by exact Hx. rewrite nth_list_set_same by (apply Hlt; left; auto). lia.
      * rewrite L3 by (simpl in Hj; lia). lia.
Qed.

Section Remap.
  Variable n : nat.
  Variable order : list nat.
  Hypothesis Hperm : Permutation order (seq 0 n).

Lemma order_length : length order = n.
  Proof. rewrite (Permutation_length Hperm), length_seq; auto. Qed.

Lemma order_NoDup : NoDup order.
  Proof. apply Permutation_NoDup with (seq 0 n); [apply Permutation_sym, Hperm|apply seq_NoDup]. Qed.

Lemma order_In x : In x order <-> x < n.
  Proof.
    split; intro H.
    - apply (Permutation_in _ Hperm), in_seq in H; lia.
    - apply (Permutation_in _ (Permutation_sym Hperm)), in_seq; lia.
  Qed.

Lemma remap_spec :
    length (index_remapping order) = n /\ forall i, i < n -> nth (nth i order 0) (index_remapping order) 0 = i.
  Proof.
    unfold index_remapping, enumerate, CodeOffset.
    destruct (remap_fold_spec order 0 (repeat 0 (length order)) order_NoDup)
      as [L1 [_ L3]].
    { intros x Hx. rewrite repeat_length, order_length. apply order_In, Hx. }
    split.
    - rewrite L1, repeat_length; apply order_length.
    - intros i Hi. rewrite L3 by (rewrite order_length; auto). lia.
  Qed.

Lemma remap_order_inv j : j < n -> nth j (index_remapping order) 0 < n /\ nth (nth j (index_remapping order) 0) order 0 = j.
  Proof.
    intro Hj. apply order_In in Hj.
    destruct (In_nth order j 0 Hj) as [i [Hi Ei]].
    rewrite order_length in Hi.
    pose proof (proj2 remap_spec i Hi) as R. rewrite Ei in R. rewrite R. auto.
  Qed.

Lemma remap_perm : Permutation (index_remapping order) (seq 0 n).
  Proof.
    apply NoDup_Permutation.
    - apply (NoDup_nth (index_remapping order) 0). rewrite (proj1 remap_spec).
      intros i j Hi Hj E.
      rewrite <- (proj2 (remap_order_inv i Hi)), <- (proj2 (remap_order_inv j Hj)), E. auto.
    - apply seq_NoDup.
    - intro x. rewrite in_seq. split.
      + intro Hx. apply (In_nth (index_remapping order) x 0) in Hx as [j [Hj <-]].
        rewrite (proj1 remap_spec) in Hj. pose proof (remap_order_inv j Hj); lia.
      + intro Hx. assert (Hx' : x < n) by lia.
        rewrite <- (proj2 remap_spec x Hx'). apply nth_In. rewrite (proj1 remap_spec).
        apply order_In, nth_In. rewrite order_length; auto.
  Qed.
End Remap.

(** ** DFS post-order numbering: one push per node and run *)

Lemma oset_mem_nat_In x s : oset_mem Nat.compare x s = true <-> In x s.
Proof. apply oset_mem_In, nat_compare_eq_iff. Qed.

Lemma oset_insert_nat_In x y s : In x (oset_insert Nat.compare y s) <-> x = y \/ In x s.
Proof. apply oset_insert_In, nat_compare_eq_iff. Qed.

(** Visited nodes keep their row, [visited] and [num] only grow. *)
Lemma dfs_mono f : forall node g v ord num v' ord' num',
  dfs_recurse f node g (v, ord, num) = (v', ord', num') ->
  (forall i, In i v -> In i v') /\ (forall i, In i v -> nth i ord' [] = nth i ord [])
  /\ num <= num' /\ length ord' = length ord.
Proof.
  induction f as [|f IH]; intros node g v ord num v' ord' num' E; simpl in E.
  - inversion E; subst; repeat split; auto.
  - destruct (oset_mem Nat.compare node v) eqn:Hm.
    + inversion E; subst; repeat split; auto.
    + assert (Fold : forall ds v0 ord0 num0 v1 ord1 num1,
                 fold_left (fun st d => dfs_recurse f d g st) ds (v0, ord0, num0) = (v1, ord1, num1) ->
                 (forall i, In i v0 -> In i v1) /\ (forall i, In i v0 -> nth i ord1 [] = nth i ord0 [])
                 /\ num0 <= num1 /\ length ord1 = length ord0).
      { induction ds as [|d ds IHds]; intros v0 ord0 num0 v1 ord1 num1 F; simpl in F.
        - inversion F; subst; repeat split; auto.
        - destruct (dfs_recurse f d g (v0, ord0, num0)) as [[va orda] numa] eqn:Ea.
          destruct (IH _ _ _ _ _ _ _ _ Ea) as [A1 [A2 [A3 A4]]].
          destruct (IHds _ _ _ _ _ _ F) as [B1 [B2 [B3 B4]]].
          repeat split; auto; try lia.
          intros i Hi. rewrite B2 by auto. auto. }
      destruct (fold_left _ _ _) as [[v2 ord2] num2] eqn:Ef.
      inversion E; subst v' ord' num'.
      destruct (Fold _ _ _ _ _ _ _ Ef) as [C1 [C2 [C3 C4]]].
      repeat split.
      * intros i Hi. apply C1, oset_insert_nat_In; auto.
      * intros i Hi. rewrite nth_push_at.
        destruct (Nat.eqb_spec node i).
        { subst. apply oset_mem_nat_In in Hi. congruence. }
        simpl. apply C2, oset_insert_nat_In; auto.
      * lia.
      * rewrite length_push_at; auto.
Qed.

(** The rows of a run, relative to the rows [R0] it started from. *)
Definition dfs_inv (R0 : Numbering) (st : list CodeOffset * Numbering * nat) : Prop :=
  let '(visited, ord, num) := st in
  length ord = length R0
  /\ (forall i, nth i ord [] = nth i R0 []
                \/ exists k, nth i ord [] = nth i R0 [] ++ [Some k] /\ k < num /\ In i visited)
  /\ (forall i j k, i <> j -> nth i ord [] = nth i R0 [] ++ [Some k] ->
                   nth j ord [] = nth j R0 [] ++ [Some k] -> False).

Lemma app_one_neq {A} (l : list A) x : l ++ [x] <> l.
Proof. intro H. apply (f_equal (@length A)) in H. rewrite length_app in H. simpl in H. lia. Qed.

Lemma app_one_inj {A} (l : list A) x y : l ++ [x] = l ++ [y] -> x = y.
Proof. intro H. apply app_inv_head in H. congruence. Qed.

Lemma dfs_inv_preserved R0 f : forall node g v ord num,
  dfs_inv R0 (v, ord, num) -> dfs_inv R0 (dfs_recurse f node g (v, ord, num)).
Proof.
  induction f as [|f IH]; intros node g v ord num Inv; simpl; auto.
  destruct (oset_mem Nat.compare node v) eqn:Hm; auto.
  assert (Fold : forall ds v0 ord0 num0,
             dfs_inv R0 (v0, ord0, num0) ->
             dfs_inv R0 (fold_left (fun st d => dfs_recurse f d g st) ds (v0, ord0, num0))).
  { induction ds as [|d ds IHds]; intros v0 ord0 num0 I0; simpl; auto.
    destruct (dfs_recurse f d g (v0, ord0, num0)) as [[va orda] numa] eqn:Ea.
    apply IHds. rewrite <- Ea. apply IH; auto. }
  assert (Inv1 : dfs_inv R0 (oset_insert Nat.compare node v, ord, num)).
  { destruct Inv as [I1 [I2 I3]]. split; [auto|split; [|auto]].
    intro i. destruct (I2 i) as [H|[k [Hk1 [Hk2 Hk3]]]]; [left; auto|right].
    exists k; repeat split; auto. apply oset_insert_nat_In; auto. }
  pose proof (Fold (match nget node g with Some ds => flat_opt ds | None => [] end) _ _ _ Inv1)
    as Inv2.
  destruct (fold_left _ _ _) as [[v2 ord2] num2] eqn:Ef.
  (* the row of [node] is untouched by the fold, hence still the initial one *)
  assert (Hnode : nth node ord2 [] = nth node R0 []).
  { assert (M : forall ds v0 ord0 num0 v1 ord1 num1,
               fold_left (fun st d => dfs_recurse f d g st) ds (v0, ord0, num0) = (v1, ord1, num1) ->
               forall i, In i v0 -> nth i ord1 [] = nth i ord0 []).
    { induction ds as [|d ds IHds]; intros v0 ord0 num0 v1 ord1 num1 F i Hi; simpl in F.
      - inversion F; subst; auto.
      - destruct (dfs_recurse f d g (v0, ord0, num0)) as [[va orda] numa] eqn:Ea.
        destruct (dfs_mono f d g v0 ord0 num0 va orda numa Ea) as [A1 [A2 _]].
        rewrite (IHds _ _ _ _ _ _ F i (A1 i Hi)). auto. }
    rewrite (M _ _ _ _ _ _ _ Ef node) by (apply oset_insert_nat_In; auto).
    destruct Inv as [_ [I2 _]]. destruct (I2 node) as [H|[k [_ [_ Hk]]]]; auto.
    apply oset_mem_nat_In in Hk; congruence. }
  assert (Hv2 : In node v2).
  { assert (M : forall ds v0 ord0 num0 v1 ord1 num1,
               fold_left (fun st d => dfs_recurse f d g st) ds (v0, ord0, num0) = (v1, ord1, num1) ->
               forall i, In i v0 -> In i v1).
    { induction ds as [|d ds IHds]; intros v0 ord0 num0 v1 ord1 num1 F i Hi; simpl in F.
      - inversion F; subst; auto.
      - destruct (dfs_recurse f d g (v0, ord0, num0)) as [[va orda] numa] eqn:Ea.
        destruct (dfs_mono f d g v0 ord0 num0 va orda numa Ea) as [A1 _].
        eapply IHds; eauto. }
    eapply M; eauto. apply oset_insert_nat_In; auto. }
  destruct Inv2 as [J1 [J2 J3]].
  split; [rewrite length_push_at; auto|split].
  - intro i. rewrite nth_push_at.
    destruct ((node =? i) && (node <? length ord2)) eqn:Hc.
    + apply andb_true_iff in Hc as [Hc _]. apply Nat.eqb_eq in Hc; subst i.
      right. exists num2. rewrite Hnode. repeat split; auto.
    + destruct (J2 i) as [H|[k [Hk1 [Hk2 Hk3]]]]; [left; auto|right].
      exists k; repeat split; auto.
  - intros i j k Hij Hi Hj. rewrite nth_push_at in Hi, Hj.
    destruct ((node =? i) && (node <? length ord2)) eqn:Ci;
    destruct ((node =? j) && (node <? length ord2)) eqn:Cj.
    + apply andb_true_iff in Ci as [Ci _]; apply andb_true_iff in Cj as [Cj _].
      apply Nat.eqb_eq in Ci, Cj; congruence.
    + apply andb_true_iff in Ci as [Ci _]; apply Nat.eqb_eq in Ci; subst i.
      rewrite Hnode in Hi. apply app_one_inj in Hi. inversion Hi; subst k.
      destruct (J2 j) as [H|[k' [Hk1 [Hk2 _]]]].
      * rewrite H in Hj. symmetry in Hj. apply app_one_neq in Hj; auto.
      * rewrite Hk1 in Hj. apply app_one_inj in Hj. inversion Hj; lia.
    + apply andb_true_iff in Cj as [Cj _]; apply Nat.eqb_eq in Cj; subst j.
      rewrite Hnode in Hj. apply app_one_inj in Hj. inversion Hj; subst k.
      destruct (J2 i) as [H|[k' [Hk1 [Hk2 _]]]].
      * rewrite H in Hi. symmetry in Hi. apply app_one_neq in Hi; auto.
      * rewrite Hk1 in Hi. apply app_one_inj in Hi. inversion Hi; lia.
    + eapply J3; eauto.
Qed.

(** A run seeded at an unvisited node of the block pushes onto its row. *)
Lemma dfs_seed_pushed f (node : CodeOffset) (g : UseDefGraph) (v : list CodeOffset) (ord : Numbering) (num : nat) :
  oset_mem Nat.compare node v = false -> node < length ord ->
  exists k, nth node (snd (fst (dfs_recurse (S f) node g (v, ord, num)))) []
            = nth node ord [] ++ [Some k].
Proof.
  intros Hm Hlt. simpl. rewrite Hm.
  destruct (fold_left _ _ _) as [[v2 ord2] num2] eqn:Ef. simpl.
  assert (M : forall ds v0 ord0 num0 v1 ord1 num1,
             fold_left (fun st d => dfs_recurse f d g st) ds (v0, ord0, num0) = (v1, ord1, num1) ->
             (forall i, In i v0 -> nth i ord1 [] = nth i ord0 []) /\ length ord1 = length ord0).
  { induction ds as [|d ds IHds]; intros v0 ord0 num0 v1 ord1 num1 F; simpl in F.
    - inversion F; subst; auto.
    - destruct (dfs_recurse f d g (v0, ord0, num0)) as [[va orda] numa] eqn:Ea.
      destruct (dfs_mono f d g v0 ord0 num0 va orda numa Ea) as [A1 [A2 [_ A4]]].
      destruct (IHds _ _ _ _ _ _ F) as [B1 B2]. split; [|congruence].
      intros i Hi. rewrite B1 by auto. auto. }
  destruct (M _ _ _ _ _ _ _ Ef) as [M1 M2].
  exists num2. rewrite nth_push_at, Nat.eqb_refl, M2.
  apply Nat.ltb_lt in Hlt. rewrite Hlt. simpl.
  rewrite M1; auto. apply oset_insert_nat_In; auto.
Qed.

(** Rows of equal length [L], and no number twice in a column. *)
Definition columns_ok (n L : nat) (td : Numbering) : Prop :=
  length td = n
  /\ (forall i, i < n -> length (nth i td []) = L)
  /\ (forall c i j x, i <> j -> nth c (nth i td []) None = Some x ->
                     nth c (nth j td []) None = Some x -> False).

Lemma nth_app_one {A} (l : list (option A)) (y : option A) c :
  nth c (l ++ [y]) None = if c <? length l then nth c l None
                          else if c =? length l then y else None.
Proof.
  destruct (Nat.ltb_spec c (length l)).
  - apply app_nth1; auto.
  - rewrite app_nth2 by auto. destruct (Nat.eqb_spec c (length l)).
    + subst. rewrite Nat.sub_diag. reflexivity.
    + destruct (c - length l) eqn:E; [lia|]. simpl. destruct n0; reflexivity.
Qed.

Lemma dfs_run_columns block g td vany offset L :
  columns_ok (length block) L td ->
  exists L', columns_ok (length block) L' (fst (dfs_run block g (td, vany) offset)).
Proof.
  intros [C1 [C2 C3]]. unfold dfs_run.
  destruct (nth_error block offset) as [instr|] eqn:Hn; [|exists L; split; auto].
  destruct (negb (oset_mem Nat.compare offset vany) && is_relatively_non_reorderable instr
            && has_sources instr) eqn:Hc; [|exists L; split; auto].
  assert (Hoff : offset < length td) by (rewrite C1; apply nth_error_Some; congruence).
  pose proof (dfs_inv_preserved td (S (length block)) offset g [] td 0) as Inv.
  pose proof (dfs_seed_pushed (length block) offset g [] td 0 eq_refl Hoff) as Hk0.
  destruct (dfs_recurse (S (length block)) offset g ([], td, 0)) as [[vthis td'] num'] eqn:Er.
  destruct Hk0 as [k0 Hk0]. simpl in Hk0. simpl fst.
  destruct Inv as [I1 [I2 I3]].
  { split; [auto|split].
    - intro i; left; auto.
    - intros i j k _ Hi. symmetry in Hi. apply app_one_neq in Hi; contradiction. }
  rewrite Hk0, length_app, C2 by (rewrite <- C1; auto). simpl.
  set (pad := fun order : list (option CodeOffset) => if length order <? L + 1 then order ++ [None] else order).
  assert (Pad : forall i, i < length block -> exists y,
             nth i (map pad td') [] = nth i td [] ++ [y]
             /\ (forall x, y = Some x -> nth i td' [] = nth i td [] ++ [Some x])).
  { intros i Hi. rewrite <- C1, <- I1 in Hi.
    rewrite (nth_indep (map pad td') [] (pad [])) by (rewrite length_map; auto). rewrite map_nth.
    assert (Li : length (nth i td []) = L) by (apply C2; rewrite <- C1, <- I1; auto).
    unfold pad; cbv beta. destruct (I2 i) as [H|[k [H _]]]; rewrite H.
    - exists None. split; [|discriminate].
      replace (length (nth i td []) <? L + 1) with true by (symmetry; apply Nat.ltb_lt; lia).
      reflexivity.
    - exists (Some k). rewrite length_app, Li. simpl.
      replace (L + 1 <? L + 1) with false by (symmetry; apply Nat.ltb_ge; lia).
      split; auto. intros x Hx; inversion Hx; subst; auto. }
  assert (Over : forall i, length block <= i -> nth i (map pad td') [] = []).
  { intros i Hi. apply nth_overflow. rewrite length_map. lia. }
  exists (S L). split; [|split].
  - rewrite length_map; congruence.
  - intros i Hi. destruct (Pad i Hi) as [y [Hy _]]. rewrite Hy, length_app, C2 by auto.
    simpl. lia.
  - intros c i j x Hij Hi Hj.
    destruct (Nat.lt_ge_cases i (length block)) as [Li|Li];
      [|rewrite Over in Hi by auto; destruct c; discriminate].
    destruct (Nat.lt_ge_cases j (length block)) as [Lj|Lj];
      [|rewrite Over in Hj by auto; destruct c; discriminate].
    destruct (Pad i Li) as [yi [Ri Si]], (Pad j Lj) as [yj [Rj Sj]].
    rewrite Ri, nth_app_one, C2 in Hi by auto.
    rewrite Rj, nth_app_one, C2 in Hj by auto.
    destruct (Nat.ltb_spec c L); [eapply C3; eauto|].
    destruct (Nat.eqb_spec c L); [|discriminate].
    subst yi yj. eapply I3; eauto.
Qed.

Lemma dfs_runs_columns block g : forall offs td vany L,
  columns_ok (length block) L td ->
  exists L', columns_ok (length block) L' (fst (fold_left (dfs_run block g) offs (td, vany))).
Proof.
  induction offs as [|o offs IH]; intros td vany L C; cbn [fold_left]; [exists L; auto|].
  destruct (dfs_run block g (td, vany) o) as [td2 v2] eqn:E.
  destruct (dfs_run_columns block g td vany o L C) as [L2 C2].
  rewrite E in C2. eapply IH; eauto.
Qed.

Lemma dfs_post_order_numbering_columns block g :
  exists L, columns_ok (length block) L (dfs_post_order_numbering block g).
Proof.
  unfold dfs_post_order_numbering. apply dfs_runs_columns with (L := 0).
  assert (R : forall i, nth i (repeat (@nil (option CodeOffset)) (length block)) [] = []).
  { intro i. destruct (Nat.lt_ge_cases i (length block)).
    - apply nth_repeat.
    - apply nth_overflow. rewrite repeat_length. auto. }
  split; [apply repeat_length|split].
  - intros i _. rewrite R. reflexivity.
  - intros c i j x _ Hi. rewrite R in Hi. destruct c; discriminate.
Qed.

(** C9: after [dfs_post_order_numbering], there is one numbering vector per
    instruction, all vectors have the same length, and two distinct
    instructions never hold the same number in the same column: the
    comparator's assertion that two defined entries of a column differ
    holds. *)
Theorem dfs_numbering_well_formed (block : list Bytecode) (graph : UseDefGraph) :
  let td := dfs_post_order_numbering block graph in
  length td = length block
  /\ (forall i j, i < length block -> j < length block ->
                  length (nth i td []) = length (nth j td []))
  /\ (forall c i j x y, i <> j -> nth c (nth i td []) None = Some x ->
                        nth c (nth j td []) None = Some y -> x <> y).
Proof.
  destruct (dfs_post_order_numbering_columns block graph) as [L [C1 [C2 C3]]].
  split; [auto|split].
  - intros i j Hi Hj. rewrite C2, C2; auto.
  - intros c i j x y Hij Hi Hj E. subst y. eapply C3; eauto.
Qed.

(** ** Synthesis appends only [Prepare]s; the block's order is a permutation *)

Lemma fold_left_inv {S X} (P : S -> Prop) (f : S -> X -> S) :
  (forall s x, P s -> P (f s x)) -> forall l s, P s -> P (fold_left f l s).
Proof. intros Hf l. induction l; simpl; auto. Qed.

Definition all_prepares (l : list Bytecode) : Prop := Forall (fun i => is_prepare i = true) l.

Lemma all_prepares_snoc l a t : all_prepares l -> all_prepares (l ++ [mk_prepare a t]).
Proof. intro H. apply Forall_app; split; auto. Qed.

Lemma phaseA_slot_prepares block u ui acc x :
  all_prepares (snd (fst acc)) -> all_prepares (snd (fst (phaseA_slot block u ui acc x))).
Proof.
  destruct acc as [[[defs0 pum0] ins0] pe0], x as [pos [def tmp]]. simpl. intro Hs.
  destruct def as [d|]; simpl; [|apply all_prepares_snoc; auto].
  destruct (nth_error block d); auto. destruct (is_assign b); simpl; auto.
  apply all_prepares_snoc; auto.
Qed.

Lemma synthesized_all_prepares block : all_prepares (p_instrs (fst (synthesize_prepares block))).
Proof.
  unfold synthesize_prepares. simpl.
  apply (fold_left_inv (fun st => all_prepares (p_instrs st))).
  - intros st [[tmp d] ups] H. unfold phaseB_group.
    destruct (1 <? length ups); auto.
    apply (fold_left_inv (fun st => all_prepares (p_instrs st))); auto.
    intros s [u pos] Hs. unfold phaseB_use.
    destruct (nth_error block u); auto.
    destruct (match sources b with [] => true | _ => pos =? length (sources b) - 1 end); auto.
    destruct (nget u (p_graph s)); auto.
    destruct (nth pos l None); auto.
    destruct (length block <=? c).
    + destruct (nget c (p_map s)) as [[[? ?] ?]|]; auto.
    + apply all_prepares_snoc; auto.
  - apply (fold_left_inv (fun st => all_prepares (p_instrs st))); [|constructor].
    intros st [u ui] H. unfold phaseA_instr.
    destruct (length (sources ui) <? 2); auto.
    destruct (nget u (p_graph st)) as [defs|]; auto.
    pose proof (fold_left_inv
                  (fun acc : list (option CodeOffset) * PrepareUseMap * list Bytecode * NatMap CodeOffset =>
                     all_prepares (snd (fst acc)))
                  (phaseA_slot block u ui) (phaseA_slot_prepares block u ui)
                  (enumerate (firstn (match defs with [] => 0 | _ => length defs - 1 end)
                                (combine defs (sources ui))))
                  (defs, p_map st, p_instrs st, p_edges st) H) as F.
    destruct (fold_left _ _ _) as [[[? ?] ?] ?]. exact F.
Qed.

Lemma dfs_post_order_numbering_length block g :
  length (dfs_post_order_numbering block g) = length block.
Proof. destruct (dfs_post_order_numbering_columns block g) as [L [C _]]. exact C. Qed.

Lemma block_constraints_block f block :
  bc_block (block_constraints f block) = block ++ p_instrs (fst (synthesize_prepares block)).
Proof. reflexivity. Qed.

Lemma block_constraints_numberings f block :
  length (dfs_numberings (bc_constraints (block_constraints f block)))
  = length (bc_block (block_constraints f block)).
Proof.
  unfold block_constraints. destruct (ordered_edge_data_dependence_graph block) as [[? ?] ?].
  apply dfs_post_order_numbering_length.
Qed.

(** When the sort returns, the run is the constraints with a permutation
    of [[0, N)] as order. *)
Lemma run_block_Some ls f block r :
  run_block ls f block = Some r ->
  exists order, r = run_with (block_constraints f block) order
    /\ Permutation order (seq 0 (length (bc_block (block_constraints f block)))).
Proof.
  unfold run_block. destruct (get_ordered_instr_indices _ _) as [order|] eqn:E; [|discriminate].
  intro H. injection H as <-. exists order. split; auto.
  rewrite <- block_constraints_numberings. apply (sort_by_perm ls _ _ _ E).
Qed.


Lemma optimize_not_skipped ls f code lower upper :
  skip_block (slice code lower upper) = false ->
  optimize_block_for_stack_machine ls f code lower upper
  = match run_block ls f (slice code lower upper) with
    | Some r => Some (reordered_of_run r)
    | None => None
    end.
Proof. intro H. unfold optimize_block_for_stack_machine. rewrite H. reflexivity. Qed.

Lemma reordered_block_perm c order :
  Permutation order (seq 0 (length (bc_block c))) ->
  Permutation (rb_block (reordered_of_run (run_with c order))) (bc_block c).
Proof.
  intro P. unfold reordered_of_run. simpl rb_block.
  eapply perm_trans; [apply Permutation_map, P|].
  rewrite map_nth_seq_id. apply Permutation_refl.
Qed.

Lemma filter_all_prepares l : all_prepares l -> filter not_prepare l = [].
Proof.
  induction 1 as [|x l Hx _ IH]; simpl; auto. unfold not_prepare. rewrite Hx. auto.
Qed.

Lemma reordered_block_non_prepares f block order :
  Permutation order (seq 0 (length (bc_block (block_constraints f block)))) ->
  Permutation (filter not_prepare (rb_block (reordered_of_run (run_with (block_constraints f block) order))))
              (filter not_prepare block).
Proof.
  intro P. eapply perm_trans; [apply Permutation_filter', reordered_block_perm, P|].
  rewrite block_constraints_block, filter_app,
    (filter_all_prepares (p_instrs _) (synthesized_all_prepares block)), app_nil_r.
  apply Permutation_refl.
Qed.

(** C2: for a block that is not skipped, of post-synthesis length [N], when
    the sort returns (it always does for [N <= 20]; on more elements the
    library may panic), the order chosen by [get_ordered_instr_indices] is
    a permutation of [[0, N)], [index_remapping] inverts it and is itself a
    permutation of [[0, N)] (a bijection on [[0, N)]), the reordered block
    is a rearrangement of the extended block, and the non-[Prepare]
    instructions of the reordered block are, as a multiset, those of the
    original block. This holds for every behaviour of the sort on more than
    20 elements that the library allows. *)
Theorem block_order_is_permutation (ls : LargeSort) (local_is_mut_ref : TempIndex -> bool)
    (code : list Bytecode) (lower upper : CodeOffset) (r : BlockRun) :
  skip_block (slice code lower upper) = false ->
  run_block ls local_is_mut_ref (slice code lower upper) = Some r ->
  let N := length (br_block r) in
  let out := rb_block (reordered_of_run r) in
  optimize_block_for_stack_machine ls local_is_mut_ref code lower upper = Some (reordered_of_run r)
  /\ Permutation (br_order r) (seq 0 N)
  /\ length (br_remap r) = N
  /\ (forall i, i < N -> nth (nth i (br_order r) 0) (br_remap r) 0 = i)
  /\ Permutation (br_remap r) (seq 0 N)
  /\ Permutation out (br_block r)
  /\ Permutation (filter not_prepare out) (filter not_prepare (slice code lower upper)).
Proof.
  intros Hskip Hr N out.
  assert (Ho : optimize_block_for_stack_machine ls local_is_mut_ref code lower upper
               = Some (reordered_of_run r)) by (rewrite optimize_not_skipped, Hr; auto).
  destruct (run_block_Some _ _ _ _ Hr) as [order [-> P]].
  unfold out, N in *. cbn [br_order br_remap br_block run_with] in *.
  destruct (remap_spec _ order P) as [R1 R2].
  repeat split; auto.
  - apply remap_perm; auto.
  - apply reordered_block_perm; auto.
  - apply reordered_block_non_prepares; auto.
Qed.

Lemma block_order_is_permutation_witness :
  let c := block_constraints (fun _ => false) (slice single_add 0 0) in
  skip_block (slice single_add 0 0) = false
  /\ run_block panicking_sort (fun _ => false) (slice single_add 0 0) = Some (run_with c (small_order c))
  /\ (let r := run_with c (small_order c) in
      let N := length (br_block r) in
      let out := rb_block (reordered_of_run r) in
      optimize_block_for_stack_machine panicking_sort (fun _ => false) single_add 0 0
        = Some (reordered_of_run r)
      /\ Permutation (br_order r) (seq 0 N)
      /\ length (br_remap r) = N
      /\ (forall i, i < N -> nth (nth i (br_order r) 0) (br_remap r) 0 = i)
      /\ Permutation (br_remap r) (seq 0 N)
      /\ Permutation out (br_block r)
      /\ Permutation (filter not_prepare out) (filter not_prepare (slice single_add 0 0))).
Proof.
  intro c. split; [reflexivity|]. split; [vm_compute; reflexivity|].
  apply (block_order_is_permutation panicking_sort (fun _ => false) single_add 0 0).
  - reflexivity.
  - vm_compute. reflexivity.
Defined.

(** ** The ordering annotation has one entry per new offset *)

Lemma nins_keys_new {V} (k : nat) (v : V) m :
  ~ In k (map fst m) -> Permutation (map fst (nins k v m)) (k :: map fst m).
Proof.
  intro H. apply omap_insert_keys_new; auto.
  all: first [apply nat_compare_eq_iff|apply nat_compare_opp|apply nat_compare_trans].
Qed.

Lemma enumerate_from_fst {A} (l : list A) : forall n, map fst (enumerate_from n l) = seq n (length l).
Proof. induction l as [|x l IH]; intro n; simpl; [auto|rewrite IH; auto]. Qed.

Lemma NoDup_app_disj {A} (l1 l2 : list A) x : NoDup (l1 ++ l2) -> In x l1 -> In x l2 -> False.
Proof.
  induction l1 as [|a l1 IH]; simpl; intros ND H1 H2; [auto|].
  inversion ND as [|? ? Na ND']; subst. destruct H1 as [E|H1]; [subst|eauto].
  apply Na, in_or_app; auto.
Qed.

Lemma annotation_fold_keys (remap : list CodeOffset) :
  forall (l : list (CodeOffset * list (option CodeOffset))) ord deps,
  NoDup (map (fun od => nth (fst od) remap 0) l ++ map fst ord) ->
  Permutation
    (map fst (fst (fold_left (fun acc od =>
           let '(ordering, deps) := acc in
           let '(offset, dfs) := od in
           let d := match nget offset deps with Some s => s | None => [] end in
           (nins (nth offset remap 0) (mkOrderInfo d dfs) ordering,
            omap_remove Nat.compare offset deps)) l (ord, deps))))
    (map (fun od => nth (fst od) remap 0) l ++ map fst ord).
Proof.
  induction l as [|[o dfs] l IH]; intros ord deps ND; simpl; [apply Permutation_refl|].
  simpl in ND. apply NoDup_cons_iff in ND as [Nin ND].
  assert (K : Permutation (map fst (nins (nth o remap 0)
              (mkOrderInfo (match nget o deps with Some s => s | None => [] end) dfs) ord))
              (nth o remap 0 :: map fst ord))
    by (apply nins_keys_new; intro H; apply Nin, in_or_app; auto).
  eapply perm_trans; [apply IH|].
  - eapply Permutation_NoDup; [apply Permutation_app_head, Permutation_sym, K|].
    apply NoDup_app; repeat split.
    + apply NoDup_app_remove_r in ND; auto.
    + constructor; [intro H; apply Nin, in_or_app; auto|apply NoDup_app_remove_l in ND; auto].
    + intros x Hx [E|Hy]; [subst x; apply Nin, in_or_app; auto|].
      eapply NoDup_app_disj; eauto.
  - eapply perm_trans; [apply Permutation_app_head, K|].
    apply Permutation_sym, Permutation_middle.
Qed.

Lemma run_annotation_keys f block order :
  let c := block_constraints f block in
  Permutation order (seq 0 (length (bc_block c))) ->
  Permutation (map fst (rb_ordering (reordered_of_run (run_with c order)))) (seq 0 (length (bc_block c))).
Proof.
  intros c P.
  destruct (remap_spec _ _ P) as [R1 _].
  pose proof (remap_perm _ _ P) as RP.
  assert (E : map (fun od : nat * list (option CodeOffset) => nth (fst od) (index_remapping order) 0)
                (enumerate (dfs_numberings (bc_constraints c))) = index_remapping order).
  { rewrite <- map_map with (f := fst) (g := fun i => nth i (index_remapping order) 0).
    pose proof (block_constraints_numberings f block) as NL. fold c in NL.
    unfold enumerate. rewrite enumerate_from_fst, NL.
    rewrite <- R1 at 1. apply map_nth_seq_id. }
  change (rb_ordering (reordered_of_run (run_with c order)))
    with (remap_and_convert_to_annotation (bc_constraints c) (index_remapping order)).
  unfold remap_and_convert_to_annotation.
  eapply perm_trans; [apply annotation_fold_keys|]; rewrite E; simpl; rewrite app_nil_r; auto.
  apply (Permutation_NoDup (Permutation_sym RP)), seq_NoDup.
Qed.

(** C10: for a block that is not skipped, of post-synthesis length [N], when
    the sort returns, the keys of its [OrderingAnnotation] are exactly the
    new offsets [[0, N)], each once (synthesized [Prepare]s and unmoved
    instructions included); the annotation of such a block is empty only
    when the block is empty. This holds for every behaviour of the sort on
    more than 20 elements that the library allows. *)
Theorem ordering_annotation_one_entry_per_offset (ls : LargeSort) (local_is_mut_ref : TempIndex -> bool)
    (code : list Bytecode) (lower upper : CodeOffset) (rb : ReorderedBlock) :
  skip_block (slice code lower upper) = false ->
  optimize_block_for_stack_machine ls local_is_mut_ref code lower upper = Some rb ->
  let N := length (bc_block (block_constraints local_is_mut_ref (slice code lower upper))) in
  let ann := rb_ordering rb in
  Permutation (map fst ann) (seq 0 N)
  /\ NoDup (map fst ann)
  /\ (ann = [] -> slice code lower upper = []).
Proof.
  intros Hskip Ho N ann.
  rewrite optimize_not_skipped in Ho by exact Hskip.
  destruct (run_block ls local_is_mut_ref (slice code lower upper)) as [r|] eqn:Hr; [|discriminate].
  injection Ho as <-.
  destruct (run_block_Some _ _ _ _ Hr) as [order [-> P]].
  pose proof (run_annotation_keys local_is_mut_ref (slice code lower upper) order P) as K.
  cbv zeta in K. fold N in K. fold ann in K.
  split; [auto|split].
  - apply (Permutation_NoDup (Permutation_sym K)), seq_NoDup.
  - intro E. rewrite E in K. apply Permutation_nil in K.
    apply (f_equal (@length nat)) in K. rewrite length_seq in K. cbn [length] in K.
    unfold N in K. rewrite block_constraints_block, length_app in K.
    destruct (slice code lower upper); [auto|cbn [length] in K; lia].
Qed.

Lemma ordering_annotation_one_entry_per_offset_witness :
  let c := block_constraints (fun _ => false) (slice single_add 0 0) in
  skip_block (slice single_add 0 0) = false
  /\ optimize_block_for_stack_machine panicking_sort (fun _ => false) single_add 0 0
     = Some (reordered_of_run (run_with c (small_order c)))
  /\ (let N := length (bc_block c) in
      let ann := rb_ordering (reordered_of_run (run_with c (small_order c))) in
      Permutation (map fst ann) (seq 0 N)
      /\ NoDup (map fst ann)
      /\ (ann = [] -> slice single_add 0 0 = [])).
Proof.
  intro c. split; [reflexivity|]. split; [vm_compute; reflexivity|].
  apply (ordering_annotation_one_entry_per_offset panicking_sort (fun _ => false) single_add 0 0).
  - reflexivity.
  - vm_compute. reflexivity.
Defined.

(** ** The forward walk *)

Lemma enumerate_from_app {A} (l : list A) x : forall n,
  enumerate_from n (l ++ [x]) = enumerate_from n l ++ [(n + length l, x)].
Proof.
  induction l as [|y l IH]; intro n; simpl; [rewrite Nat.add_0_r; auto|].
  rewrite IH. replace (S n + length l) with (n + S (length l)) by lia. reflexivity.
Qed.

Lemma latest_write_before_app pre l : forall o t,
  o <= length pre -> latest_write_before (pre ++ l) o t = latest_write_before pre o t.
Proof.
  induction o as [|o IH]; intros t Ho; simpl; auto.
  rewrite app_nth1 by lia. rewrite IH by lia. auto.
Qed.

(** [latest_write_before] is the latest writer strictly before [o]. *)
Lemma latest_write_before_spec block o t :
  match latest_write_before block o t with
  | Some w => w < o /\ In t (dests (nth w block (Nop 0)))
              /\ forall w', w < w' < o -> ~ In t (dests (nth w' block (Nop 0)))
  | None => forall w', w' < o -> ~ In t (dests (nth w' block (Nop 0)))
  end.
Proof.
  induction o as [|o IH]; simpl; [intros; lia|].
  destruct (existsb (Nat.eqb t) (dests (nth o block (Nop 0)))) eqn:E.
  - apply existsb_exists in E as [x [Hx Ex]]. apply Nat.eqb_eq in Ex; subst x.
    repeat split; auto. intros; lia.
  - assert (N : ~ In t (dests (nth o block (Nop 0)))).
    { intro H. assert (existsb (Nat.eqb t) (dests (nth o block (Nop 0))) = true)
        by (apply existsb_exists; exists t; split; auto; apply Nat.eqb_refl). congruence. }
    destruct (latest_write_before block o t) as [w|].
    + destruct IH as [A [B C]]. split; [lia|split; auto].
      intros w' Hw'. destruct (Nat.eq_dec w' o); [subst; auto|apply C; lia].
    + intros w' Hw'. destruct (Nat.eq_dec w' o); [subst; auto|apply IH; lia].
Qed.

Lemma latest_after_dests (ds : list TempIndex) (offset : CodeOffset) : forall latest t,
  nget t (fold_left (fun lw d => nins d offset lw) ds latest)
  = if existsb (Nat.eqb t) ds then Some offset else nget t latest.
Proof.
  induction ds as [|d ds IH]; intros latest t; simpl; auto.
  rewrite IH, nget_nins. destruct (t =? d); simpl; auto.
  destruct (existsb (Nat.eqb t) ds); auto.
Qed.

Lemma walk_sources_edges offset latest (srcs : list TempIndex) : forall n start uses,
  fst (fold_left (walk_source offset latest) (enumerate_from n srcs) (start, uses))
  = start ++ map (fun s => nget s latest) srcs.
Proof.
  induction srcs as [|s srcs IH]; intros n start uses; simpl; [rewrite app_nil_r; auto|].
  rewrite IH, <- app_assoc. auto.
Qed.

Definition walk_inv (pre : list Bytecode) (st : WalkState) : Prop :=
  (forall t, nget t (w_latest st) = latest_write_before pre (length pre) t)
  /\ (forall o, nget o (w_graph st)
               = if (o <? length pre) && has_sources (nth o pre (Nop 0))
                 then Some (map (latest_write_before pre o) (sources (nth o pre (Nop 0))))
                 else None).

Lemma walk_inv_step pre x st :
  walk_inv pre st -> walk_inv (pre ++ [x]) (walk_instr st (length pre, x)).
Proof.
  intros [L G]. unfold walk_instr.
  assert (Lw : forall o t, o <= length pre ->
            latest_write_before (pre ++ [x]) o t = latest_write_before pre o t)
    by (intros; apply latest_write_before_app; auto).
  assert (Nth : forall o, o < length pre -> nth o (pre ++ [x]) (Nop 0) = nth o pre (Nop 0))
    by (intros; apply app_nth1; auto).
  assert (NthX : nth (length pre) (pre ++ [x]) (Nop 0) = x)
    by (rewrite app_nth2, Nat.sub_diag by lia; reflexivity).
  assert (Len : length (pre ++ [x]) = S (length pre)) by (rewrite length_app; simpl; lia).
  assert (G0 : nget (length pre) (w_graph st) = None)
    by (rewrite G, Nat.ltb_irrefl; reflexivity).
  assert (LatestOK : forall t,
     nget t (fold_left (fun lw d => nins d (length pre) lw) (dests x) (w_latest st))
     = latest_write_before (pre ++ [x]) (length (pre ++ [x])) t).
  { intro t. rewrite latest_after_dests, Len. simpl. rewrite NthX, Lw, L by lia. auto. }
  destruct (sources x) as [|s ss] eqn:Hs.
  { simpl. split; auto.
    intro o. rewrite G, Len.
    destruct (Nat.lt_trichotomy o (length pre)) as [Lt|[Eq|Gt]].
    - rewrite Nth by auto.
      replace (o <? length pre) with true by (symmetry; apply Nat.ltb_lt; auto).
      replace (o <? S (length pre)) with true by (symmetry; apply Nat.ltb_lt; lia).
      simpl. destruct (has_sources (nth o pre (Nop 0))); auto.
      f_equal. apply map_ext. intro t. symmetry; apply Lw; lia.
    - subst o. rewrite NthX, Nat.ltb_irrefl. unfold has_sources. rewrite Hs.
      destruct (length pre <? S (length pre)); auto.
    - replace (o <? length pre) with false by (symmetry; apply Nat.ltb_ge; lia).
      replace (o <? S (length pre)) with false by (symmetry; apply Nat.ltb_ge; lia). auto. }
  pose proof (walk_sources_edges (length pre) (w_latest st) (s :: ss) 0
                (match nget (length pre) (w_graph st) with Some e => e | None => [] end)
                (w_uses st)) as We.
  unfold enumerate.
  destruct (fold_left (walk_source (length pre) (w_latest st)) (enumerate_from 0 (s :: ss)) _)
    as [edges uses] eqn:Ef.
  rewrite G0 in We. simpl in We. cbn [w_latest w_graph]. split; auto.
  intro o. cbn [w_graph]. rewrite nget_nins, Len.
  destruct (Nat.eqb_spec o (length pre)) as [->|Ne].
  - rewrite NthX. unfold has_sources. rewrite Hs.
    replace (length pre <? S (length pre)) with true by (symmetry; apply Nat.ltb_lt; lia).
    simpl. rewrite We. f_equal. f_equal; [rewrite L, Lw; auto|].
    apply map_ext. intro t. rewrite L, Lw; auto.
  - rewrite G. destruct (Nat.lt_ge_cases o (length pre)) as [Lt|Ge].
    + rewrite Nth by auto.
      replace (o <? length pre) with true by (symmetry; apply Nat.ltb_lt; auto).
      replace (o <? S (length pre)) with true by (symmetry; apply Nat.ltb_lt; lia).
      simpl. destruct (has_sources (nth o pre (Nop 0))); auto.
      f_equal. apply map_ext. intro t. symmetry; apply Lw; lia.
    + replace (o <? length pre) with false by (symmetry; apply Nat.ltb_ge; lia).
      replace (o <? S (length pre)) with false by (symmetry; apply Nat.ltb_ge; lia). auto.
Qed.

Lemma use_def_walk_inv block : walk_inv block (use_def_walk block).
Proof.
  unfold use_def_walk. induction block as [|x pre IH] using rev_ind.
  - split; intros; reflexivity.
  - unfold enumerate. rewrite enumerate_from_app, fold_left_app. simpl.
    apply walk_inv_step. exact IH.
Qed.

(** ** Slots of the final graph point backwards or at a [Prepare] *)

Lemma In_list_set {A} (l : list A) i v y : In y (list_set l i v) -> In y l \/ y = v.
Proof.
  revert i; induction l as [|a l IH]; intros [|i]; simpl; auto.
  - intros [E|H]; auto.
  - intros [E|H]; auto. destruct (IH i H); auto.
Qed.

Lemma In_omap_insert {K V} (kcmp : K -> K -> comparison) k (v : V) m k' v' :
  In (k', v') (omap_insert kcmp k v m) -> (k', v') = (k, v) \/ In (k', v') m.
Proof.
  induction m as [|[a b] m IH]; simpl; [intuition|].
  destruct (kcmp k a); simpl; intros [E|H]; auto.
  destruct (IH H); auto.
Qed.

Definition graph_bound (N : nat) (g : UseDefGraph) : Prop :=
  forall o e x, nget o g = Some e -> In (Some x) e -> x < o \/ N <= x.

Definition edges_bound (N : nat) (pe : NatMap CodeOffset) : Prop :=
  forall p d, In (p, d) pe -> d < N /\ N <= p.

Lemma edges_bound_nins N pe p d : edges_bound N pe -> d < N -> N <= p -> edges_bound N (nins p d pe).
Proof.
  intros B Hd Hp p' d' H. apply In_omap_insert in H as [E|H]; [inversion E; subst; auto|].
  apply B; auto.
Qed.

Lemma graph_bound_nins N g o e :
  graph_bound N g -> (forall x, In (Some x) e -> x < o \/ N <= x) -> graph_bound N (nins o e g).
Proof.
  intros B He o' e' x H. rewrite nget_nins in H.
  destruct (Nat.eqb_spec o' o); [inversion H; subst; auto|eauto].
Qed.

Lemma phaseA_slot_bound block uo ui acc x :
  let '(defs, _, _, pe) := acc in
  (forall y, In (Some y) defs -> y < uo \/ length block <= y) -> edges_bound (length block) pe ->
  let '(defs', _, _, pe') := phaseA_slot block uo ui acc x in
  (forall y, In (Some y) defs' -> y < uo \/ length block <= y) /\ edges_bound (length block) pe'.
Proof.
  destruct acc as [[[defs pum] ins] pe], x as [pos [def tmp]]. intros D E. simpl.
  assert (S : forall y, In (Some y) (list_set defs pos (Some (length block + length ins))) ->
              y < uo \/ length block <= y).
  { intros y H. apply In_list_set in H as [H|H]; [auto|inversion H; lia]. }
  destruct def as [d|]; [|split; auto].
  destruct (nth_error block d) as [di|] eqn:Hd; [|split; auto].
  destruct (is_assign di); [|split; auto].
  split; auto. apply edges_bound_nins; auto; [|lia].
  apply nth_error_Some. congruence.
Qed.

Definition prep_bound (N : nat) (st : PrepState) : Prop :=
  graph_bound N (p_graph st) /\ edges_bound N (p_edges st).

Lemma phaseA_instr_bound block st ui :
  prep_bound (length block) st -> prep_bound (length block) (phaseA_instr block st ui).
Proof.
  destruct ui as [uo ui]. intros [G E]. unfold phaseA_instr.
  destruct (length (sources ui) <? 2); [split; auto|].
  destruct (nget uo (p_graph st)) as [defs|] eqn:Hg; [|split; auto].
  assert (Inv : forall l acc,
             (let '(defs, _, _, pe) := acc in
              (forall y, In (Some y) defs -> y < uo \/ length block <= y)
              /\ edges_bound (length block) pe) ->
             let '(defs', _, _, pe') := fold_left (phaseA_slot block uo ui) l acc in
             (forall y, In (Some y) defs' -> y < uo \/ length block <= y)
             /\ edges_bound (length block) pe').
  { induction l as [|x l IH]; intros acc H; simpl; [exact H|].
    apply IH. pose proof (phaseA_slot_bound block uo ui acc x) as P.
    destruct acc as [[[d0 m0] i0] p0]. destruct H as [H1 H2]. specialize (P H1 H2).
    destruct (phaseA_slot block uo ui (d0, m0, i0, p0) x) as [[[d1 m1] i1] p1]. exact P. }
  specialize (Inv (enumerate (firstn (match defs with [] => 0 | _ => length defs - 1 end)
                                (combine defs (sources ui))))
                  (defs, p_map st, p_instrs st, p_edges st)).
  destruct (fold_left _ _ _) as [[[d1 m1] i1] p1].
  destruct Inv as [D1 E1]; [split; auto; intros y H; eapply G; eauto|].
  split; simpl; auto. apply graph_bound_nins; auto.
Qed.

Lemma phaseB_use_bound block tmp st up :
  prep_bound (length block) st -> prep_bound (length block) (phaseB_use block tmp st up).
Proof.
  destruct up as [u pos]. intros [G E]. unfold phaseB_use.
  destruct (nth_error block u) as [ui|]; [|split; auto].
  destruct (match sources ui with [] => true | _ => pos =? length (sources ui) - 1 end);
    [split; auto|].
  destruct (nget u (p_graph st)) as [defs|] eqn:Hg; [|split; auto].
  destruct (nth pos defs None) as [d|]; [|split; auto].
  destruct (Nat.leb_spec (length block) d).
  - destruct (nget d (p_map st)) as [[[? ?] ?]|]; split; auto.
  - split; simpl.
    + apply graph_bound_nins; auto. intros y Hy.
      apply In_list_set in Hy as [Hy|Hy]; [eapply G; eauto|inversion Hy; lia].
    + apply edges_bound_nins; auto. lia.
Qed.

Lemma synthesize_prepares_bound block :
  prep_bound (length block) (fst (synthesize_prepares block)).
Proof.
  unfold synthesize_prepares. simpl.
  apply (fold_left_inv (prep_bound (length block))).
  { intros st [[tmp d] ups] H. unfold phaseB_group. destruct (1 <? length ups); auto.
    apply (fold_left_inv (prep_bound (length block))); auto.
    intros; apply phaseB_use_bound; auto. }
  apply (fold_left_inv (prep_bound (length block))); [intros; apply phaseA_instr_bound; auto|].
  split; [|intros p d H; inversion H].
  intros o e x H Hx. destruct (use_def_walk_inv block) as [_ W]. rewrite W in H.
  destruct ((o <? length block) && has_sources (nth o block (Nop 0))); [|discriminate].
  inversion H; subst e. apply in_map_iff in Hx as [t [Ht _]].
  pose proof (latest_write_before_spec block o t) as S. rewrite Ht in S. left; apply S.
Qed.

Lemma final_graph_bound block :
  graph_bound (length block) (snd (fst (ordered_edge_data_dependence_graph block))).
Proof.
  destruct (synthesize_prepares_bound block) as [G E].
  unfold ordered_edge_data_dependence_graph.
  set (st := fst (synthesize_prepares block)) in *. cbn [fst snd].
  assert (E' : forall pd, In pd (p_edges st) -> snd pd < length block /\ length block <= fst pd)
    by (intros [p d] H; apply E; auto).
  clear E. revert E'. generalize (p_graph st) as g0, G. clear G.
  generalize (p_edges st) as l.
  induction l as [|[p d] l IH]; intros g0 Hg Hl; simpl; auto.
  apply IH; [|intros; apply Hl; simpl; auto].
  destruct (Hl (p, d) (or_introl eq_refl)) as [Hd Hp]. simpl in Hd, Hp.
  change (graph_bound (length block)
            (nins p (match nget p g0 with Some v => v | None => [] end ++ [Some d]) g0)).
  apply graph_bound_nins; auto. intros y Hy. apply in_app_or in Hy as [Hy|Hy].
  - destruct (nget p g0) eqn:Hn; [eapply Hg; eauto|destruct Hy].
  - destruct Hy as [Hy|[]]. inversion Hy; subst. lia.
Qed.

(** C8: the forward walk gives an instruction at offset [o] with [k > 0]
    sources a graph entry of [k] slots, slot [i] holding the latest write
    of source [i] strictly before [o] ([None] if there is none in the block;
    a self-read resolves to the previous writer); after [Prepare]
    synthesis, every [Some] slot of an entry [o] is below [o] or at least
    the original block length. *)
Theorem use_def_graph_slots (block : list Bytecode) :
  (forall o, o < length block -> has_sources (nth o block (Nop 0)) = true ->
     nget o (w_graph (use_def_walk block))
     = Some (map (latest_write_before block o) (sources (nth o block (Nop 0)))))
  /\ (forall o t, match latest_write_before block o t with
                  | Some w => w < o /\ In t (dests (nth w block (Nop 0)))
                              /\ forall w', w < w' < o -> ~ In t (dests (nth w' block (Nop 0)))
                  | None => forall w', w' < o -> ~ In t (dests (nth w' block (Nop 0)))
                  end)
  /\ (forall o e x, nget o (snd (fst (ordered_edge_data_dependence_graph block))) = Some e ->
                    In (Some x) e -> x < o \/ length block <= x).
Proof.
  split; [|split].
  - intros o Ho Hs. destruct (use_def_walk_inv block) as [_ W]. rewrite W.
    apply Nat.ltb_lt in Ho. rewrite Ho, Hs. reflexivity.
  - apply latest_write_before_spec.
  - apply final_graph_bound.
Qed.

(** ** Lawful comparators and sorted maps *)

Definition lawful {A} (c : A -> A -> comparison) : Prop :=
  (forall a b, c a b = Eq <-> a = b)
  /\ (forall a b, c b a = CompOpp (c a b))
  /\ (forall a b d, c a b = Lt -> c b d = Lt -> c a d = Lt).

Lemma lawful_nat : lawful Nat.compare.
Proof. split; [apply nat_compare_eq_iff|split; [apply nat_compare_opp|apply nat_compare_trans]]. Qed.

Lemma lawful_option {A} (c : A -> A -> comparison) : lawful c -> lawful (cmp_option c).
Proof.
  intros [E [O T]]. split; [|split].
  - intros [a|] [b|]; simpl; try (split; congruence).
    rewrite E. split; congruence.
  - intros [a|] [b|]; simpl; auto.
  - intros [a|] [b|] [d|]; simpl; try congruence. apply T.
Qed.

Lemma lawful_pair {A B} (ca : A -> A -> comparison) (cb : B -> B -> comparison) :
  lawful ca -> lawful cb -> lawful (cmp_pair ca cb).
Proof.
  intros [Ea [Oa Ta]] [Eb [Ob Tb]]. unfold cmp_pair. split; [|split].
  - intros [a1 b1] [a2 b2]; simpl. destruct (ca a1 a2) eqn:C.
    + apply Ea in C; subst. rewrite Eb. split; congruence.
    + split; [discriminate|intro H; inversion H; subst; rewrite (proj2 (Ea a2 a2) eq_refl) in C; discriminate].
    + split; [discriminate|intro H; inversion H; subst; rewrite (proj2 (Ea a2 a2) eq_refl) in C; discriminate].
  - intros [a1 b1] [a2 b2]; simpl. rewrite (Oa a1 a2). destruct (ca a1 a2); simpl; auto.
  - intros [a1 b1] [a2 b2] [a3 b3]; simpl.
    destruct (ca a1 a2) eqn:C12; destruct (ca a2 a3) eqn:C23; try discriminate; intros H1 H2.
    + apply Ea in C12; apply Ea in C23; subst. rewrite (proj2 (Ea a3 a3) eq_refl). eauto.
    + apply Ea in C12; subst. rewrite C23. auto.
    + apply Ea in C23; subst. rewrite C12. auto.
    + rewrite (Ta _ _ _ C12 C23). auto.
Qed.

Lemma lawful_usekey : lawful cmp_usekey.
Proof. apply lawful_pair; [apply lawful_nat|apply lawful_option, lawful_nat]. Qed.

Lemma lawful_usepair : lawful cmp_usepair.
Proof. apply lawful_pair; apply lawful_nat. Qed.

Section SortedMaps.
Context {K V : Type} (kcmp : K -> K -> comparison) (Hl : lawful kcmp).

Lemma In_omap_insert_same (k : K) (v : V) m : In (k, v) (omap_insert kcmp k v m).
Proof.
  induction m as [|[a b] m IH]; simpl; auto.
  destruct (kcmp k a); simpl; auto.
Qed.

Lemma In_omap_insert_other (k k' : K) (v v' : V) m :
  k' <> k -> In (k', v') m -> In (k', v') (omap_insert kcmp k v m).
Proof.
  destruct Hl as [E _]. intros Ne. induction m as [|[a b] m IH]; simpl; [intros []|].
  intros [H|H].
  - inversion H; subst. destruct (kcmp k k') eqn:C; simpl; auto.
    apply E in C; congruence.
  - destruct (kcmp k a); simpl; auto.
Qed.

Lemma omap_get_none_not_In (k : K) m : omap_get kcmp k m = None -> forall v : V, ~ In (k, v) m.
Proof.
  destruct Hl as [E _]. induction m as [|[a b] m IH]; simpl; intros H v X; [destruct X|].
  destruct X as [X|X].
  - inversion X; subst. rewrite (proj2 (E _ _) eq_refl) in H. discriminate.
  - destruct (kcmp k a); [discriminate|eapply IH; eauto|eapply IH; eauto].
Qed.

Lemma keys_sorted_In_get (k : K) (v : V) m :
  keys_sorted kcmp m -> In (k, v) m -> omap_get kcmp k m = Some v.
Proof.
  destruct Hl as [E [O T]]. unfold keys_sorted.
  induction m as [|[a b] m IH]; simpl; [intros _ []|]. intros S [X|X].
  - inversion X; subst. rewrite (proj2 (E _ _) eq_refl). auto.
  - inversion S as [|? ? S' F]; subst.
    rewrite Forall_forall in F. specialize (F k (in_map fst _ _ X)). simpl in F.
    destruct (kcmp k a) eqn:C.
    + apply E in C; subst. rewrite (proj2 (E a a) eq_refl) in F. discriminate.
    + rewrite O, C in F. discriminate.
    + apply IH; auto.
Qed.

Lemma In_omap_insert_sorted (k k' : K) (v v' : V) m :
  keys_sorted kcmp m -> In (k', v') (omap_insert kcmp k v m) ->
  (k' = k /\ v' = v) \/ (k' <> k /\ In (k', v') m).
Proof.
  intros S H. destruct (kcmp k' k) eqn:C.
  - apply Hl in C; subst. left; split; auto.
    assert (G : omap_get kcmp k (omap_insert kcmp k v m) = Some v)
      by (apply omap_get_insert_same; apply Hl).
    rewrite (keys_sorted_In_get k v') in G; [congruence| |auto].
    apply omap_insert_sorted; auto; apply Hl.
  - right. apply In_omap_insert in H as [X|X]; [inversion X; subst|].
    + rewrite (proj2 (proj1 Hl k k) eq_refl) in C; discriminate.
    + split; auto. intro; subst. rewrite (proj2 (proj1 Hl k k) eq_refl) in C; discriminate.
  - right. apply In_omap_insert in H as [X|X]; [inversion X; subst|].
    + rewrite (proj2 (proj1 Hl k k) eq_refl) in C; discriminate.
    + split; auto. intro; subst. rewrite (proj2 (proj1 Hl k k) eq_refl) in C; discriminate.
Qed.
End SortedMaps.

(** ** The reverse [uses] index of the walk *)

(** [uses] maps [(t, d)] to the reads [(u, pos)] of [t] for which [P] holds
    and whose reaching definition is [d]. *)
Definition uses_inv (P : nat -> nat -> TempIndex -> Prop) (D : nat -> TempIndex -> option CodeOffset)
    (uses : UsesMap) : Prop :=
  keys_sorted cmp_usekey uses
  /\ (forall key S, In (key, S) uses -> StronglySorted (fun a b => cmp_usepair a b = Lt) S)
  /\ (forall t d S, In ((t, d), S) uses -> forall u pos, In (u, pos) S <-> P u pos t /\ D u t = d)
  /\ (forall u pos t, P u pos t -> exists S, In ((t, D u t), S) uses).

Lemma uses_inv_ext P P' D D' uses :
  (forall u pos t, P u pos t <-> P' u pos t) -> (forall u pos t, P u pos t -> D u t = D' u t) ->
  uses_inv P D uses -> uses_inv P' D' uses.
Proof.
  intros EP ED [U1 [U2 [U3 U4]]]. split; [auto|split; [auto|split]].
  - intros t d S H u pos. rewrite (U3 t d S H u pos), EP. split; intros [A B]; split; auto.
    + rewrite <- (ED u pos t); auto. apply EP; auto.
    + rewrite (ED u pos t); auto. apply EP; auto.
  - intros u pos t H. apply EP in H as H'. rewrite <- (ED _ _ _ H'). eauto.
Qed.

Lemma uses_inv_insert P D uses u pos t :
  uses_inv P D uses ->
  uses_inv (fun u' pos' t' => P u' pos' t' \/ (u' = u /\ pos' = pos /\ t' = t)) D
    (omap_entry_update cmp_usekey [] (t, D u t) (oset_insert cmp_usepair (u, pos)) uses).
Proof.
  intros [U1 [U2 [U3 U4]]].
  pose proof lawful_usekey as LK. pose proof lawful_usepair as LP.
  destruct LK as [KE [KO KT]], LP as [PE [PO PT]].
  unfold omap_entry_update.
  set (key := (t, D u t)).
  set (old := match omap_get cmp_usekey key uses with Some v => v | None => [] end).
  assert (Old : StronglySorted (fun a b => cmp_usepair a b = Lt) old
                /\ forall u' pos', In (u', pos') old <-> P u' pos' t /\ D u' t = D u t).
  { unfold old. destruct (omap_get cmp_usekey key uses) as [v|] eqn:G.
    - apply omap_get_In in G; auto. split; [eapply U2; eauto|]. apply (U3 t (D u t) v G).
    - split; [constructor|]. intros u' pos'. split; [intros []|intros [Hp Hd]].
      destruct (U4 _ _ _ Hp) as [S HS]. rewrite Hd in HS.
      eapply omap_get_none_not_In; eauto. apply lawful_usekey. }
  destruct Old as [OS OM].
  split; [|split; [|split]].
  - apply omap_insert_sorted; auto.
  - intros key' S H.
    destruct (In_omap_insert_sorted cmp_usekey lawful_usekey _ _ _ _ _ U1 H) as [[-> ->]|[_ H']];
      [|eapply U2; eauto].
    apply oset_insert_sorted; auto.
  - intros t' d' S H u' pos'.
    destruct (In_omap_insert_sorted cmp_usekey lawful_usekey _ _ _ _ _ U1 H) as [[E ->]|[Ne H']].
    + inversion E; subst t' d'. rewrite oset_insert_In by auto. rewrite OM.
      split.
      * intros [X|[A B]]; [inversion X; subst; split; auto|split; auto].
      * intros [[A|[-> [-> _]]] B]; [right; auto|left; auto].
    + rewrite (U3 t' d' S H' u' pos'). split.
      * intros [A B]; split; auto.
      * intros [[A|[-> [-> ->]]] B]; [split; auto|]. exfalso. apply Ne. subst d'. reflexivity.
  - intros u' pos' t' [H|[-> [-> ->]]].
    + destruct (U4 _ _ _ H) as [S HS].
      destruct (cmp_usekey (t', D u' t') key) eqn:C.
      * apply KE in C. rewrite C. eexists. apply In_omap_insert_same.
      * exists S. apply In_omap_insert_other; auto; [apply lawful_usekey|].
        intro E; rewrite E in C; rewrite (proj2 (KE key key) eq_refl) in C; discriminate.
      * exists S. apply In_omap_insert_other; auto; [apply lawful_usekey|].
        intro E; rewrite E in C; rewrite (proj2 (KE key key) eq_refl) in C; discriminate.
    + eexists. apply In_omap_insert_same.
Qed.

Lemma In_enumerate_from {A} (l : list A) : forall n i x,
  In (i, x) (enumerate_from n l) <-> n <= i /\ nth_error l (i - n) = Some x.
Proof.
  induction l as [|y l IH]; intros n i x; simpl.
  - split; [intros []|intros [_ H]; destruct (i - n); discriminate].
  - rewrite IH. split.
    + intros [E|[Ha Hb]]; [inversion E; subst; rewrite Nat.sub_diag; auto|].
      split; [lia|]. replace (i - n) with (S (i - S n)) by lia. auto.
    + intros [Ha Hb]. destruct (Nat.eq_dec i n) as [->|Ne].
      * rewrite Nat.sub_diag in Hb. inversion Hb; subst; auto.
      * right. split; [lia|]. replace (i - n) with (S (i - S n)) in Hb by lia. auto.
Qed.

Lemma walk_sources_uses offset latest D : forall (l : list (nat * TempIndex)) P start uses,
  uses_inv P D uses -> (forall pos src, In (pos, src) l -> nget src latest = D offset src) ->
  uses_inv (fun u pos t => P u pos t \/ (u = offset /\ In (pos, t) l)) D
    (snd (fold_left (walk_source offset latest) l (start, uses))).
Proof.
  induction l as [|[pos src] l IH]; intros P start uses U H; simpl.
  - eapply uses_inv_ext; [| |exact U]; [|auto]. intros; split; [auto|intros [A|[_ []]]; auto].
  - rewrite (H pos src (or_introl eq_refl)).
    pose proof (IH _ (start ++ [D offset src]) _ (uses_inv_insert P D uses offset pos src U)
                  (fun p s Hin => H p s (or_intror Hin))) as IH'.
    eapply uses_inv_ext; [| |exact IH'].
    + intros u p t. split.
      * intros [[Ha|[-> [-> ->]]]|[-> Hb]]; auto.
      * intros [Ha|[-> [E|Hb]]]; [left; left; auto|inversion E; subst; left; right; auto|right; auto].
    + auto.
Qed.

Definition use_at (pre : list Bytecode) (u pos : nat) (t : TempIndex) : Prop :=
  u < length pre /\ nth_error (sources (nth u pre (Nop 0))) pos = Some t.

Lemma use_at_snoc pre x u pos t :
  use_at (pre ++ [x]) u pos t
  <-> use_at pre u pos t \/ (u = length pre /\ nth_error (sources x) pos = Some t).
Proof.
  unfold use_at. rewrite length_app. simpl. split.
  - intros [Hu Hn]. destruct (Nat.eq_dec u (length pre)) as [->|Ne].
    + right. rewrite app_nth2, Nat.sub_diag in Hn by lia. auto.
    + left. rewrite app_nth1 in Hn by lia. split; [lia|auto].
  - intros [[Hu Hn]|[-> Hn]].
    + rewrite app_nth1 by lia. split; [lia|auto].
    + rewrite app_nth2, Nat.sub_diag by lia. split; [lia|auto].
Qed.

Lemma walk_uses_step pre x st :
  walk_inv pre st -> uses_inv (use_at pre) (latest_write_before pre) (w_uses st) ->
  uses_inv (use_at (pre ++ [x])) (latest_write_before (pre ++ [x]))
    (w_uses (walk_instr st (length pre, x))).
Proof.
  intros [L _] U.
  assert (U' : uses_inv (use_at pre) (latest_write_before (pre ++ [x])) (w_uses st)).
  { eapply uses_inv_ext; [| |exact U]; [reflexivity|].
    intros u pos t [Hu _]. symmetry. apply latest_write_before_app. lia. }
  unfold walk_instr. destruct (sources x) as [|s ss] eqn:Hs.
  - simpl. eapply uses_inv_ext; [| |exact U']; [|auto].
    intros u pos t. rewrite use_at_snoc, Hs. split; [auto|].
    intros [A|[_ B]]; auto. destruct pos; discriminate.
  - pose proof (walk_sources_uses (length pre) (w_latest st) (latest_write_before (pre ++ [x]))
                  (enumerate (s :: ss)) (use_at pre)
                  (match nget (length pre) (w_graph st) with Some e => e | None => [] end)
                  (w_uses st) U') as W.
    unfold enumerate in *.
    destruct (fold_left (walk_source (length pre) (w_latest st)) (enumerate_from 0 (s :: ss)) _)
      as [edges uses] eqn:Ef.
    cbn [w_uses]. cbn [snd] in W.
    eapply uses_inv_ext; [| |apply W].
    + intros u pos t. cbv beta. rewrite use_at_snoc, Hs, In_enumerate_from, Nat.sub_0_r.
      split; [intros [A|[B [_ C]]]|intros [A|[B C]]]; [left; exact A|right; auto|left; exact A|].
      right. split; [exact B|split; [lia|exact C]].
    + auto.
    + intros pos src _. rewrite L. symmetry. apply latest_write_before_app. lia.
Qed.

Lemma use_def_walk_uses block :
  uses_inv (use_at block) (latest_write_before block) (w_uses (use_def_walk block)).
Proof.
  pose proof (use_def_walk_inv) as WI.
  unfold use_def_walk in *. induction block as [|x pre IH] using rev_ind.
  - split; [constructor|split; [intros _ _ []|split; [intros _ _ _ []|]]].
    intros u pos t [Hu _]. simpl in Hu. lia.
  - unfold enumerate in *. rewrite enumerate_from_app, fold_left_app. simpl.
    apply walk_uses_step; [apply WI|apply IH].
Qed.

(** ** Reads of a block and the groups of [uses] *)

Lemma In_use_sites block u pos t : In (u, pos, t) (use_sites block) <-> use_at block u pos t.
Proof.
  unfold use_sites, enumerate, use_at. rewrite in_flat_map. split.
  - intros [[i x] [Hi Hm]]. apply In_enumerate_from in Hi as [_ Hi].
    rewrite Nat.sub_0_r in Hi. apply in_map_iff in Hm as [[p s] [E Hp]].
    cbn in E. inversion E; subst. apply In_enumerate_from in Hp as [_ Hp].
    rewrite Nat.sub_0_r in Hp. cbn in Hp.
    split; [apply nth_error_Some; congruence|]. erewrite nth_error_nth by exact Hi. exact Hp.
  - intros [Hu Hn]. exists (u, nth u block (Nop 0)). split.
    + apply In_enumerate_from. rewrite Nat.sub_0_r. split; [lia|apply nth_error_nth'; auto].
    + apply in_map_iff. exists (pos, t). split; [reflexivity|].
      apply In_enumerate_from. rewrite Nat.sub_0_r. split; [lia|exact Hn].
Qed.

Definition up_of (s : CodeOffset * nat * TempIndex) : nat * nat := (fst (fst s), snd (fst s)).

Lemma use_sites_from_NoDup (l : list Bytecode) : forall n,
  NoDup (map up_of (flat_map (fun ui => map (fun pt => (fst ui, fst pt, snd pt))
                                              (enumerate (sources (snd ui))))
                               (enumerate_from n l)))
  /\ forall s, In s (flat_map (fun ui => map (fun pt => (fst ui, fst pt, snd pt))
                                            (enumerate (sources (snd ui))))
                             (enumerate_from n l)) -> n <= fst (fst s).
Proof.
  induction l as [|x l IH]; intros n; [split; [constructor|intros _ []]|].
  cbn [enumerate_from flat_map]. destruct (IH (S n)) as [N1 B1]. rewrite map_app. split.
  - apply NoDup_app; [| exact N1 |].
    + rewrite map_map. cbn. unfold enumerate.
      apply (NoDup_map_inv snd). rewrite map_map. cbn.
      replace (map (fun x0 : nat * TempIndex => fst x0) (enumerate_from 0 (sources x)))
        with (map fst (enumerate_from 0 (sources x))) by reflexivity.
      rewrite enumerate_from_fst. apply seq_NoDup.
    + intros a Ha Hb. apply in_map_iff in Ha as [s [Es Hs]]. apply in_map_iff in Hs as [pt [Ept _]].
      apply in_map_iff in Hb as [s' [Es' Hs']]. apply B1 in Hs'. subst. unfold up_of in Es'.
      destruct s' as [[a1 a2] a3]. cbn in *. inversion Es'. lia.
  - intros s Hs. apply in_app_or in Hs as [Hs|Hs]; [|apply B1 in Hs; lia].
    apply in_map_iff in Hs as [pt [<- _]]. cbn. lia.
Qed.

Lemma use_sites_NoDup block : NoDup (map up_of (use_sites block)).
Proof. apply (use_sites_from_NoDup block 0). Qed.

Lemma NoDup_map_filter {A B} (g : A -> B) (f : A -> bool) l :
  NoDup (map g l) -> NoDup (map g (filter f l)).
Proof.
  induction l as [|a l IH]; simpl; auto. intro H. inversion H; subst.
  destruct (f a); simpl; auto. constructor; auto.
  intro Hin. apply in_map_iff in Hin as [b [Eb Hb]]. apply filter_In in Hb as [Hb _].
  apply H2. rewrite <- Eb. apply in_map; auto.
Qed.

(** The group [(t, d)] of [uses] has [reads_of_def block t d] members. *)
Lemma uses_group_size block t d S :
  In ((t, d), S) (w_uses (use_def_walk block)) -> length S = reads_of_def block t d.
Proof.
  intro H. destruct (use_def_walk_uses block) as [_ [U2 [U3 _]]].
  unfold reads_of_def.
  match goal with |- context [filter ?f (use_sites block)] => set (F := filter f (use_sites block)) end.
  transitivity (length (map up_of F)); [|apply length_map]. apply Permutation_length, NoDup_Permutation.
  - eapply sorted_NoDup; [apply lawful_usepair|]. eapply U2; eauto.
  - apply NoDup_map_filter, use_sites_NoDup.
  - intros [u pos]. rewrite (U3 t d S H u pos). unfold F. rewrite in_map_iff. split.
    + intros [Ha Hb]. exists (u, pos, t). split; [reflexivity|]. apply filter_In.
      split; [apply In_use_sites; auto|]. rewrite Nat.eqb_refl, Hb. cbn.
      destruct d; cbn; auto. apply Nat.eqb_refl.
    + intros [[[u' pos'] t'] [E Hs]]. apply filter_In in Hs as [Hs Hf].
      unfold up_of in E. cbn in E. inversion E; subst u' pos'.
      apply andb_prop in Hf as [Ht Hd]. apply Nat.eqb_eq in Ht. subst t'.
      split; [apply In_use_sites; auto|].
      destruct (latest_write_before block u t), d; cbn in Hd; try discriminate; auto.
      apply Nat.eqb_eq in Hd. subst. reflexivity.
Qed.

(** Phase B visits the members of the groups with more than one use, in order. *)
Definition phaseB_list (uses : UsesMap) : list (TempIndex * (CodeOffset * nat)) :=
  flat_map (fun g : UseKey * list (CodeOffset * nat) =>
              let '((tmp, _), use_pairs) := g in
              if 1 <? length use_pairs then map (fun up => (tmp, up)) use_pairs else [])
    uses.

Lemma phaseB_flatten block uses : forall st,
  fold_left (phaseB_group block) uses st
  = fold_left (fun st tu => phaseB_use block (fst tu) st (snd tu)) (phaseB_list uses) st.
Proof.
  induction uses as [|[[tmp d] S] uses IH]; intro st; [reflexivity|].
  unfold phaseB_list. cbn [flat_map fold_left]. rewrite fold_left_app.
  fold (phaseB_list uses). rewrite <- IH. f_equal. unfold phaseB_group.
  destruct (1 <? length S); [|reflexivity].
  clear IH. revert st. induction S as [|up S IHS]; intro st; [reflexivity|]. apply IHS.
Qed.

Lemma In_phaseB_list block t u pos :
  In (t, (u, pos)) (phaseB_list (w_uses (use_def_walk block)))
  <-> use_at block u pos t /\ 1 < reads_of_def block t (latest_write_before block u t).
Proof.
  destruct (use_def_walk_uses block) as [_ [_ [U3 U4]]].
  pose proof (uses_group_size block) as G. unfold CodeOffset in *.
  unfold phaseB_list. rewrite in_flat_map. split.
  - intros [[[t' d] S] [Hg Hm]]. cbv beta iota in Hm.
    destruct (1 <? length S) eqn:E; [|destruct Hm].
    apply in_map_iff in Hm as [up [Eu Hup]]. inversion Eu; subst t' up.
    apply (U3 t d S Hg) in Hup as [A B]. subst d.
    unfold CodeOffset, UseKey in *. rewrite (G _ _ _ Hg) in E. apply Nat.ltb_lt in E. auto.
  - intros [A B]. destruct (U4 u pos t A) as [S HS].
    exists ((t, latest_write_before block u t), S). split; [exact HS|]. cbv beta iota.
    unfold CodeOffset, UseKey in *. rewrite (G _ _ _ HS). apply Nat.ltb_lt in B. rewrite B.
    apply in_map_iff. exists (u, pos). split; [reflexivity|]. apply (U3 _ _ _ HS). auto.
Qed.

(** ** What the [Prepare] synthesis produces

    The slot [(u, pos)] of a block: the temporary read there, the offset of
    its reaching definition, and whether it is a non-last source. *)
Section Synthesis.
Variable block : list Bytecode.

Definition srcs_at (u : CodeOffset) : list TempIndex := sources (nth u block (Nop 0)).
Definition tmp_at (u : CodeOffset) (pos : nat) : TempIndex := nth pos (srcs_at u) 0.
Definition def_at (u : CodeOffset) (pos : nat) : option CodeOffset :=
  latest_write_before block u (tmp_at u pos).
Definition nonlast (u : CodeOffset) (pos : nat) : Prop :=
  u < length block /\ S pos < length (srcs_at u).

(** Phase A's condition: the value enters the block, or its definer is an assignment. *)
Definition needs_copy_prepare (u : CodeOffset) (pos : nat) : bool :=
  match def_at u pos with
  | None => true
  | Some d => match nth_error block d with Some di => is_assign di | None => false end
  end.

(** Phase B's condition: the group [(tmp, def)] of [uses] has more than one member. *)
Definition multi_use (u : CodeOffset) (pos : nat) : Prop :=
  1 < reads_of_def block (tmp_at u pos) (def_at u pos).

(** A slot that gets a [Prepare], by phase A or phase B. *)
Definition requires_prepare (u : CodeOffset) (pos : nat) : Prop :=
  needs_copy_prepare u pos = true \/ (multi_use u pos /\ def_at u pos <> None).

Definition slot (g : UseDefGraph) (u : CodeOffset) (pos : nat) : option CodeOffset :=
  match nget u g with Some defs => nth pos defs None | None => None end.

Definition graph_shape (g : UseDefGraph) : Prop :=
  forall u, (forall defs, nget u g = Some defs -> length defs = length (srcs_at u))
            /\ (forall pos, nonlast u pos -> nget u g <> None).

(** The synthesis state once the slots [Prep] got their [Prepare] and the
    entries of the slots [Fl] were flagged multi-use. *)
Definition synth_inv (Prep Fl : CodeOffset -> nat -> Prop) (st : PrepState) : Prop :=
  graph_shape (p_graph st)
  /\ (forall u pos, nonlast u pos -> ~ Prep u pos -> slot (p_graph st) u pos = def_at u pos)
  /\ (forall u pos, nonlast u pos -> Prep u pos ->
        exists p m, slot (p_graph st) u pos = Some p /\ nget p (p_map st) = Some (u, pos, m))
  /\ (forall p u pos m, nget p (p_map st) = Some (u, pos, m) ->
        nonlast u pos /\ Prep u pos /\ slot (p_graph st) u pos = Some p
        /\ length block <= p < length block + length (p_instrs st)
        /\ nth_error (p_instrs st) (p - length block)
             = Some (mk_prepare (get_attr_id (nth u block (Nop 0))) (tmp_at u pos))
        /\ (m = true <-> Fl u pos))
  /\ (forall p, length block <= p < length block + length (p_instrs st) ->
        exists e, nget p (p_map st) = Some e).

Lemma synth_inv_ext Prep Fl Prep' Fl' st :
  synth_inv Prep Fl st ->
  (forall u pos, nonlast u pos -> (Prep u pos <-> Prep' u pos)) ->
  (forall u pos, nonlast u pos -> Prep u pos -> (Fl u pos <-> Fl' u pos)) ->
  synth_inv Prep' Fl' st.
Proof.
  intros [J1 [J2 [J3 [J4 J5]]]] EP EF. split; [exact J1|split; [|split; [|split; [|exact J5]]]].
  - intros u pos Hn Hp. apply J2; auto. rewrite EP; auto.
  - intros u pos Hn Hp. apply J3; auto. rewrite EP; auto.
  - intros p u pos m H. destruct (J4 _ _ _ _ H) as [A [B [C [D [E F]]]]].
    split; [exact A|split; [apply EP; auto|split; [exact C|split; [exact D|split; [exact E|]]]]].
    rewrite F. apply EF; auto.
Qed.

Lemma synth_inv_graph_ext Prep Fl g g' pum ins pe pe' :
  (forall u, nget u g = nget u g') ->
  synth_inv Prep Fl (mkPrep g pum ins pe) -> synth_inv Prep Fl (mkPrep g' pum ins pe').
Proof.
  intros E [J1 [J2 [J3 [J4 J5]]]]. cbn [p_graph p_map p_instrs] in *.
  assert (ES : forall u pos, slot g u pos = slot g' u pos) by (intros; unfold slot; rewrite E; auto).
  split; [|split; [|split; [|split]]].
  - intro u. rewrite <- E. apply J1.
  - intros. rewrite <- ES. auto.
  - intros. rewrite <- ES. auto.
  - intros. rewrite <- ES. auto.
  - auto.
Qed.

Lemma nget_nins_same {V} k (v : V) m :
  nget k m = Some v -> forall u, nget u (nins k v m) = nget u m.
Proof.
  intros H u. rewrite nget_nins. destruct (Nat.eqb_spec u k); subst; auto.
Qed.

Lemma nget_nins_twice {V} k (v w : V) m u : nget u (nins k v (nins k w m)) = nget u (nins k v m).
Proof. rewrite !nget_nins. destruct (u =? k); auto. Qed.

Lemma slot_list_set g u defs pos x :
  nget u g = Some defs -> pos < length defs ->
  forall u' pos', slot (nins u (list_set defs pos x) g) u' pos'
                  = if (u' =? u) && (pos' =? pos) then x else slot g u' pos'.
Proof.
  intros Hg Hl u' pos'. unfold slot. rewrite nget_nins.
  destruct (Nat.eqb_spec u' u) as [->|Ne]; cbn; [|reflexivity].
  rewrite Hg. destruct (Nat.eqb_spec pos' pos) as [->|Np].
  - apply nth_list_set_same; auto.
  - apply nth_list_set_other; auto.
Qed.

Lemma synth_inv_add Prep Fl Fl' st u pos defs b tmp pe :
  synth_inv Prep Fl st -> nonlast u pos -> ~ Prep u pos ->
  nget u (p_graph st) = Some defs -> tmp = tmp_at u pos ->
  (b = true <-> Fl' u pos) ->
  (forall u' pos', nonlast u' pos' -> Prep u' pos' -> (Fl u' pos' <-> Fl' u' pos')) ->
  let po := length block + length (p_instrs st) in
  synth_inv (fun u' pos' => Prep u' pos' \/ (u' = u /\ pos' = pos)) Fl'
    (mkPrep (nins u (list_set defs pos (Some po)) (p_graph st))
            (nins po (u, pos, b) (p_map st))
            (p_instrs st ++ [mk_prepare (get_attr_id (nth u block (Nop 0))) tmp]) pe).
Proof.
  intros [J1 [J2 [J3 [J4 J5]]]] Hn Hp Hg -> Eb EF po. unfold synth_inv; cbn [p_graph p_map p_instrs].
  assert (Hl : pos < length defs).
  { rewrite (proj1 (J1 u) defs Hg). destruct Hn; lia. }
  pose proof (slot_list_set _ _ _ _ (Some po) Hg Hl) as SL.
  assert (Bd : forall p u' pos' m, nget p (p_map st) = Some (u', pos', m) -> p < po).
  { intros p u' pos' m H. destruct (J4 _ _ _ _ H) as [_ [_ [_ [D _]]]]. unfold po; lia. }
  split; [|split; [|split; [|split]]].
  - intro u'. rewrite nget_nins. destruct (Nat.eqb_spec u' u) as [->|Ne].
    + split; [|intros; discriminate]. intros defs' H. inversion H; subst.
      rewrite length_list_set. apply (proj1 (J1 u)); auto.
    + apply J1.
  - intros u' pos' Hn' Hp'. rewrite SL.
    destruct (Nat.eqb_spec u' u), (Nat.eqb_spec pos' pos); cbn; try (apply J2; auto).
    exfalso. apply Hp'. right; auto.
  - intros u' pos' Hn' [Hp'|[-> ->]].
    + destruct (J3 u' pos' Hn' Hp') as [p [m [S1 S2]]]. exists p, m. rewrite SL, nget_nins.
      destruct (Nat.eqb_spec u' u), (Nat.eqb_spec pos' pos); cbn;
        try (subst; contradiction).
      all: destruct (Nat.eqb_spec p po) as [E|]; [specialize (Bd _ _ _ _ S2); lia|auto].
    + exists po, b. rewrite SL, !Nat.eqb_refl, nget_nins, Nat.eqb_refl. auto.
  - intros p u' pos' m H. rewrite nget_nins in H. destruct (Nat.eqb_spec p po) as [->|Np].
    + inversion H; subst u' pos' m.
      split; [exact Hn|split; [right; auto|split; [rewrite SL, !Nat.eqb_refl; auto|]]].
      split; [rewrite length_app; cbn; unfold po; lia|split; [|exact Eb]].
      replace (po - length block) with (length (p_instrs st)) by (unfold po; lia).
      rewrite nth_error_app2, Nat.sub_diag by lia. reflexivity.
    + destruct (J4 _ _ _ _ H) as [A [B [C [D [E F]]]]].
      split; [exact A|split; [left; exact B|split; [|split; [|split]]]].
      * rewrite SL. destruct (Nat.eqb_spec u' u), (Nat.eqb_spec pos' pos); cbn; auto.
        subst; contradiction.
      * rewrite length_app; cbn; lia.
      * rewrite nth_error_app1 by lia. exact E.
      * rewrite F. apply EF; auto.
  - intros p Hp'. rewrite length_app in Hp'; cbn in Hp'. rewrite nget_nins.
    destruct (Nat.eqb_spec p po); [eauto|]. apply J5. unfold po in *; lia.
Qed.

Lemma synth_inv_mark Prep Fl st p u pos m pe :
  synth_inv Prep Fl st -> nget p (p_map st) = Some (u, pos, m) ->
  synth_inv Prep (fun u' pos' => Fl u' pos' \/ (u' = u /\ pos' = pos))
    (mkPrep (p_graph st) (nins p (u, pos, true) (p_map st)) (p_instrs st) pe).
Proof.
  intros [J1 [J2 [J3 [J4 J5]]]] H. unfold synth_inv; cbn [p_graph p_map p_instrs].
  destruct (J4 _ _ _ _ H) as [A [B [C [D [E F]]]]].
  split; [exact J1|split; [exact J2|split; [|split]]].
  - intros u' pos' Hn' Hp'. destruct (J3 u' pos' Hn' Hp') as [p' [m' [S1 S2]]].
    destruct (Nat.eqb_spec p' p) as [->|Np].
    + rewrite H in S2. inversion S2; subst. exists p, true. rewrite nget_nins, Nat.eqb_refl. auto.
    + exists p', m'. rewrite nget_nins. destruct (Nat.eqb_spec p' p); [contradiction|auto].
  - intros p' u' pos' m' H'. rewrite nget_nins in H'. destruct (Nat.eqb_spec p' p) as [->|Np].
    + inversion H'; subst u' pos' m'.
      split; [exact A|split; [exact B|split; [exact C|split; [exact D|split; [exact E|]]]]].
      split; auto.
    + destruct (J4 _ _ _ _ H') as [A' [B' [C' [D' [E' F']]]]].
      split; [exact A'|split; [exact B'|split; [exact C'|split; [exact D'|split; [exact E'|]]]]].
      rewrite F'. split; [auto|]. intros [X|[-> ->]]; [exact X|]. congruence.
  - intros q Hq. rewrite nget_nins. destruct (q =? p); eauto.
Qed.

(** Phase A on one non-last slot of the use at [k]. *)
Lemma phaseA_slot_inv Prep k g pos defs pum ins pe defs' pum' ins' pe' :
  nonlast k pos -> ~ Prep k pos ->
  synth_inv Prep (fun _ _ => False) (mkPrep (nins k defs g) pum ins pe) ->
  phaseA_slot block k (nth k block (Nop 0)) (defs, pum, ins, pe)
    (pos, (def_at k pos, tmp_at k pos)) = (defs', pum', ins', pe') ->
  synth_inv (fun u p => Prep u p \/ (u = k /\ p = pos /\ needs_copy_prepare k pos = true))
    (fun _ _ => False) (mkPrep (nins k defs' g) pum' ins' pe').
Proof.
  intros Hn Hp I E.
  assert (Hg : nget k (p_graph (mkPrep (nins k defs g) pum ins pe)) = Some defs)
    by (cbn [p_graph]; rewrite nget_nins, Nat.eqb_refl; auto).
  assert (Hadd : needs_copy_prepare k pos = true -> forall pe0,
    synth_inv (fun u p => Prep u p \/ (u = k /\ p = pos /\ needs_copy_prepare k pos = true))
      (fun _ _ => False)
      (mkPrep (nins k (list_set defs pos (Some (length block + length ins))) g)
              (nins (length block + length ins) (k, pos, false) pum)
              (ins ++ [mk_prepare (get_attr_id (nth k block (Nop 0))) (tmp_at k pos)]) pe0)).
  { intros Hnc pe0.
    pose proof (synth_inv_add Prep (fun _ _ => False) (fun _ _ => False) _ k pos defs false
                  (tmp_at k pos) pe0 I Hn Hp Hg eq_refl) as A.
    cbv zeta in A. cbn [p_graph p_map p_instrs] in A.
    eapply synth_inv_ext; [eapply synth_inv_graph_ext; [|apply A; [split; [discriminate|intros []]|tauto]]| |].
    - intro u. apply nget_nins_twice.
    - intros u p _. split; [intros [X|[-> ->]]|intros [X|[-> [-> _]]]]; auto.
    - tauto. }
  assert (Hkeep : needs_copy_prepare k pos = false ->
    synth_inv (fun u p => Prep u p \/ (u = k /\ p = pos /\ needs_copy_prepare k pos = true))
      (fun _ _ => False) (mkPrep (nins k defs g) pum ins pe)).
  { intros Hnc. eapply synth_inv_ext; [exact I| |tauto].
    intros u p _. rewrite Hnc. split; [auto|intros [X|[_ [_ Y]]]; [auto|discriminate]]. }
  unfold phaseA_slot in E.
  destruct (def_at k pos) as [d|] eqn:Hd.
  - destruct (nth_error block d) as [di|] eqn:Hdi; [destruct (is_assign di) eqn:Ha|].
    + inversion E; subst. apply Hadd. unfold needs_copy_prepare. rewrite Hd, Hdi; auto.
    + inversion E; subst. apply Hkeep. unfold needs_copy_prepare. rewrite Hd, Hdi; auto.
    + inversion E; subst. apply Hkeep. unfold needs_copy_prepare. rewrite Hd, Hdi; auto.
  - inversion E; subst. apply Hadd. unfold needs_copy_prepare. rewrite Hd; auto.
Qed.

Lemma phaseA_slots_inv k g : forall l Prep defs pum ins pe defs' pum' ins' pe',
  (forall pos x, In (pos, x) l ->
     x = (def_at k pos, tmp_at k pos) /\ nonlast k pos /\ ~ Prep k pos) ->
  NoDup (map fst l) ->
  synth_inv Prep (fun _ _ => False) (mkPrep (nins k defs g) pum ins pe) ->
  fold_left (phaseA_slot block k (nth k block (Nop 0))) l (defs, pum, ins, pe)
    = (defs', pum', ins', pe') ->
  synth_inv (fun u p => Prep u p \/ (u = k /\ In p (map fst l) /\ needs_copy_prepare k p = true))
    (fun _ _ => False) (mkPrep (nins k defs' g) pum' ins' pe').
Proof.
  induction l as [|[pos x] l IH]; intros Prep defs pum ins pe defs' pum' ins' pe' H ND I E.
  - cbn in E. inversion E; subst. eapply synth_inv_ext; [exact I| |tauto].
    intros u p _. split; [auto|intros [X|[_ [[] _]]]; auto].
  - cbn [fold_left] in E. destruct (H pos x (or_introl eq_refl)) as [-> [Hn Hp]].
    destruct (phaseA_slot block k (nth k block (Nop 0)) (defs, pum, ins, pe)
                (pos, (def_at k pos, tmp_at k pos))) as [[[d1 p1] i1] e1] eqn:E1.
    pose proof (phaseA_slot_inv _ _ _ _ _ _ _ _ _ _ _ _ Hn Hp I E1) as I1.
    cbn [map fst] in ND. inversion ND as [|? ? Nin ND']; subst.
    assert (H' : forall pos' x', In (pos', x') l ->
      x' = (def_at k pos', tmp_at k pos') /\ nonlast k pos'
      /\ ~ (Prep k pos' \/ (k = k /\ pos' = pos /\ needs_copy_prepare k pos = true))).
    { intros pos' x' Hin. destruct (H pos' x' (or_intror Hin)) as [A [B C]].
      split; [exact A|split; [exact B|]]. intros [X|[_ [-> _]]]; [auto|].
      apply Nin. change pos with (fst (pos, x')). apply in_map; auto. }
    specialize (IH (fun u p => Prep u p \/ (u = k /\ p = pos /\ needs_copy_prepare k pos = true))
                  d1 p1 i1 e1 defs' pum' ins' pe' H' ND' I1 E).
    eapply synth_inv_ext; [exact IH| |tauto]. intros u p _. cbn [map fst In]. split.
    + intros [[X|[-> [-> Y]]]|[-> [Z Y]]]; [left; exact X|right; auto|right; auto].
    + intros [X|[-> [[Z|Z] Y]]]; [left; left; exact X|left; right; subst; auto|right; auto].
Qed.

Lemma without_last_len {A} (defs : list A) :
  match defs with [] => 0 | _ => length defs - 1 end = length defs - 1.
Proof. destruct defs; reflexivity. Qed.

Lemma nth_error_enum_slots (defs : list (option CodeOffset)) (srcs : list TempIndex) wl pos x :
  length defs = length srcs -> wl <= length defs ->
  In (pos, x) (enumerate (firstn wl (combine defs srcs))) ->
  pos < wl /\ x = (nth pos defs None, nth pos srcs 0).
Proof.
  intros El Hw Hin. unfold enumerate in Hin. apply In_enumerate_from in Hin as [_ Hin].
  rewrite Nat.sub_0_r, nth_error_firstn in Hin.
  destruct (Nat.ltb_spec pos wl); [|discriminate]. split; [auto|].
  assert (Hl : pos < length (combine defs srcs)) by (rewrite length_combine; lia).
  rewrite (nth_error_nth' _ ((None, 0) : option CodeOffset * TempIndex) Hl) in Hin. inversion Hin. apply combine_nth; auto.
Qed.

Definition phaseA_inv (k : nat) (st : PrepState) : Prop :=
  synth_inv (fun u pos => u < k /\ needs_copy_prepare u pos = true) (fun _ _ => False) st
  /\ forall u, k <= u -> nget u (p_graph st) = nget u (w_graph (use_def_walk block)).

Lemma phaseA_instr_inv k st :
  k < length block -> phaseA_inv k st ->
  phaseA_inv (S k) (phaseA_instr block st (k, nth k block (Nop 0))).
Proof.
  intros Hk [I G]. destruct st as [g pm ins pe]. unfold phaseA_instr.
  cbn [p_graph p_map p_instrs p_edges] in *.
  destruct (length (sources (nth k block (Nop 0))) <? 2) eqn:L.
  - apply Nat.ltb_lt in L. split; [|intros u Hu; apply G; lia].
    eapply synth_inv_ext; [exact I| |tauto]. intros u pos [_ Hn]. unfold srcs_at in Hn.
    split; [intros [A B]; split; [lia|auto]|intros [A B]; split; auto].
    destruct (Nat.eq_dec u k); [subst; lia|lia].
  - apply Nat.ltb_ge in L.
    pose proof (proj2 (use_def_walk_inv block) k) as W.
    assert (Hs : has_sources (nth k block (Nop 0)) = true).
    { unfold has_sources. destruct (sources (nth k block (Nop 0))); cbn in L; [lia|auto]. }
    rewrite Hs, (proj2 (Nat.ltb_lt _ _) Hk) in W. cbn in W.
    rewrite (G k (le_n k)), W.
    set (defs := map (latest_write_before block k) (sources (nth k block (Nop 0)))).
    destruct (fold_left _ _ _) as [[[d' p'] i'] e'] eqn:F.
    rewrite without_last_len in F.
    assert (Ld : length defs = length (sources (nth k block (Nop 0)))) by apply length_map.
    assert (I0 : synth_inv (fun u pos => u < k /\ needs_copy_prepare u pos = true)
                   (fun _ _ => False) (mkPrep (nins k defs g) pm ins pe)).
    { eapply synth_inv_graph_ext; [|exact I].
      intro u. symmetry. apply nget_nins_same. rewrite (G k (le_n k)), W. reflexivity. }
    eapply phaseA_slots_inv in F; [| | |exact I0].
    + split.
      * eapply synth_inv_ext; [exact F| |tauto]. intros u pos [Hu Hn].
        unfold enumerate. rewrite enumerate_from_fst, in_seq, length_firstn, length_combine, Ld.
        unfold srcs_at in Hn. split.
        -- intros [[A B]|[-> [C B]]]; split; auto; lia.
        -- intros [A B]. destruct (Nat.eq_dec u k) as [->|Ne]; [right; split; [reflexivity|split; [lia|exact B]]|left; split; [lia|exact B]].
      * intros u Hu. cbn [p_graph]. rewrite nget_nins.
        destruct (Nat.eqb_spec u k); [lia|apply G; lia].
    + intros pos x Hin. apply nth_error_enum_slots in Hin as [Hp ->]; [|exact Ld|lia].
      split; [|split; [split; [exact Hk|unfold srcs_at; lia]|intros [A _]; lia]].
      unfold def_at, tmp_at, srcs_at, defs. f_equal.
      rewrite (nth_indep _ None (latest_write_before block k 0)) by (rewrite length_map; lia).
      apply map_nth.
    + unfold enumerate. rewrite enumerate_from_fst. apply seq_NoDup.
Qed.

Lemma phaseA_fold : forall xs k st,
  (forall i, i < length xs -> nth_error block (k + i) = nth_error xs i) ->
  k + length xs <= length block -> phaseA_inv k st ->
  phaseA_inv (k + length xs) (fold_left (phaseA_instr block) (enumerate_from k xs) st).
Proof.
  induction xs as [|x xs IH]; intros k st H Hl I; cbn [length enumerate_from fold_left].
  - rewrite Nat.add_0_r. exact I.
  - replace (k + S (length xs)) with (S k + length xs) by lia.
    assert (Ex : nth k block (Nop 0) = x).
    { apply nth_error_nth. rewrite <- (Nat.add_0_r k), H by (cbn; lia). reflexivity. }
    apply IH.
    + intros i Hi. replace (S k + i) with (k + S i) by lia. apply (H (S i)). cbn; lia.
    + cbn in Hl; lia.
    + rewrite <- Ex. apply phaseA_instr_inv; [cbn in Hl; lia|exact I].
Qed.

Lemma phaseA_start : phaseA_inv 0 (mkPrep (w_graph (use_def_walk block)) [] [] []).
Proof.
  pose proof (proj2 (use_def_walk_inv block)) as W.
  split; [|intros; reflexivity]. cbn [p_graph p_map p_instrs].
  split; [|split; [|split; [|split]]].
  - intro u. rewrite W. split.
    + intros defs H. destruct (_ && _); [|discriminate]. inversion H. apply length_map.
    + intros pos [Hu Hn]. unfold srcs_at in Hn. apply Nat.ltb_lt in Hu. rewrite Hu.
      unfold has_sources. destruct (sources (nth u block (Nop 0))); cbn in *; [lia|discriminate].
  - intros u pos [Hu Hn] _. unfold slot. rewrite W. unfold srcs_at in Hn.
    apply Nat.ltb_lt in Hu as Hu'. rewrite Hu'.
    replace (has_sources (nth u block (Nop 0))) with true
      by (unfold has_sources; destruct (sources (nth u block (Nop 0))); cbn in *; [lia|auto]).
    cbn [andb]. unfold def_at, tmp_at, srcs_at.
    rewrite (nth_indep _ None (latest_write_before block u 0)) by (rewrite length_map; lia).
    apply map_nth.
  - intros u pos _ [A _]. lia.
  - intros p u pos m H. discriminate H.
  - intros p Hp. cbn in Hp. lia.
Qed.

Lemma phaseA_all :
  phaseA_inv (length block)
    (fold_left (phaseA_instr block) (enumerate block) (mkPrep (w_graph (use_def_walk block)) [] [] [])).
Proof.
  apply (phaseA_fold block 0); [reflexivity|lia|apply phaseA_start].
Qed.

Lemma def_at_lt u pos d : def_at u pos = Some d -> d < u.
Proof.
  unfold def_at. intro H. pose proof (latest_write_before_spec block u (tmp_at u pos)) as S.
  rewrite H in S. apply S.
Qed.

(** Slots that got a [Prepare] once phase B visited the slots [Pr]. *)
Definition prepB (Pr : CodeOffset -> nat -> Prop) (u : CodeOffset) (pos : nat) : Prop :=
  needs_copy_prepare u pos = true \/ (Pr u pos /\ def_at u pos <> None).

Lemma phaseB_use_inv Pr st t u pos :
  (forall u' pos', Pr u' pos' \/ ~ Pr u' pos') ->
  use_at block u pos t -> synth_inv (prepB Pr) Pr st ->
  synth_inv (prepB (fun u' pos' => Pr u' pos' \/ (u' = u /\ pos' = pos)))
    (fun u' pos' => Pr u' pos' \/ (u' = u /\ pos' = pos)) (phaseB_use block t st (u, pos)).
Proof.
  intros Dec [Hu Ht] I. pose proof I as [J1 [J2 [J3 [J4 J5]]]].
  assert (DP : prepB Pr u pos \/ ~ prepB Pr u pos).
  { unfold prepB. destruct (needs_copy_prepare u pos); [left; left; auto|].
    destruct (Dec u pos) as [X|X]; [destruct (def_at u pos) eqn:E|].
    - left; right; split; [auto|discriminate].
    - right; intros [Y|[_ Y]]; [discriminate|auto].
    - right; intros [Y|[Y _]]; [discriminate|auto]. }
  assert (Et : t = tmp_at u pos) by (symmetry; apply nth_error_nth; exact Ht).
  (* visiting a slot that gets no new [Prepare] and is not prepared *)
  assert (Keep : (~ nonlast u pos \/ (~ prepB Pr u pos /\ def_at u pos = None)) ->
                 synth_inv (prepB (fun u' pos' => Pr u' pos' \/ (u' = u /\ pos' = pos)))
                   (fun u' pos' => Pr u' pos' \/ (u' = u /\ pos' = pos)) st).
  { intro C. eapply synth_inv_ext; [exact I| |].
    - intros u' pos' Hn'. unfold prepB.
      destruct (Nat.eq_dec u' u) as [->|Nu]; [destruct (Nat.eq_dec pos' pos) as [->|Np]|].
      + destruct C as [C|[C1 C2]]; [contradiction|]. rewrite C2. unfold prepB in C1. tauto.
      + split; [intros [A|[A B]]; [left|right]; auto|intros [A|[[A|[_ A]] B]]; [left|right|]; auto; contradiction].
      + split; [intros [A|[A B]]; [left|right]; auto|intros [A|[[A|[A _]] B]]; [left|right|]; auto; contradiction].
    - intros u' pos' Hn' HP. split; [auto|]. intros [A|[-> ->]]; [auto|].
      destruct C as [C|[C1 C2]]; contradiction. }
  unfold phaseB_use.
  assert (Hb : nth_error block u = Some (nth u block (Nop 0))) by (apply nth_error_nth'; auto).
  rewrite Hb.
  destruct (sources (nth u block (Nop 0))) as [|s ss] eqn:Hs; [destruct pos; discriminate|].
  assert (Hp : pos < length (s :: ss)) by (apply nth_error_Some; congruence).
  destruct (Nat.eqb_spec pos (length (s :: ss) - 1)) as [El|Nl].
  { apply Keep. left. intros [_ Hn]. unfold srcs_at in Hn. rewrite Hs in Hn. lia. }
  assert (Hn : nonlast u pos) by (split; [auto|unfold srcs_at; rewrite Hs; lia]).
  destruct (nget u (p_graph st)) as [defs|] eqn:Hg; [|exfalso; apply (proj2 (J1 u) pos Hn); auto].
  assert (Sl : slot (p_graph st) u pos = nth pos defs None) by (unfold slot; rewrite Hg; auto).
  destruct (nth pos defs None) as [d|] eqn:Hd.
  - destruct (Nat.leb_spec (length block) d) as [Ld|Ld].
    + assert (HP : prepB Pr u pos).
      { destruct DP as [X|X]; [exact X|].
        pose proof (J2 u pos Hn X) as E. rewrite Sl in E. symmetry in E.
        apply def_at_lt in E. destruct Hn; lia. }
      destruct (J3 u pos Hn HP) as [p [m [S1 S2]]]. rewrite Sl in S1. inversion S1; subst p.
      rewrite S2. eapply synth_inv_ext; [apply (synth_inv_mark _ _ _ _ _ _ _ _ I S2)| |].
      * intros u' pos' _. unfold prepB.
        destruct (Nat.eq_dec u' u) as [->|Nu]; [destruct (Nat.eq_dec pos' pos) as [->|Np]|].
        -- split; intros _; [|exact HP]. destruct HP as [A|[A B]]; [left; exact A|right; split; [right; split; reflexivity|exact B]].
        -- split; [intros [A|[A B]]; [left|right]; auto|intros [A|[[A|[_ A]] B]]; [left|right|]; auto; contradiction].
        -- split; [intros [A|[A B]]; [left|right]; auto|intros [A|[[A|[A _]] B]]; [left|right|]; auto; contradiction].
      * tauto.
    + assert (NP : ~ prepB Pr u pos).
      { intro X. destruct (J3 u pos Hn X) as [p [m [S1 S2]]]. rewrite Sl in S1.
        inversion S1; subst p. destruct (J4 _ _ _ _ S2) as [_ [_ [_ [D _]]]]. lia. }
      assert (Ed : def_at u pos = Some d) by (rewrite <- (J2 u pos Hn NP), Sl; auto).
      pose proof (synth_inv_add (prepB Pr) Pr (fun u' pos' => Pr u' pos' \/ (u' = u /\ pos' = pos))
                    st u pos defs true t (nins (length block + length (p_instrs st)) d (p_edges st))
                    I Hn NP Hg Et) as Ad.
      cbv zeta in Ad. eapply synth_inv_ext; [apply Ad; [tauto|]| |].
      * intros u' pos' Hn' HP'. split; [auto|]. intros [X|[-> ->]]; [auto|contradiction].
      * intros u' pos' _. unfold prepB.
        destruct (Nat.eq_dec u' u) as [->|Nu]; [destruct (Nat.eq_dec pos' pos) as [->|Np]|].
        -- rewrite Ed. split; [intros _; right; split; [auto|discriminate]|intros _; right; auto].
        -- split; [intros [[A|[A B]]|[_ A]]; [left|right|]; auto; contradiction|intros [A|[[A|[_ A]] B]]; [left; left|left; right|]; auto; contradiction].
        -- split; [intros [[A|[A B]]|[A _]]; [left|right|]; auto; contradiction|intros [A|[[A|[A _]] B]]; [left; left|left; right|]; auto; contradiction].
      * tauto.
  - apply Keep. right.
    assert (NP : ~ prepB Pr u pos).
    { intro X. destruct (J3 u pos Hn X) as [p [m [S1 _]]]. rewrite Sl in S1. discriminate. }
    split; [exact NP|]. rewrite <- (J2 u pos Hn NP), Sl. reflexivity.
Qed.

Lemma synth_inv_prepB_ext Pr Pr' st :
  (forall u pos, nonlast u pos -> (Pr u pos <-> Pr' u pos)) ->
  synth_inv (prepB Pr) Pr st -> synth_inv (prepB Pr') Pr' st.
Proof.
  intros E I. eapply synth_inv_ext; [exact I| |].
  - intros u pos Hn. unfold prepB. rewrite (E u pos Hn). reflexivity.
  - intros u pos Hn _. apply E; auto.
Qed.

Lemma phaseB_fold : forall L Pr st,
  (forall u pos, Pr u pos \/ ~ Pr u pos) ->
  (forall t u pos, In (t, (u, pos)) L -> use_at block u pos t) ->
  synth_inv (prepB Pr) Pr st ->
  synth_inv (prepB (fun u pos => Pr u pos \/ exists t, In (t, (u, pos)) L))
    (fun u pos => Pr u pos \/ exists t, In (t, (u, pos)) L)
    (fold_left (fun st tu => phaseB_use block (fst tu) st (snd tu)) L st).
Proof.
  induction L as [|[t [u pos]] L IH]; intros Pr st Dec H I; cbn [fold_left fst snd].
  - eapply synth_inv_prepB_ext; [|exact I]. intros u pos _.
    split; [auto|intros [X|[t []]]; auto].
  - pose proof (phaseB_use_inv Pr st t u pos Dec (H t u pos (or_introl eq_refl)) I) as I1.
    eapply synth_inv_prepB_ext; [|apply IH; [|intros t' u' pos' Hin; apply (H t' u' pos'); right; exact Hin|exact I1]].
    + intros u' pos' _. split.
      * intros [[X|[-> ->]]|[t' Ht']]; [left; exact X|right; exists t; left; reflexivity|right; exists t'; right; exact Ht'].
      * intros [X|[t' [E|Ht']]]; [left; left; exact X| |right; exists t'; exact Ht'].
        inversion E; subst. left; right; auto.
    + intros u' pos'. destruct (Dec u' pos') as [X|X]; [left; left; exact X|].
      destruct (Nat.eq_dec u' u) as [->|Nu]; [destruct (Nat.eq_dec pos' pos) as [->|Np]|].
      * left; right; auto.
      * right. intros [Y|[_ Y]]; contradiction.
      * right. intros [Y|[Y _]]; contradiction.
Qed.

Lemma phaseB_visits_multi u pos :
  nonlast u pos ->
  ((exists t, In (t, (u, pos)) (phaseB_list (w_uses (use_def_walk block)))) <-> multi_use u pos).
Proof.
  intros [Hu Hn]. unfold multi_use, def_at. split.
  - intros [t Ht]. apply In_phaseB_list in Ht as [[_ A] B].
    replace (tmp_at u pos) with t; [exact B|]. symmetry. apply nth_error_nth. exact A.
  - intro M. exists (tmp_at u pos). apply In_phaseB_list. split; [|exact M].
    split; [exact Hu|]. unfold tmp_at, srcs_at in *. apply nth_error_nth'. lia.
Qed.

(** The [Prepare]s synthesized for a block: the slots that get one are the
    [requires_prepare] ones, and the multi-use flag is [multi_use]. *)
Lemma synthesize_prepares_inv :
  synth_inv requires_prepare multi_use (fst (synthesize_prepares block)).
Proof.
  set (L := phaseB_list (w_uses (use_def_walk block))).
  assert (I : synth_inv (prepB (fun u pos => False \/ exists t, In (t, (u, pos)) L))
                (fun u pos => False \/ exists t, In (t, (u, pos)) L)
                (fst (synthesize_prepares block))).
  { unfold synthesize_prepares. cbn [fst]. rewrite phaseB_flatten. apply phaseB_fold.
    - intros; right; intros [].
    - intros t u pos Hin. apply In_phaseB_list in Hin as [A _]. exact A.
    - destruct phaseA_all as [IA _]. eapply synth_inv_ext; [exact IA| |].
      + intros u pos [Hu _]. unfold prepB. split; [intros [_ A]; left; exact A|].
        intros [A|[[] _]]. split; [exact Hu|exact A].
      + intros u pos _ _. split; intros []. }
  eapply synth_inv_ext; [exact I| |].
  - intros u pos Hn. unfold prepB, requires_prepare. rewrite <- (phaseB_visits_multi u pos Hn).
    fold L. split.
    + intros [A|[[[]|A] B]]; [left; exact A|right; split; [exact A|exact B]].
    + intros [A|[A B]]; [left; exact A|right; split; [right; exact A|exact B]].
  - intros u pos Hn _. rewrite <- (phaseB_visits_multi u pos Hn). fold L.
    split; [intros [[]|A]; exact A|right; exact H].
Qed.

End Synthesis.

Lemma ordered_edge_pum block :
  snd (ordered_edge_data_dependence_graph block) = p_map (fst (synthesize_prepares block)).
Proof. reflexivity. Qed.

Lemma ordered_edge_ext block :
  fst (fst (ordered_edge_data_dependence_graph block))
  = block ++ p_instrs (fst (synthesize_prepares block)).
Proof. reflexivity. Qed.

(** C7: the [prepare_use_map] of a block has no entry for the last source of
    a use; each non-last slot [(use, pos)] has an entry exactly when it
    requires a [Prepare] (phase A's condition or phase B's), and at most one;
    the entries are exactly the appended instructions, each a [Prepare] of
    the slot's temporary. *)
Theorem prepare_once_per_nonlast_slot (block : list Bytecode) :
  let r := ordered_edge_data_dependence_graph block in
  let ext := fst (fst r) in
  let pum := snd r in
  (forall p u pos m, nget p pum = Some (u, pos, m) ->
     u < length block /\ S pos < length (sources (nth u block (Nop 0)))
     /\ length block <= p < length ext
     /\ nth p ext (Nop 0)
        = mk_prepare (get_attr_id (nth u block (Nop 0))) (nth pos (sources (nth u block (Nop 0))) 0))
  /\ (forall u pos, u < length block -> S pos < length (sources (nth u block (Nop 0))) ->
        ((exists p m, nget p pum = Some (u, pos, m)) <-> requires_prepare block u pos))
  /\ (forall p p' u pos m m', nget p pum = Some (u, pos, m) -> nget p' pum = Some (u, pos, m') ->
        p = p')
  /\ (forall p, length block <= p < length ext -> exists e, nget p pum = Some e).
Proof.
  cbv zeta. rewrite ordered_edge_pum, ordered_edge_ext.
  destruct (synthesize_prepares_inv block) as [_ [_ [J3 [J4 J5]]]].
  split; [|split; [|split]].
  - intros p u pos m H. destruct (J4 _ _ _ _ H) as [[Hu Hn] [_ [_ [D [E _]]]]].
    split; [exact Hu|split; [exact Hn|split; [rewrite length_app; lia|]]].
    rewrite app_nth2 by lia. apply nth_error_nth. exact E.
  - intros u pos Hu Hn. split.
    + intros [p [m H]]. apply (J4 _ _ _ _ H).
    + intro R. destruct (J3 u pos (conj Hu Hn) R) as [p [m [_ H]]]. eauto.
  - intros p p' u pos m m' H H'.
    destruct (J4 _ _ _ _ H) as [_ [_ [S1 _]]]. destruct (J4 _ _ _ _ H') as [_ [_ [S2 _]]].
    congruence.
  - intros p Hp. rewrite length_app in Hp. apply J5. exact Hp.
Qed.

(** C3 (amended): the [MultiUse] flag of the entry [p -> (u, pos, m)] of the
    [prepare_use_map] is [true] exactly when the definition of the slot's
    temporary that reaches [u] (its latest write before [u] in the block, or
    the block entry) is read more than once in the block, in any source
    position, last ones included. *)
Theorem prepare_multi_use_flag (block : list Bytecode) (p u pos : nat) (m : bool) :
  nget p (snd (ordered_edge_data_dependence_graph block)) = Some (u, pos, m) ->
  (m = true <-> 1 < reads_of_def block (nth pos (sources (nth u block (Nop 0))) 0)
                     (latest_write_before block u (nth pos (sources (nth u block (Nop 0))) 0))).
Proof.
  rewrite ordered_edge_pum. intro H.
  destruct (synthesize_prepares_inv block) as [_ [_ [_ [J4 _]]]].
  apply (J4 _ _ _ _ H).
Qed.

Lemma prepare_multi_use_flag_witness :
  nget 2 (snd (ordered_edge_data_dependence_graph add_add_swapped)) = Some (0, 0, true)
  /\ 1 < reads_of_def add_add_swapped 0 None.
Proof.
  assert (H : nget 2 (snd (ordered_edge_data_dependence_graph add_add_swapped)) = Some (0, 0, true))
    by (vm_compute; reflexivity).
  split; [exact H|].
  exact (proj1 (prepare_multi_use_flag add_add_swapped 2 0 0 true H) eq_refl).
Defined.

Lemma slice_whole (l : list Bytecode) : l <> [] -> slice l 0 (length l - 1) = l.
Proof.
  intro H. unfold slice. cbn [skipn].
  replace (S (length l - 1) - 0) with (length l) by (destruct l; [congruence|cbn [length]; lia]).
  apply firstn_all.
Qed.

Lemma filter_prepares_all l : all_prepares l -> filter is_prepare l = l.
Proof. induction 1 as [|x l Hx _ IH]; simpl; auto. rewrite Hx, IH. auto. Qed.

(** C4 (amended): a [Prepare] writes nothing, and the synthesis does not
    recognize the [Prepare]s already in a block. So when the pass runs
    again on its own output, in every output block that the second run
    does not skip (at most 128 instructions, no call with an abort action),
    every non-last source of a use whose temporary has no earlier write in
    the block gets a new [Prepare], also when a [Prepare] of it already
    precedes the use; when the second run's sort returns, its block holds
    more [Prepare]s than the first run's output. *)
Theorem rerun_prepares_unwritten_reads (ls : LargeSort) (local_is_mut_ref : TempIndex -> bool)
    (code : list Bytecode) (lower upper : CodeOffset) (rb : ReorderedBlock) (u pos : nat) :
  optimize_block_for_stack_machine ls local_is_mut_ref code lower upper = Some rb ->
  let out := rb_block rb in
  skip_block out = false ->
  u < length out -> S pos < length (sources (nth u out (Nop 0))) ->
  latest_write_before out u (nth pos (sources (nth u out (Nop 0))) 0) = None ->
  (forall a t, dests (mk_prepare a t) = [])
  /\ (exists p m, nget p (bc_prepare_use (block_constraints local_is_mut_ref out)) = Some (u, pos, m))
  /\ (forall rb2, optimize_block_for_stack_machine ls local_is_mut_ref out 0 (length out - 1) = Some rb2 ->
        length (filter is_prepare out) < length (filter is_prepare (rb_block rb2))).
Proof.
  intros _ out Hskip Hu Hn Hd.
  destruct (synthesize_prepares_inv out) as [_ [_ [J3 [J4 _]]]].
  assert (R : requires_prepare out u pos).
  { left. unfold needs_copy_prepare, def_at, tmp_at, srcs_at. rewrite Hd. reflexivity. }
  destruct (J3 u pos (conj Hu Hn) R) as [p [m [_ H]]].
  split; [reflexivity|split].
  - exists p, m. change (bc_prepare_use (block_constraints local_is_mut_ref out))
      with (snd (ordered_edge_data_dependence_graph out)). rewrite ordered_edge_pum. exact H.
  - intros rb2 Ho.
    assert (NE : out <> []) by (intro E; rewrite E in Hu; cbn in Hu; lia).
    rewrite optimize_not_skipped, slice_whole in Ho by (auto; rewrite slice_whole; auto).
    destruct (run_block ls local_is_mut_ref out) as [r|] eqn:Hr; [|discriminate].
    injection Ho as <-.
    destruct (run_block_Some _ _ _ _ Hr) as [order [-> P]].
    pose proof (reordered_block_perm _ _ P) as Q.
    apply (Permutation_filter' is_prepare) in Q. apply Permutation_length in Q.
    rewrite Q, block_constraints_block, filter_app, length_app,
      (filter_prepares_all (p_instrs (fst (synthesize_prepares out))))
      by apply synthesized_all_prepares.
    destruct (J4 _ _ _ _ H) as [_ [_ [_ [B _]]]]. lia.
Qed.

Lemma rerun_prepares_unwritten_reads_witness :
  let c := block_constraints (fun _ => false) single_add in
  let rb := reordered_of_run (run_with c (small_order c)) in
  optimize_block_for_stack_machine panicking_sort (fun _ => false) single_add 0 0 = Some rb
  /\ rb_block rb = [mk_prepare 0 0; Call 0 [2] Add [0; 1] None]
  /\ (forall a t, dests (mk_prepare a t) = [])
  /\ (exists p m, nget p (bc_prepare_use (block_constraints (fun _ => false) (rb_block rb)))
                  = Some (1, 0, m))
  /\ (forall rb2, optimize_block_for_stack_machine panicking_sort (fun _ => false) (rb_block rb) 0
                    (length (rb_block rb) - 1) = Some rb2 ->
        length (filter is_prepare (rb_block rb)) < length (filter is_prepare (rb_block rb2))).
Proof.
  intros c rb.
  assert (E : optimize_block_for_stack_machine panicking_sort (fun _ => false) single_add 0 0 = Some rb)
    by (vm_compute; reflexivity).
  split; [exact E|split; [vm_compute; reflexivity|]].
  apply (rerun_prepares_unwritten_reads panicking_sort (fun _ => false) single_add 0 0 rb 1 0 E).
  - vm_compute. reflexivity.
  - apply Nat.ltb_lt. vm_compute. reflexivity.
  - apply Nat.ltb_lt. vm_compute. reflexivity.
  - vm_compute. reflexivity.
Defined.

(** * Further properties of the pass *)

(** ** [DependenceConstraints]: adding and reading edges *)

Lemma has_edge_add_edge x y a b e :
  has_edge x y (add_edge a b e) = true <-> (x = a /\ y = b) \/ has_edge x y e = true.
Proof.
  unfold has_edge, add_edge, omap_entry_update.
  change (omap_insert Nat.compare ?k ?v ?m) with (nins k v m).
  change (omap_get Nat.compare a e) with (nget a e).
  rewrite nget_nins. destruct (Nat.eqb_spec x a) as [->|Ne].
  - rewrite oset_mem_nat_In, oset_insert_nat_In. destruct (nget a e) as [s|].
    + rewrite oset_mem_nat_In. intuition.
    + simpl. intuition congruence.
  - intuition congruence.
Qed.

Lemma has_edge_add_edge_mono x y a b e :
  has_edge x y e = true -> has_edge x y (add_edge a b e) = true.
Proof. intro H. apply has_edge_add_edge. auto. Qed.

Lemma has_edge_nil x y : has_edge x y [] = false.
Proof. reflexivity. Qed.

(** ** Floyd-Warshall *)

Lemma reach_split k e a b :
  reach (fun c => c < S k) e a b ->
  reach (fun c => c < k) e a b \/ (reach (fun c => c < k) e a k /\ reach (fun c => c < k) e k b).
Proof.
  induction 1 as [a b H|a c b H1 IH1 Hc H2 IH2].
  - left; constructor; auto.
  - destruct (Nat.eq_dec c k) as [->|Hne].
    + right. split.
      * destruct IH1 as [A|[A _]]; auto.
      * destruct IH2 as [B|[_ B]]; auto.
    + assert (Hc' : c < k) by lia.
      destruct IH1 as [A|[A A']], IH2 as [B|[B B']].
      * left; eapply reach_via; eauto.
      * right; split; [eapply reach_via; eauto|auto].
      * right; split; [auto|eapply reach_via; eauto].
      * right; auto.
Qed.

Lemma reach_zero e a b : reach (fun c => c < 0) e a b -> has_edge a b e = true.
Proof. induction 1; auto; lia. Qed.

Section FloydWarshall.
Variable n : nat.
Variable e0 : Edges.

Lemma fw_inner_mono i k : forall l e x y, has_edge x y e = true ->
  has_edge x y (fold_left (fun e j => if has_edge i k e && has_edge k j e then add_edge i j e else e)
                  l e) = true.
Proof.
  induction l as [|j l IH]; intros e x y H; simpl; auto.
  apply IH. destruct (_ && _); auto. apply has_edge_add_edge_mono; auto.
Qed.

Lemma fw_inner_sound i k : k < n -> forall l e,
  (forall x y, has_edge x y e = true -> reach (fun c => c < n) e0 x y) ->
  forall x y,
  has_edge x y (fold_left (fun e j => if has_edge i k e && has_edge k j e then add_edge i j e else e)
                  l e) = true -> reach (fun c => c < n) e0 x y.
Proof.
  intros Hk. induction l as [|j l IH]; intros e S; simpl; auto.
  apply IH. destruct (has_edge i k e) eqn:A, (has_edge k j e) eqn:B; simpl; auto.
  intros x y H. apply has_edge_add_edge in H as [[-> ->]|H]; auto.
  eapply reach_via; [apply S, A|exact Hk|apply S, B].
Qed.

Lemma fw_inner_complete i k : forall l e j, In j l -> has_edge i k e = true -> has_edge k j e = true ->
  has_edge i j (fold_left (fun e j => if has_edge i k e && has_edge k j e then add_edge i j e else e)
                  l e) = true.
Proof.
  induction l as [|j' l IH]; intros e j Hj A B; simpl; [destruct Hj|].
  destruct Hj as [<-|Hj].
  - rewrite A, B. simpl. apply fw_inner_mono, has_edge_add_edge. auto.
  - apply IH; auto; destruct (_ && _); auto; apply has_edge_add_edge_mono; auto.
Qed.

Lemma fw_mid_mono k : forall l e x y, has_edge x y e = true ->
  has_edge x y (fold_left (fun e i =>
      fold_left (fun e j => if has_edge i k e && has_edge k j e then add_edge i j e else e)
        (seq 0 n) e) l e) = true.
Proof.
  induction l as [|i l IH]; intros e x y H; simpl; auto. apply IH, fw_inner_mono; auto.
Qed.

Lemma fw_mid_sound k : k < n -> forall l e,
  (forall x y, has_edge x y e = true -> reach (fun c => c < n) e0 x y) ->
  forall x y,
  has_edge x y (fold_left (fun e i =>
      fold_left (fun e j => if has_edge i k e && has_edge k j e then add_edge i j e else e)
        (seq 0 n) e) l e) = true -> reach (fun c => c < n) e0 x y.
Proof.
  intro Hk. induction l as [|i l IH]; intros e S; simpl; auto.
  apply IH. apply fw_inner_sound; auto.
Qed.

Lemma fw_mid_complete k : forall l e i j, In i l -> j < n -> has_edge i k e = true ->
  has_edge k j e = true ->
  has_edge i j (fold_left (fun e i =>
      fold_left (fun e j => if has_edge i k e && has_edge k j e then add_edge i j e else e)
        (seq 0 n) e) l e) = true.
Proof.
  induction l as [|i' l IH]; intros e i j Hi Hj A B; simpl; [destruct Hi|].
  destruct Hi as [<-|Hi].
  - apply fw_mid_mono, fw_inner_complete; auto. apply in_seq; lia.
  - apply IH; auto; apply fw_inner_mono; auto.
Qed.

Lemma fw_outer m : m <= n ->
  let c := fold_left (fun e k =>
             fold_left (fun e i =>
               fold_left (fun e j => if has_edge i k e && has_edge k j e then add_edge i j e else e)
                 (seq 0 n) e)
               (seq 0 n) e)
             (seq 0 m) e0 in
  (forall a b, has_edge a b e0 = true -> has_edge a b c = true)
  /\ (forall a b, has_edge a b c = true -> reach (fun x => x < n) e0 a b)
  /\ (forall a b, a < n -> b < n -> reach (fun x => x < m) e0 a b -> has_edge a b c = true).
Proof.
  induction m as [|m IH]; intros Hm; cbv zeta.
  - simpl. split; [auto|split].
    + intros a b H; constructor; auto.
    + intros a b _ _ H; apply reach_zero; auto.
  - destruct (IH ltac:(lia)) as [M [S C]]. rewrite seq_S, fold_left_app. cbn [fold_left].
    split; [|split].
    + intros a b H. apply fw_mid_mono; auto.
    + intros a b H. eapply fw_mid_sound; [|exact S|exact H]. lia.
    + intros a b Ha Hb H. apply reach_split in H as [H|[H1 H2]].
      * apply fw_mid_mono, C; auto.
      * apply fw_mid_complete; [apply in_seq; lia|lia|apply C; auto; lia|apply C; auto; lia].
Qed.
End FloydWarshall.

(** ** The non-reorderable chain *)

Lemma nr_at_snoc_lt pre x c : c < length pre -> nr_at (pre ++ [x]) c = nr_at pre c.
Proof. intro H. unfold nr_at. rewrite app_nth1; auto. Qed.

Lemma nr_at_snoc_eq pre x : nr_at (pre ++ [x]) (length pre) = is_relatively_non_reorderable x.
Proof. unfold nr_at. rewrite app_nth2, Nat.sub_diag; auto. Qed.

Definition nr_link (block : list Bytecode) (a b : CodeOffset) : Prop :=
  a < b < length block /\ nr_at block a = true /\ nr_at block b = true
  /\ forall c, a < c < b -> nr_at block c = false.

Lemma nr_link_snoc pre x a b :
  nr_link (pre ++ [x]) a b <->
  nr_link pre a b
  \/ (b = length pre /\ a < length pre /\ nr_at pre a = true /\ is_relatively_non_reorderable x = true
      /\ forall c, a < c < length pre -> nr_at pre c = false).
Proof.
  unfold nr_link. rewrite length_app. simpl. split.
  - intros [[Hab Hb] [Ha [Hbn Hc]]].
    assert (Ha' : nr_at pre a = true) by (rewrite <- (nr_at_snoc_lt pre x); auto; lia).
    destruct (Nat.eq_dec b (length pre)) as [->|Hne].
    + right. rewrite nr_at_snoc_eq in Hbn. repeat split; auto.
      intros c Hc'. rewrite <- (nr_at_snoc_lt pre x); auto. lia.
    + left. repeat split; auto; try lia.
      * rewrite <- (nr_at_snoc_lt pre x); auto. lia.
      * intros c Hc'. rewrite <- (nr_at_snoc_lt pre x); auto. lia.
  - intros [[[Hab Hb] [Ha [Hbn Hc]]]|[-> [Ha [Han [Hx Hc]]]]].
    + repeat split; try lia.
      * rewrite nr_at_snoc_lt; auto; lia.
      * rewrite nr_at_snoc_lt; auto.
      * intros c Hc'. rewrite nr_at_snoc_lt; auto; lia.
    + repeat split; try lia.
      * rewrite nr_at_snoc_lt; auto.
      * rewrite nr_at_snoc_eq; auto.
      * intros c Hc'. rewrite nr_at_snoc_lt; auto; lia.
Qed.

Lemma nr_chain_fold (pre : list Bytecode) (e : Edges) : forall prev e',
  fold_left (fun acc oi =>
           let '(prev, edges) := acc in
           if is_relatively_non_reorderable (snd oi) then
             (Some (fst oi),
              match prev with Some p => add_edge p (fst oi) edges | None => edges end)
           else acc)
         (enumerate pre) (None, e) = (prev, e') ->
  match prev with
  | None => forall c, c < length pre -> nr_at pre c = false
  | Some p => p < length pre /\ nr_at pre p = true
              /\ forall c, p < c < length pre -> nr_at pre c = false
  end
  /\ forall a b, has_edge a b e' = true <-> has_edge a b e = true \/ nr_link pre a b.
Proof.
  induction pre as [|x pre IH] using rev_ind; intros prev e' F.
  - simpl in F. inversion F; subst. split; [intros; simpl in *; lia|].
    intros a b. unfold nr_link. simpl. intuition lia.
  - unfold enumerate in F, IH. rewrite enumerate_from_app, fold_left_app in F.
    destruct (fold_left _ (enumerate_from 0 pre) (None, e)) as [p0 e1] eqn:F0.
    destruct (IH p0 e1 F0) as [P E]. clear IH F0.
    cbn [fold_left fst snd] in F. rewrite Nat.add_0_l in F.
    rewrite length_app. cbn [length]. rewrite Nat.add_1_r.
    destruct (is_relatively_non_reorderable x) eqn:Hx; inversion F; subst; clear F.
    + split.
      * repeat split; [lia|rewrite nr_at_snoc_eq; auto|intros; lia].
      * intros a b. rewrite nr_link_snoc.
        destruct p0 as [p|].
        { destruct P as [Hp [Hpn Hpc]]. rewrite has_edge_add_edge, E. split.
          - intros [[-> ->]|[H|H]]; auto. right; right. repeat split; auto.
          - intros [H|[H|[-> [Ha [Han [_ Hc]]]]]]; auto.
            left. split; auto.
            destruct (lt_eq_lt_dec a p) as [[Hlt|Heq]|Hgt]; auto.
            + rewrite Hc in Hpn; [discriminate|lia].
            + rewrite Hpc in Han; [discriminate|lia]. }
        { rewrite E. split; [tauto|].
          intros [H|[H|[-> [Ha [Han _]]]]]; auto. rewrite P in Han; [discriminate|auto]. }
    + split.
      * destruct prev as [p|].
        { destruct P as [Hp [Hpn Hpc]]. repeat split; [lia|rewrite nr_at_snoc_lt; auto|].
          intros c Hc. destruct (Nat.eq_dec c (length pre)) as [->|Hne].
          - rewrite nr_at_snoc_eq; auto.
          - rewrite nr_at_snoc_lt by lia. apply Hpc; lia. }
        { intros c Hc. destruct (Nat.eq_dec c (length pre)) as [->|Hne].
          - rewrite nr_at_snoc_eq; auto.
          - rewrite nr_at_snoc_lt by lia. apply P; lia. }
      * intros a b. rewrite nr_link_snoc, E. split; [tauto|].
        intros [H|[H|[_ [_ [_ [Hx' _]]]]]]; auto. congruence.
Qed.

(** ** True dependencies *)

Lemma In_flat_opt d l : In d (flat_opt l) <-> In (Some d) l.
Proof.
  induction l as [|[x|] l IH]; simpl; [tauto| |].
  - rewrite IH. intuition congruence.
  - rewrite IH. intuition congruence.
Qed.

Lemma true_deps_inner u : forall l e a b,
  has_edge a b (fold_left (fun e d => add_edge d u e) l e) = true
  <-> has_edge a b e = true \/ (b = u /\ In a l).
Proof.
  induction l as [|d l IH]; intros e a b; simpl; [tauto|].
  rewrite IH, has_edge_add_edge. intuition.
Qed.

Lemma true_deps_fold : forall (g : UseDefGraph) e a b,
  has_edge a b (add_true_dependencies g e) = true
  <-> has_edge a b e = true \/ exists ds, In (b, ds) g /\ In (Some a) ds.
Proof.
  unfold add_true_dependencies.
  induction g as [|[u ds] g IH]; intros e a b; simpl.
  - split; [tauto|]. intros [H|[ds [[] _]]]; auto.
  - rewrite IH, true_deps_inner, In_flat_opt. split.
    + intros [[H|[-> H]]|[ds' [H1 H2]]]; auto.
      * right. exists ds. auto.
      * right. exists ds'. auto.
    + intros [H|[ds' [[E|H1] H2]]]; auto.
      * inversion E; subst. left; right; auto.
      * right. exists ds'. auto.
Qed.

(** ** False dependencies *)

Definition false_dep (B : list Bytecode) (a b : CodeOffset) : Prop :=
  a < b < length B /\ (forall c, c <= b -> is_prepare (nth c B (Nop 0)) = false)
  /\ exists t, In t (dests (nth b B (Nop 0)))
               /\ (In t (sources (nth a B (Nop 0))) \/ In t (dests (nth a B (Nop 0)))).

Lemma In_omap_remove {K V} (kcmp : K -> K -> comparison) k (m : list (K * V)) kv :
  In kv (omap_remove kcmp k m) -> In kv m.
Proof.
  induction m as [|[a b] m IH]; simpl; auto.
  destruct (kcmp k a); simpl; intuition.
Qed.

Lemma nget_In {V} k (v : V) m : nget k m = Some v -> In (k, v) m.
Proof. apply omap_get_In, nat_compare_eq_iff. Qed.

Lemma In_nins {V} k (v : V) m k' v' : In (k', v') (nins k v m) -> (k' = k /\ v' = v) \/ In (k', v') m.
Proof. intro H. apply In_omap_insert in H as [E|H]; [inversion E; auto|auto]. Qed.

(** An entry of [map.entry(k).or_default()] updated by [oset_insert x]. *)
Lemma In_entry_oset_insert k x (m : NatMap (list nat)) k' s :
  In (k', s) (omap_entry_update Nat.compare [] k (oset_insert Nat.compare x) m) ->
  In (k', s) m \/ (k' = k /\ forall y, In y s -> y = x \/ exists s0, In (k, s0) m /\ In y s0).
Proof.
  unfold omap_entry_update. change (omap_insert Nat.compare ?a ?b ?c) with (nins a b c).
  change (omap_get Nat.compare k m) with (nget k m).
  intro H. apply In_nins in H as [[-> ->]|H]; [right|left; auto].
  split; auto. intros y Hy. apply oset_insert_nat_In in Hy as [->|Hy]; auto.
  destruct (nget k m) as [s0|] eqn:Hs; [|destruct Hy].
  right. exists s0. split; auto. apply nget_In; auto.
Qed.

Lemma skipn_cons_nth {A} (B : list A) o x r d :
  skipn o B = x :: r -> nth o B d = x /\ o < length B /\ skipn (S o) B = r.
Proof.
  revert B; induction o as [|o IH]; intros [|y B] H; simpl in *; try discriminate.
  - inversion H; subst. repeat split; auto. lia.
  - destruct (IH B H) as [A1 [A2 A3]]. repeat split; auto. lia.
Qed.

Lemma war_fold offset : forall nodes edges a b,
  has_edge a b (fold_left (fun e n => if n =? offset then e else add_edge n offset e) nodes edges)
    = true ->
  has_edge a b edges = true \/ (b = offset /\ In a nodes /\ a <> offset).
Proof.
  induction nodes as [|n nodes IH]; intros edges a b H; simpl in H; auto.
  apply IH in H as [H|[-> [H1 H2]]]; [|right; simpl; auto].
  destruct (Nat.eqb_spec n offset); auto.
  apply has_edge_add_edge in H as [[-> ->]|H]; auto. right. simpl. auto.
Qed.

Section FalseDeps.
Variable B : list Bytecode.
Variable e0 : Edges.

Definition rb_ok (k : nat) (rb : NatMap (list CodeOffset)) : Prop :=
  forall t s n, In (t, s) rb -> In n s -> n < k /\ In t (sources (nth n B (Nop 0))).
Definition lw_ok (k : nat) (lw : NatMap CodeOffset) : Prop :=
  forall t n, In (t, n) lw -> n < k /\ In t (dests (nth n B (Nop 0))).
Definition edges_ok (edges : Edges) : Prop :=
  forall a b, has_edge a b edges = true -> has_edge a b e0 = true \/ false_dep B a b.

Lemma false_sources_fold offset : forall l rb,
  rb_ok (S offset) rb -> (forall t, In t l -> In t (sources (nth offset B (Nop 0)))) ->
  rb_ok (S offset) (fold_left (fun rb t => omap_entry_update Nat.compare [] t
                                 (oset_insert Nat.compare offset) rb) l rb).
Proof.
  induction l as [|t l IH]; intros rb R L; simpl; auto.
  apply IH; [|intros; apply L; simpl; auto].
  intros t' s n H1 H2. apply In_entry_oset_insert in H1 as [H1|[-> H1]]; eauto.
  destruct (H1 n H2) as [->|[s0 [H3 H4]]]; eauto.
  split; auto. apply L. simpl; auto.
Qed.

Lemma false_dests_fold offset instr :
  nth offset B (Nop 0) = instr -> offset < length B ->
  is_prepare instr = false -> (forall c, c < offset -> is_prepare (nth c B (Nop 0)) = false) ->
  forall l rb lw edges rb' lw' edges',
  (forall t, In t l -> In t (dests instr)) ->
  rb_ok (S offset) rb -> lw_ok (S offset) lw -> edges_ok edges ->
  fold_left (fun acc t =>
            let '(rb, lw, edges) := acc in
            let edges := match nget t rb with
                         | Some nodes =>
                             fold_left (fun e n => if n =? offset then e else add_edge n offset e)
                               nodes edges
                         | None => edges
                         end in
            let rb := omap_remove Nat.compare t rb in
            let edges := match nget t lw with
                         | Some node => if node =? offset then edges else add_edge node offset edges
                         | None => edges
                         end in
            (rb, nins t offset lw, edges))
          l (rb, lw, edges) = (rb', lw', edges') ->
  rb_ok (S offset) rb' /\ lw_ok (S offset) lw' /\ edges_ok edges'.
Proof.
  intros Hi Ho Hp NP. induction l as [|t l IH]; intros rb lw edges rb' lw' edges' L R W E F.
  - simpl in F. inversion F; subst. auto.
  - simpl in F. refine (IH _ _ _ _ _ _ _ _ _ _ F); [intros; apply L; simpl; auto| | |].
    + intros t' s n H1 H2. apply In_omap_remove in H1. eauto.
    + intros t' n H. apply In_nins in H as [[-> ->]|H]; [|eauto].
      split; [lia|]. rewrite Hi. apply L. simpl; auto.
    + assert (NB : forall c, c <= offset -> is_prepare (nth c B (Nop 0)) = false).
      { intros c Hc. destruct (Nat.eq_dec c offset) as [->|Hne]; [rewrite Hi; auto|apply NP; lia]. }
      assert (Ht : In t (dests (nth offset B (Nop 0)))) by (rewrite Hi; apply L; simpl; auto).
      assert (E1 : edges_ok (match nget t rb with
                    | Some nodes =>
                        fold_left (fun e n => if n =? offset then e else add_edge n offset e) nodes edges
                    | None => edges end)).
      { destruct (nget t rb) as [nodes|] eqn:Hn; auto.
        intros a b H. apply war_fold in H as [H|[-> [Ha Hne]]]; auto.
        destruct (R t nodes a (nget_In _ _ _ Hn) Ha) as [Hlt Hs].
        right. repeat split; auto; try lia. exists t. auto. }
      destruct (@nget nat t lw) as [node|] eqn:Hw; auto.
      destruct (Nat.eqb_spec node offset); auto.
      intros a b H. apply has_edge_add_edge in H as [[-> ->]|H]; auto.
      destruct (W t node (nget_In _ _ _ Hw)) as [Hlt Hd].
      right. repeat split; auto; try lia. exists t. auto.
Qed.

Lemma false_walk_sound : forall rest offset rb lw edges,
  skipn offset B = rest -> rb_ok offset rb -> lw_ok offset lw ->
  (forall c, c < offset -> is_prepare (nth c B (Nop 0)) = false) -> edges_ok edges ->
  edges_ok (false_deps_walk offset rest rb lw edges).
Proof.
  induction rest as [|instr rest IH]; intros offset rb lw edges Hs R W NP E; simpl; auto.
  destruct (skipn_cons_nth B offset instr rest (Nop 0) Hs) as [Hi [Ho Hs']].
  destruct (is_prepare instr) eqn:Hp; auto.
  destruct (fold_left _ (dests instr) _) as [[rb2 lw2] e2] eqn:F.
  destruct (false_dests_fold offset instr Hi Ho Hp NP _ _ _ _ _ _ _ (fun t H => H)
              (false_sources_fold offset (sources instr) rb
                 ltac:(intros t s n H1 H2; destruct (R t s n H1 H2); split; auto)
                 ltac:(intros; rewrite Hi; auto))
              ltac:(intros t n H; destruct (W t n H); split; auto) E F) as [R' [W' E']].
  apply IH; auto.
  intros c Hc. destruct (Nat.eq_dec c offset) as [->|Hne]; [rewrite Hi; auto|apply NP; lia].
Qed.
End FalseDeps.

Lemma false_deps_sound B e a b :
  has_edge a b (add_false_dependencies B e) = true -> has_edge a b e = true \/ false_dep B a b.
Proof.
  revert a b. apply (false_walk_sound B e B 0 [] [] e).
  - reflexivity.
  - intros t s n [].
  - intros t n [].
  - intros; lia.
  - intros a b H; auto.
Qed.

(** ** Reference-argument dependencies *)

Definition ref_dep (f : TempIndex -> bool) (B : list Bytecode) (a b : CodeOffset) : Prop :=
  a <= b < length B
  /\ (exists t, In t (sources (nth a B (Nop 0))) /\ In t (sources (nth b B (Nop 0))))
  /\ (is_ref_arg_instr f (nth a B (Nop 0)) = true \/ is_ref_arg_instr f (nth b B (Nop 0)) = true)
  /\ (a = b -> ~ NoDup (sources (nth b B (Nop 0)))).

Section RefArgs.
Variable f : TempIndex -> bool.
Variable B : list Bytecode.
Variable e0 : Edges.

Definition rd_ok (k : nat) (reads : NatMap (list CodeOffset)) : Prop :=
  forall t s n, In (t, s) reads -> In n s ->
    n < k /\ In t (sources (nth n B (Nop 0))) /\ is_ref_arg_instr f (nth n B (Nop 0)) = false.
Definition ra_ok (k : nat) (ra : NatMap CodeOffset) : Prop :=
  forall t p, In (t, p) ra ->
    p < k /\ In t (sources (nth p B (Nop 0))) /\ is_ref_arg_instr f (nth p B (Nop 0)) = true.
Definition redges_ok (edges : Edges) : Prop :=
  forall a b, has_edge a b edges = true -> has_edge a b e0 = true \/ ref_dep f B a b.

Lemma ref_branch_fold offset instr :
  nth offset B (Nop 0) = instr -> offset < length B -> is_ref_arg_instr f instr = true ->
  forall l pre reads ra edges reads' ra' edges',
  sources instr = pre ++ l -> rd_ok offset reads ->
  (forall t p, In (t, p) ra -> (p < offset /\ In t (sources (nth p B (Nop 0)))
                                 /\ is_ref_arg_instr f (nth p B (Nop 0)) = true)
                               \/ (p = offset /\ In t pre)) ->
  redges_ok edges ->
  fold_left (fun acc src =>
        let '(reads, ref_args, edges) := acc in
        let edges := match nget src reads with
                     | Some prev => fold_left (fun e r => add_edge r offset e) prev edges
                     | None => edges
                     end in
        let reads := omap_remove Nat.compare src reads in
        let edges := match nget src ref_args with
                     | Some p => add_edge p offset edges
                     | None => edges
                     end in
        (reads, nins src offset ref_args, edges))
      l (reads, ra, edges) = (reads', ra', edges') ->
  rd_ok offset reads' /\ ra_ok (S offset) ra' /\ redges_ok edges'.
Proof.
  unfold CodeOffset in *. intros Hi Ho Hr. induction l as [|src l IH]; intros pre reads ra edges reads' ra' edges' Hs R A E F.
  - simpl in F. inversion F; subst reads' ra' edges'. split; [auto|split; auto].
    intros t p H. destruct (A t p H) as [[H1 [H2 H3]]|[-> H1]].
    + split; auto.
    + rewrite Hi, Hs, app_nil_r. auto.
  - simpl in F. refine (IH (pre ++ [src]) _ _ _ _ _ _ _ _ _ _ F).
    + rewrite Hs, <- app_assoc. reflexivity.
    + intros t s n H1 H2. apply In_omap_remove in H1. eauto.
    + intros t p H. apply In_nins in H as [[-> ->]|H].
      * right. split; auto. apply in_or_app; right; left; auto.
      * destruct (A t p H) as [X|[-> X]]; [left; auto|right; split; auto].
        apply in_or_app; left; auto.
    + assert (Hsrc : In src (sources (nth offset B (Nop 0))))
        by (rewrite Hi, Hs; apply in_or_app; right; left; auto).
      assert (E1 : redges_ok (match @nget (list nat) src reads with
                   | Some prev => fold_left (fun e r => add_edge r offset e) prev edges
                   | None => edges end)).
      { destruct (@nget (list nat) src reads) as [prev|] eqn:Hp; auto.
        intros a b H. apply true_deps_inner in H as [H|[-> Ha]]; auto.
        destruct (R src prev a (nget_In _ _ _ Hp) Ha) as [H1 [H2 H3]].
        right. split; [lia|split; [exists src; auto|split; [right; rewrite Hi; auto|intro; lia]]]. }
      destruct (@nget nat src ra) as [p|] eqn:Hp; auto.
      intros a b H. apply has_edge_add_edge in H as [[-> ->]|H]; auto.
      right. destruct (A src p (nget_In _ _ _ Hp)) as [[H1 [H2 H3]]|[-> H1]].
      * split; [lia|split; [exists src; auto|split; [left; auto|intro; lia]]].
      * split; [lia|split; [exists src; auto|split; [right; rewrite Hi; auto|]]].
        intros _ ND. rewrite Hi, Hs in ND. apply NoDup_remove_2 in ND.
           apply ND. apply in_or_app. left; auto.
Qed.

Lemma nonref_branch_fold offset instr :
  nth offset B (Nop 0) = instr -> offset < length B -> is_ref_arg_instr f instr = false ->
  forall l reads ra edges reads' ra' edges',
  (forall t, In t l -> In t (sources instr)) -> rd_ok (S offset) reads -> ra_ok offset ra ->
  redges_ok edges ->
  fold_left (fun acc src =>
        let '(reads, ref_args, edges) := acc in
        let reads := omap_entry_update Nat.compare [] src (oset_insert Nat.compare offset) reads in
        let edges := match nget src ref_args with
                     | Some p => add_edge p offset edges
                     | None => edges
                     end in
        (reads, ref_args, edges))
      l (reads, ra, edges) = (reads', ra', edges') ->
  rd_ok (S offset) reads' /\ ra_ok offset ra' /\ redges_ok edges'.
Proof.
  unfold CodeOffset in *. intros Hi Ho Hr. induction l as [|src l IH]; intros reads ra edges reads' ra' edges' L R A E F.
  - simpl in F. inversion F; subst reads' ra' edges'. auto.
  - simpl in F. refine (IH _ _ _ _ _ _ _ _ _ _ F).
    + intros; apply L; simpl; auto.
    + intros t s n H1 H2. apply In_entry_oset_insert in H1 as [H1|[-> H1]]; eauto.
      destruct (H1 n H2) as [->|[s0 [H3 H4]]]; eauto.
      rewrite Hi. repeat split; auto. apply L. simpl; auto.
    + auto.
    + destruct (@nget nat src ra) as [p|] eqn:Hp; auto.
      intros a b H. apply has_edge_add_edge in H as [[-> ->]|H]; auto.
      destruct (A src p (nget_In _ _ _ Hp)) as [H1 [H2 H3]].
      right. split; [lia|split; [|split; [left; auto|intro; lia]]].
      exists src. split; auto. rewrite Hi. apply L. simpl; auto.
Qed.

Lemma ref_walk : forall rest k reads ra edges reads' ra' edges',
  skipn k B = rest -> rd_ok k reads -> ra_ok k ra -> redges_ok edges ->
  fold_left (ref_arg_step f) (enumerate_from k rest) (reads, ra, edges) = (reads', ra', edges') ->
  redges_ok edges'.
Proof.
  induction rest as [|instr rest IH]; intros k reads ra edges reads' ra' edges' Hs R A E F.
  - simpl in F. inversion F; subst; auto.
  - destruct (skipn_cons_nth B k instr rest (Nop 0) Hs) as [Hi [Ho Hs']].
    cbn [enumerate_from fold_left] in F.
    destruct (ref_arg_step f (reads, ra, edges) (k, instr)) as [[r1 a1] e1] eqn:F1.
    unfold ref_arg_step in F1.
    destruct (is_ref_arg_instr f instr) eqn:Hr.
    + destruct (ref_branch_fold k instr Hi Ho Hr (sources instr) [] _ _ _ _ _ _ eq_refl R
                  (fun t p H => or_introl (A t p H)) E F1) as [R1 [A1 E1]].
      refine (IH (S k) _ _ _ _ _ _ Hs' _ A1 E1 F).
      intros t s n H1 H2. destruct (R1 t s n H1 H2) as [X1 X2]. split; [lia|auto].
    + destruct (nonref_branch_fold k instr Hi Ho Hr (sources instr) _ _ _ _ _ _
                  (fun t H => H)
                  ltac:(intros t s n H1 H2; destruct (R t s n H1 H2) as [X1 X2]; split; [lia|auto])
                  A E F1) as [R1 [A1 E1]].
      refine (IH (S k) _ _ _ _ _ _ Hs' R1 _ E1 F).
      intros t p H. destruct (A1 t p H) as [X1 X2]. split; [lia|auto].
Qed.
End RefArgs.

Lemma ref_deps_sound f B e a b :
  has_edge a b (add_ref_arg_dependencies f B e) = true -> has_edge a b e = true \/ ref_dep f B a b.
Proof.
  unfold add_ref_arg_dependencies, enumerate.
  destruct (fold_left (ref_arg_step f) (enumerate_from 0 B) ([], [], e)) as [[r1 a1] e1] eqn:F.
  revert a b. refine (ref_walk f B e B 0 [] [] e _ _ _ eq_refl _ _ _ F).
  - intros t s n [].
  - intros t p [].
  - intros a b H; auto.
Qed.

(** ** Sorted keys of the maps of the synthesis *)

Lemma nins_sorted {V} k (v : V) m :
  keys_sorted Nat.compare m -> keys_sorted Nat.compare (nins k v m).
Proof. apply (omap_insert_sorted Nat.compare nat_compare_eq_iff nat_compare_opp nat_compare_trans). Qed.

Lemma nat_sorted_In_nget {V} k (v : V) m : keys_sorted Nat.compare m -> In (k, v) m -> nget k m = Some v.
Proof. apply keys_sorted_In_get, lawful_nat. Qed.

Lemma walk_graph_sorted block : keys_sorted Nat.compare (w_graph (use_def_walk block)).
Proof.
  unfold use_def_walk.
  apply (fold_left_inv (fun st => keys_sorted Nat.compare (w_graph st))); [|constructor].
  intros st [o i] H. unfold walk_instr.
  destruct (sources i) as [|s l]; simpl; auto.
  destruct (fold_left _ _ _) as [edges uses]. simpl. apply nins_sorted; auto.
Qed.

Definition prep_sorted (st : PrepState) : Prop :=
  keys_sorted Nat.compare (p_graph st) /\ keys_sorted Nat.compare (p_map st).

Lemma phaseA_instr_sorted block st ui : prep_sorted st -> prep_sorted (phaseA_instr block st ui).
Proof.
  destruct ui as [u i]. intros [G M]. unfold phaseA_instr.
  destruct (length (sources i) <? 2); [split; auto|].
  destruct (nget u (p_graph st)) as [defs|]; [|split; auto].
  pose proof (fold_left_inv
                (fun acc : list (option CodeOffset) * PrepareUseMap * list Bytecode * NatMap CodeOffset =>
                   keys_sorted Nat.compare (snd (fst (fst acc))))
                (phaseA_slot block u i)) as F.
  match goal with |- context [fold_left _ ?l ?s] => specialize (F ltac:(
    intros [[[d0 p0] i0] e0] [pos [def tmp]] H; simpl in H |- *;
    destruct def as [dd|]; [destruct (nth_error block dd) as [di|]; [destruct (is_assign di)|]|];
    simpl; auto; apply nins_sorted; auto) l s M) end.
  destruct (fold_left _ _ _) as [[[d1 p1] i1] e1]. split; [apply nins_sorted; auto|exact F].
Qed.

Lemma phaseB_use_sorted block tmp st up : prep_sorted st -> prep_sorted (phaseB_use block tmp st up).
Proof.
  destruct up as [u pos]. intros [G M]. unfold phaseB_use.
  destruct (nth_error block u) as [ui|]; [|split; auto].
  destruct (match sources ui with [] => true | _ => pos =? length (sources ui) - 1 end); [split; auto|].
  destruct (nget u (p_graph st)) as [defs|]; [|split; auto].
  destruct (nth pos defs None) as [d|]; [|split; auto].
  destruct (length block <=? d).
  - destruct (nget d (p_map st)) as [[[? ?] ?]|]; split; simpl; auto. apply nins_sorted; auto.
  - split; simpl; apply nins_sorted; auto.
Qed.

Lemma synthesize_prepares_sorted block : prep_sorted (fst (synthesize_prepares block)).
Proof.
  unfold synthesize_prepares. cbn [fst].
  apply (fold_left_inv prep_sorted).
  - intros st [[tmp d] ups] H. unfold phaseB_group.
    destruct (1 <? length ups); auto.
    apply (fold_left_inv prep_sorted); auto. intros; apply phaseB_use_sorted; auto.
  - apply (fold_left_inv prep_sorted); [intros; apply phaseA_instr_sorted; auto|].
    split; [apply walk_graph_sorted|constructor].
Qed.

Lemma final_graph_sorted block :
  keys_sorted Nat.compare (snd (fst (ordered_edge_data_dependence_graph block))).
Proof.
  unfold ordered_edge_data_dependence_graph. cbn [fst snd].
  apply (fold_left_inv (keys_sorted Nat.compare)); [|apply synthesize_prepares_sorted].
  intros g pd H. unfold omap_entry_update. apply nins_sorted; auto.
Qed.

(** ** Pre-closure dependence edges *)

Lemma pre_closure_edges_sound f block a b :
  let c := block_constraints f block in
  has_edge a b (bc_edges c) = true ->
  a < b \/ length block <= a \/ (a = b /\ ~ NoDup (sources (nth b (bc_block c) (Nop 0)))).
Proof.
  intros c H. unfold c, block_constraints in H |- *.
  pose proof (final_graph_bound block) as GB. pose proof (final_graph_sorted block) as GS.
  destruct (ordered_edge_data_dependence_graph block) as [[ext g] pum]. cbn [fst snd] in GB, GS.
  cbn [bc_edges bc_block] in *. unfold dependence_edges in H.
  unfold add_relatively_non_reorderable_dependencies in H.
  destruct (fold_left _ (enumerate ext) _) as [prev e1] eqn:F.
  apply nr_chain_fold in F as [_ E]. cbn [snd] in H. apply E in H as [H|[[Hab _] _]]; [|left; lia].
  apply ref_deps_sound in H as [H|[Hab [_ [_ Hs]]]].
  - apply true_deps_fold in H as [H|[ds [H1 H2]]].
    + apply false_deps_sound in H as [H|[[Hab _] _]]; [discriminate|left; lia].
    + destruct (GB b ds a (nat_sorted_In_nget _ _ _ GS H1) H2); [left|right; left]; lia.
  - destruct (Nat.eq_dec a b) as [->|Hne]; [right; right; split; auto|left; lia].
Qed.

(** ** Remapping: instructions and annotations *)

Lemma nget_omap_remove_other {V} x k (m : NatMap V) :
  x <> k -> nget x (omap_remove Nat.compare k m) = nget x m.
Proof.
  intro Hne. unfold nget. induction m as [|[k' v'] m IH]; simpl; auto.
  destruct (Nat.compare k k') eqn:C; simpl.
  - apply Nat.compare_eq_iff in C; subst.
    destruct (Nat.compare x k') eqn:C'; auto. apply Nat.compare_eq_iff in C'; congruence.
  - destruct (Nat.compare x k'); auto.
  - destruct (Nat.compare x k'); auto.
Qed.

Lemma nth_map_lt {A B} (g : A -> B) (l : list A) i d d0 :
  i < length l -> nth i (map g l) d = g (nth i l d0).
Proof.
  revert i; induction l as [|x l IH]; intros [|i] H; simpl in *; try lia; auto.
  apply IH; lia.
Qed.

Section RunFacts.
Variable f : TempIndex -> bool.
Variable block : list Bytecode.
Variable order : list CodeOffset.
Hypothesis Hord : Permutation order (seq 0 (length (bc_block (block_constraints f block)))).
Let r := run_with (block_constraints f block) order.
Let N := length (br_block r).
Let out := rb_block (reordered_of_run r).

Lemma run_order_perm : Permutation (br_order r) (seq 0 N).
Proof. exact Hord. Qed.

Lemma run_remap_lt o : o < N -> nth o (br_remap r) 0 < N.
Proof. intro H. apply (remap_order_inv N (br_order r) run_order_perm o H). Qed.

Lemma run_remap_inj x y : x < N -> y < N -> nth x (br_remap r) 0 = nth y (br_remap r) 0 -> x = y.
Proof.
  intros Hx Hy E.
  rewrite <- (proj2 (remap_order_inv N (br_order r) run_order_perm x Hx)),
          <- (proj2 (remap_order_inv N (br_order r) run_order_perm y Hy)).
  change (br_remap r) with (index_remapping (br_order r)) in E. rewrite E. auto.
Qed.

Lemma run_out_length : length out = N.
Proof.
  unfold out, reordered_of_run. cbn [rb_block]. rewrite length_map.
  apply (order_length N (br_order r) run_order_perm).
Qed.

Lemma run_placement o : o < N ->
  nth (nth o (br_remap r) 0) out (Nop 0) = nth o (br_block r) (Nop 0).
Proof.
  intro Ho. destruct (remap_order_inv N (br_order r) run_order_perm o Ho) as [Hl He].
  change (index_remapping (br_order r)) with (br_remap r) in Hl, He.
  unfold out, reordered_of_run. cbn [rb_block].
  rewrite nth_map_lt with (d0 := 0)
    by (rewrite (order_length N (br_order r) run_order_perm); auto).
  rewrite He. reflexivity.
Qed.
End RunFacts.

Lemma annotation_fold_other (remap : list CodeOffset) :
  forall (l : list (CodeOffset * list (option CodeOffset))) ord deps x,
  (forall od, In od l -> nth (fst od) remap 0 <> x) ->
  nget x (fst (fold_left (fun acc od =>
           let '(ordering, deps) := acc in
           let '(offset, dfs) := od in
           let d := match nget offset deps with Some s => s | None => [] end in
           (nins (nth offset remap 0) (mkOrderInfo d dfs) ordering,
            omap_remove Nat.compare offset deps)) l (ord, deps)))
  = nget x ord.
Proof.
  induction l as [|[o dfs] l IH]; intros ord deps x Hx; simpl; auto.
  rewrite IH by (intros; apply Hx; simpl; auto).
  rewrite nget_nins. destruct (Nat.eqb_spec x (nth o remap 0)); auto.
  exfalso. apply (Hx (o, dfs)); simpl; auto.
Qed.

Lemma annotation_fold_get (remap : list CodeOffset) :
  forall (l : list (CodeOffset * list (option CodeOffset))) ord deps o dfs,
  NoDup (map fst l) ->
  (forall x y, In x (map fst l) -> In y (map fst l) -> nth x remap 0 = nth y remap 0 -> x = y) ->
  In (o, dfs) l ->
  nget (nth o remap 0) (fst (fold_left (fun acc od =>
           let '(ordering, deps) := acc in
           let '(offset, dfs) := od in
           let d := match nget offset deps with Some s => s | None => [] end in
           (nins (nth offset remap 0) (mkOrderInfo d dfs) ordering,
            omap_remove Nat.compare offset deps)) l (ord, deps)))
  = Some (mkOrderInfo (match nget o deps with Some s => s | None => [] end) dfs).
Proof.
  induction l as [|[o' dfs'] l IH]; intros ord deps o dfs ND Inj Hin; simpl in *; [destruct Hin|].
  inversion ND as [|? ? Ho ND']; subst.
  destruct Hin as [E|Hin].
  - inversion E; subst o' dfs'. rewrite annotation_fold_other.
    + rewrite nget_nins, Nat.eqb_refl. reflexivity.
    + intros [o2 d2] H2 E2. simpl in E2. apply Ho.
      assert (o2 = o) by (apply Inj; auto; right; apply (in_map fst _ _ H2)).
      subst. apply (in_map fst _ _ H2).
  - assert (Hne : o <> o') by (intro; subst; apply Ho, (in_map fst _ _ Hin)).
    rewrite (IH _ _ o dfs ND'); [rewrite nget_omap_remove_other; auto| |auto].
    intros x y Hx Hy; apply Inj; auto.
Qed.

Lemma pum_fold_other (remap : list CodeOffset) :
  forall (l : PrepareUseMap) m x,
  (forall kv, In kv l -> nth (fst kv) remap 0 <> x) ->
  nget x (fold_left (fun m kv =>
      let '(k, (u, pos, b)) := kv in
      nins (nth k remap 0) (nth u remap 0, pos, b) m) l m) = nget x m.
Proof.
  induction l as [|[k [[u pos] b]] l IH]; intros m x Hx; simpl; auto.
  rewrite IH by (intros; apply Hx; simpl; auto).
  rewrite nget_nins. destruct (Nat.eqb_spec x (nth k remap 0)); auto.
  exfalso. apply (Hx (k, (u, pos, b))); simpl; auto.
Qed.

Lemma pum_fold_get (remap : list CodeOffset) :
  forall (l : PrepareUseMap) m p u pos b,
  NoDup (map fst l) ->
  (forall x y, In x (map fst l) -> In y (map fst l) -> nth x remap 0 = nth y remap 0 -> x = y) ->
  In (p, (u, pos, b)) l ->
  nget (nth p remap 0) (fold_left (fun m kv =>
      let '(k, (u, pos, b)) := kv in
      nins (nth k remap 0) (nth u remap 0, pos, b) m) l m) = Some (nth u remap 0, pos, b).
Proof.
  induction l as [|[k [[u' pos'] b']] l IH]; intros m p u pos b ND Inj Hin; simpl in *; [destruct Hin|].
  inversion ND as [|? ? Hk ND']; subst.
  destruct Hin as [E|Hin].
  - inversion E; subst k u' pos' b'. rewrite pum_fold_other.
    + rewrite nget_nins, Nat.eqb_refl. reflexivity.
    + intros [k2 v2] H2 E2. simpl in E2. apply Hk.
      assert (k2 = p) by (apply Inj; auto; right; apply (in_map fst _ _ H2)).
      subst. apply (in_map fst _ _ H2).
  - apply IH; auto; intros x y Hx Hy; apply Inj; auto.
Qed.

Lemma pum_fold_In (remap : list CodeOffset) :
  forall (l : PrepareUseMap) m k v,
  In (k, v) (fold_left (fun m kv =>
      let '(k, (u, pos, b)) := kv in
      nins (nth k remap 0) (nth u remap 0, pos, b) m) l m) ->
  In (k, v) m \/ exists p u pos b, In (p, (u, pos, b)) l /\ k = nth p remap 0
                                   /\ v = (nth u remap 0, pos, b).
Proof.
  induction l as [|[p [[u pos] b]] l IH]; intros m k v H; simpl in H; auto.
  apply IH in H as [H|[p' [u' [pos' [b' [H1 [H2 H3]]]]]]].
  - apply In_nins in H as [[-> ->]|H]; auto. right. exists p, u, pos, b. simpl; auto.
  - right. exists p', u', pos', b'. simpl; auto.
Qed.

Lemma run_annotation_entry f block order o :
  Permutation order (seq 0 (length (bc_block (block_constraints f block)))) ->
  let r := run_with (block_constraints f block) order in
  o < length (br_block r) ->
  nget (nth o (br_remap r) 0) (rb_ordering (reordered_of_run r))
  = Some (mkOrderInfo (match nget o (dependencies (br_constraints r)) with Some s => s | None => [] end)
                      (nth o (dfs_numberings (br_constraints r)) [])).
Proof.
  intros P r Ho. pose proof (block_constraints_numberings f block) as NL.
  change (length (dfs_numberings (br_constraints r)) = length (br_block r)) in NL.
  unfold reordered_of_run, remap_and_convert_to_annotation. cbn [rb_ordering].
  assert (K : forall x, In x (map fst (enumerate (dfs_numberings (br_constraints r))))
                        -> x < length (br_block r))
    by (intros x Hx; unfold enumerate in Hx; rewrite enumerate_from_fst, in_seq in Hx; lia).
  apply annotation_fold_get.
  - unfold enumerate. rewrite enumerate_from_fst. apply seq_NoDup.
  - intros x y Hx Hy. apply (run_remap_inj f block order P); auto.
  - apply In_enumerate_from. split; [lia|]. rewrite Nat.sub_0_r.
    apply nth_error_nth'. lia.
Qed.

Lemma run_touch_use_In f block order k u pos m :
  Permutation order (seq 0 (length (bc_block (block_constraints f block)))) ->
  let r := run_with (block_constraints f block) order in
  let out := rb_block (reordered_of_run r) in
  In (k, (u, pos, m)) (rb_touch_use (reordered_of_run r)) ->
  exists p u0, nget p (br_prepare_use r) = Some (u0, pos, m)
    /\ k = nth p (br_remap r) 0 /\ u = nth u0 (br_remap r) 0
    /\ length block <= p < length out /\ u0 < length block
    /\ k < length out /\ u < length out
    /\ nth u out (Nop 0) = nth u0 block (Nop 0)
    /\ S pos < length (sources (nth u out (Nop 0)))
    /\ nth k out (Nop 0) = mk_prepare (get_attr_id (nth u out (Nop 0)))
                                      (nth pos (sources (nth u out (Nop 0))) 0).
Proof.
  intros P r out H. unfold out in *. unfold r in *. clear r out.
  assert (H' : In (k, (u, pos, m)) (remap_prepare_use_map (br_remap (run_with (block_constraints f block) order))
                                       (br_prepare_use (run_with (block_constraints f block) order))))
    by exact H. clear H. unfold remap_prepare_use_map in H'.
  apply (pum_fold_In (br_remap (run_with (block_constraints f block) order)) (br_prepare_use (run_with (block_constraints f block) order)) [])
    in H' as [[]|[p [u0 [pos' [b [Hin [Ek Ev]]]]]]].
  assert (Eu : u = nth u0 (br_remap (run_with (block_constraints f block) order)) 0 /\ pos = pos' /\ m = b)
    by (injection Ev; auto).
  clear Ev. destruct Eu as [Eu [Ep Em]]. subst pos' b u.
  pose proof (synthesize_prepares_sorted block) as [_ SP].
  assert (G : nget p (br_prepare_use (run_with (block_constraints f block) order)) = Some (u0, pos, m)) by (apply nat_sorted_In_nget; auto).
  destruct (synthesize_prepares_inv block) as [_ [_ [_ [J4 _]]]].
  destruct (J4 _ _ _ _ G) as [[Hu Hn] [_ [_ [[Hp1 Hp2] [E _]]]]].
  pose proof (run_out_length f block order P) as OL.
  assert (BL : br_block (run_with (block_constraints f block) order) = block ++ p_instrs (fst (synthesize_prepares block))) by reflexivity.
  assert (NB : length (br_block (run_with (block_constraints f block) order)) = length block + length (p_instrs (fst (synthesize_prepares block))))
    by (rewrite BL, length_app; auto).
  assert (PU : nth (nth u0 (br_remap (run_with (block_constraints f block) order)) 0) (rb_block (reordered_of_run (run_with (block_constraints f block) order))) (Nop 0)
              = nth u0 block (Nop 0)).
  { rewrite (run_placement f block order P) by lia. rewrite BL, app_nth1; auto. }
  exists p, u0. subst k.
  split; [exact G|split; [reflexivity|split; [reflexivity|]]].
  split; [rewrite OL, NB; lia|split; [exact Hu|]].
  split; [rewrite OL; apply (run_remap_lt f block order P); lia|].
  split; [rewrite OL; apply (run_remap_lt f block order P); lia|].
  split; [exact PU|]. rewrite PU.
  split; [exact Hn|].
  rewrite (run_placement f block order P) by lia. rewrite BL, app_nth2 by lia.
  apply nth_error_nth. exact E.
Qed.

Lemma run_touch_use_complete f block order p :
  Permutation order (seq 0 (length (bc_block (block_constraints f block)))) ->
  let r := run_with (block_constraints f block) order in
  length block <= p < length (br_block r) ->
  exists u pos m, nget (nth p (br_remap r) 0) (rb_touch_use (reordered_of_run r))
                  = Some (nth u (br_remap r) 0, pos, m).
Proof.
  intros P r Hp. unfold r in *. clear r.
  destruct (synthesize_prepares_inv block) as [_ [_ [_ [J4 J5]]]].
  assert (BL : length (br_block (run_with (block_constraints f block) order))
               = length block + length (p_instrs (fst (synthesize_prepares block))))
    by (change (br_block (run_with (block_constraints f block) order)) with (block ++ p_instrs (fst (synthesize_prepares block)));
        apply length_app).
  destruct (J5 p ltac:(lia)) as [[[u pos] m] G].
  exists u, pos, m.
  change (rb_touch_use (reordered_of_run (run_with (block_constraints f block) order)))
    with (remap_prepare_use_map (br_remap (run_with (block_constraints f block) order)) (br_prepare_use (run_with (block_constraints f block) order))).
  pose proof (synthesize_prepares_sorted block) as [_ SP].
  apply pum_fold_get.
  - apply keys_sorted_NoDup in SP; [exact SP|..]; first [apply lawful_nat|apply nat_compare_eq_iff|apply nat_compare_opp|apply nat_compare_trans|idtac].
  - intros x y Hx Hy. apply (run_remap_inj f block order P).
    + apply in_map_iff in Hx as [[x' [[u1 pos1] m1]] [Ex Hx]]. cbn [fst] in Ex. subst x'.
      apply nat_sorted_In_nget in Hx; [|exact SP].
      destruct (J4 _ _ _ _ Hx) as [_ [_ [_ [[_ X] _]]]]. lia.
    + apply in_map_iff in Hy as [[y' [[u1 pos1] m1]] [Ey Hy]]. cbn [fst] in Ey. subst y'.
      apply nat_sorted_In_nget in Hy; [|exact SP].
      destruct (J4 _ _ _ _ Hy) as [_ [_ [_ [[_ X] _]]]]. lia.
  - apply nget_In. exact G.
Qed.

(** ** The [Prepare]-use annotation of a function *)

(** The entry [k -> (u, pos, _)] of a [Prepare]-use annotation of [code]
    points at a [Prepare] of the temporary read by [u] at the non-last
    source [pos], with [u]'s attribute. *)
Definition touch_ok (code : list Bytecode) (k u pos : nat) : Prop :=
  k < length code /\ u < length code
  /\ S pos < length (sources (nth u code (Nop 0)))
  /\ nth k code (Nop 0) = mk_prepare (get_attr_id (nth u code (Nop 0)))
                                     (nth pos (sources (nth u code (Nop 0))) 0).

Lemma touch_ok_app_l code blk k u pos : touch_ok code k u pos -> touch_ok (code ++ blk) k u pos.
Proof.
  intros [Hk [Hu [Hp E]]]. unfold touch_ok.
  rewrite length_app, !app_nth1 by lia. repeat split; auto; lia.
Qed.

Lemma touch_ok_app_r code blk k u pos :
  touch_ok blk k u pos -> touch_ok (code ++ blk) (length code + k) (length code + u) pos.
Proof.
  intros [Hk [Hu [Hp E]]]. unfold touch_ok.
  rewrite length_app, !app_nth2 by lia. rewrite !Nat.add_sub_swap, Nat.sub_diag by lia.
  cbn [Nat.add]. repeat split; auto; lia.
Qed.

Lemma optimize_block_touch_ok ls f code lower upper rb k u pos m :
  optimize_block_for_stack_machine ls f code lower upper = Some rb ->
  In (k, (u, pos, m)) (rb_touch_use rb) -> touch_ok (rb_block rb) k u pos.
Proof.
  unfold optimize_block_for_stack_machine.
  destruct (skip_block (slice code lower upper)); [intro E; injection E as <-; intros []|].
  destruct (run_block ls f (slice code lower upper)) as [r|] eqn:Hr; [|discriminate].
  intro E. injection E as <-.
  destruct (run_block_Some _ _ _ _ Hr) as [order [-> P]].
  intro H. destruct (run_touch_use_In f (slice code lower upper) order k u pos m P H)
    as [p [u0 [_ [_ [_ [_ [_ [Hk [Hu [_ [Hp E]]]]]]]]]]].
  unfold touch_ok. auto.
Qed.

Lemma concat_touch_use_In (L : nat) :
  forall (l : PrepareUseMap) tu k v,
  In (k, v) (fold_left (fun m kv => let '(t, (u, p, b)) := kv in nins (L + t) (L + u, p, b) m) l tu) ->
  In (k, v) tu \/ exists t u p b, In (t, (u, p, b)) l /\ k = L + t /\ v = (L + u, p, b).
Proof.
  induction l as [|[t [[u p] b]] l IH]; intros tu k v H; simpl in H; auto.
  apply IH in H as [H|[t' [u' [p' [b' [H1 [H2 H3]]]]]]].
  - apply In_nins in H as [[-> ->]|H]; auto. right. exists t, u, p, b. simpl; auto.
  - right. exists t', u', p', b'. simpl; auto.
Qed.

Lemma concat_block_touch_ok acc rb :
  (forall k u pos m, In (k, (u, pos, m)) (snd acc) -> touch_ok (fst (fst acc)) k u pos) ->
  (forall k u pos m, In (k, (u, pos, m)) (rb_touch_use rb) -> touch_ok (rb_block rb) k u pos) ->
  forall k u pos m, In (k, (u, pos, m)) (snd (concat_block acc rb)) ->
                    touch_ok (fst (fst (concat_block acc rb))) k u pos.
Proof.
  destruct acc as [[c o] t]. cbn [fst snd]. intros Ht Hb k u pos m H.
  unfold concat_block in *. cbn [fst snd] in *.
  apply concat_touch_use_In in H as [H|[t0 [u0 [p0 [b0 [H1 [-> E]]]]]]].
  - apply touch_ok_app_l, (Ht _ _ _ _ H).
  - injection E as -> -> ->. apply touch_ok_app_r, (Hb _ _ _ _ H1).
Qed.

Lemma concat_fold_None ls target l : fold_left (concat_step ls target) l None = None.
Proof. induction l as [|r l IH]; simpl; auto. Qed.

(** An invariant of the accumulator kept by every block. *)
Lemma concat_fold_inv (Inv : list Bytecode * OrderingAnnotation * PrepareUseAnnotation -> Prop)
    ls target :
  (forall acc r rb, Inv acc ->
     optimize_block_for_stack_machine ls (ft_local_is_mut_ref target) (ft_code target) (fst r) (snd r)
       = Some rb -> Inv (concat_block acc rb)) ->
  forall l acc acc', Inv acc -> fold_left (concat_step ls target) l (Some acc) = Some acc' -> Inv acc'.
Proof.
  intros Step l. induction l as [|r l IH]; intros acc acc' H E; cbn [fold_left] in E.
  - injection E as <-. exact H.
  - assert (S : concat_step ls target (Some acc) r
                 = match optimize_block_for_stack_machine ls (ft_local_is_mut_ref target) (ft_code target)
                           (fst r) (snd r) with
                   | Some rb => Some (concat_block acc rb)
                   | None => None
                   end) by reflexivity.
    rewrite S in E. clear S.
    destruct (optimize_block_for_stack_machine _ _ _ _ _) as [rb|] eqn:Ho.
    + apply (IH (concat_block acc rb)); auto. apply (Step acc r rb); auto.
    + rewrite concat_fold_None in E. discriminate.
Qed.

Lemma compute_reordered_Some ls target ranges rf :
  compute_reordered_instructions ls target ranges = Some (Some rf) ->
  existsb is_spec_only (ft_code target) = false
  /\ fold_left (concat_step ls target) (sort_by_key fst ranges) (Some ([], [], []))
     = Some (rf_code rf, rf_ordering rf, rf_touch_use rf).
Proof.
  unfold compute_reordered_instructions.
  destruct (existsb is_spec_only (ft_code target)); [discriminate|].
  destruct (ft_has_live_vars target); [|discriminate]. cbn [negb].
  destruct (fold_left _ _ _) as [[[c o] t]|]; [|discriminate].
  intro E. injection E as <-. auto.
Qed.

Lemma function_touch_use_ok ls target ranges rf :
  compute_reordered_instructions ls target ranges = Some (Some rf) ->
  forall k u pos m, In (k, (u, pos, m)) (rf_touch_use rf) -> touch_ok (rf_code rf) k u pos.
Proof.
  intro E. apply compute_reordered_Some in E as [_ E].
  refine (concat_fold_inv
            (fun acc => forall k u pos m, In (k, (u, pos, m)) (snd acc) -> touch_ok (fst (fst acc)) k u pos)
            ls target _ _ _ _ _ E).
  - intros acc r rb Hacc Ho. apply concat_block_touch_ok; [exact Hacc|].
    intros k u pos m. apply (optimize_block_touch_ok _ _ _ _ _ _ _ _ _ _ Ho).
  - intros k u pos m [].
Qed.

(** ** Skipped blocks and functions *)

Lemma optimize_skipped ls f code lower upper :
  skip_block (slice code lower upper) = true ->
  optimize_block_for_stack_machine ls f code lower upper
  = Some (mkReorderedBlock (slice code lower upper) [] []).
Proof. intro H. unfold optimize_block_for_stack_machine. rewrite H. reflexivity. Qed.

Lemma concat_ordering_In (L : nat) :
  forall (l : OrderingAnnotation) o k v,
  In (k, v) (fold_left (fun m oi => nins (L + fst oi) (snd oi) m) l o) ->
  In (k, v) o \/ exists x, In (x, v) l /\ k = L + x.
Proof.
  induction l as [|[x w] l IH]; intros o k v H; simpl in H; auto.
  apply IH in H as [H|[x' [H1 H2]]].
  - apply In_nins in H as [[-> ->]|H]; auto. right. exists x. simpl; auto.
  - right. exists x'. simpl; auto.
Qed.

(** Keys of the annotations of an accumulator lie below the length of its code. *)
Definition keys_below (acc : list Bytecode * OrderingAnnotation * PrepareUseAnnotation) : Prop :=
  (forall k v, In (k, v) (snd (fst acc)) -> k < length (fst (fst acc)))
  /\ (forall k v, In (k, v) (snd acc) -> k < length (fst (fst acc))).

Lemma optimize_keys_below ls f code lower upper rb :
  optimize_block_for_stack_machine ls f code lower upper = Some rb ->
  keys_below (rb_block rb, rb_ordering rb, rb_touch_use rb).
Proof.
  unfold optimize_block_for_stack_machine.
  destruct (skip_block _).
  - intro E. injection E as <-. split; intros k v [].
  - destruct (run_block _ _ _) as [r|] eqn:Er; [|discriminate].
    intro E. injection E as <-.
    destruct (run_block_Some _ _ _ _ Er) as [order [-> P]]. unfold keys_below. cbn [fst snd]. split.
    + intros k v H. pose proof (run_out_length f _ order P) as OL. cbn [br_block run_with] in OL.
      apply (in_map fst) in H. cbn [fst] in H.
      apply (Permutation_in _ (run_annotation_keys f _ order P)), in_seq in H. lia.
    + intros k [[u pos] m] H.
      destruct (run_touch_use_In f _ order k u pos m P H) as [p [u0 [_ [_ [_ [_ [_ [Hk _]]]]]]]].
      exact Hk.
Qed.

Lemma concat_block_keys_below acc rb :
  keys_below acc -> keys_below (rb_block rb, rb_ordering rb, rb_touch_use rb) ->
  keys_below (concat_block acc rb).
Proof.
  destruct acc as [[c o] t]. intros [Ho Ht] [Bo Bt]. cbn [fst snd] in *.
  unfold concat_block, keys_below. cbn [fst snd]. rewrite length_app. split.
  - intros k v H. apply concat_ordering_In in H as [H|[x [H ->]]].
    + specialize (Ho _ _ H). lia.
    + specialize (Bo _ _ H). lia.
  - intros k v H. apply concat_touch_use_In in H as [H|[t0 [u0 [p0 [b0 [H [-> _]]]]]]].
    + specialize (Ht _ _ H). lia.
    + specialize (Bt _ _ H). lia.
Qed.

(** What the later blocks add: code after the accumulated code, and keys at
    or beyond its length. *)
Definition grows_from (acc acc' : list Bytecode * OrderingAnnotation * PrepareUseAnnotation) : Prop :=
  (exists c2, fst (fst acc') = fst (fst acc) ++ c2)
  /\ (forall k v, In (k, v) (snd (fst acc')) -> In (k, v) (snd (fst acc)) \/ length (fst (fst acc)) <= k)
  /\ (forall k v, In (k, v) (snd acc') -> In (k, v) (snd acc) \/ length (fst (fst acc)) <= k).

Lemma concat_fold_grows ls target :
  forall l acc acc', fold_left (concat_step ls target) l (Some acc) = Some acc' -> grows_from acc acc'.
Proof.
  induction l as [|r l IH]; intros acc acc' E; cbn [fold_left] in E.
  - injection E as <-. split; [exists []; rewrite app_nil_r; auto|split; auto].
  - assert (S : concat_step ls target (Some acc) r
                 = match optimize_block_for_stack_machine ls (ft_local_is_mut_ref target) (ft_code target)
                           (fst r) (snd r) with
                   | Some rb => Some (concat_block acc rb)
                   | None => None
                   end) by reflexivity.
    rewrite S in E. clear S.
    destruct (optimize_block_for_stack_machine _ _ _ _ _) as [rb|]; [|rewrite concat_fold_None in E; discriminate].
    destruct (IH _ _ E) as [[c2 C] [O T]]. clear IH E.
    destruct acc as [[c o] t]. unfold concat_block in *. cbn [fst snd] in *.
    rewrite length_app in O, T. unfold grows_from. cbn [fst snd]. split; [|split].
    + exists (rb_block rb ++ c2). rewrite C, app_assoc. auto.
    + intros k v H. apply O in H as [H|H]; [|right; lia].
      apply concat_ordering_In in H as [H|[x [_ ->]]]; [auto|right; lia].
    + intros k v H. apply T in H as [H|H]; [|right; lia].
      apply concat_touch_use_In in H as [H|[t0 [u0 [p0 [b0 [_ [-> _]]]]]]]; [auto|right; lia].
Qed.

Lemma concat_fold_Forall2 ls target :
  forall l rbs, Forall2 (fun r rb => optimize_block_for_stack_machine ls (ft_local_is_mut_ref target)
                                       (ft_code target) (fst r) (snd r) = Some rb) l rbs ->
  forall acc, exists acc', fold_left (concat_step ls target) l (Some acc) = Some acc'
    /\ fst (fst acc') = fst (fst acc) ++ concat (map rb_block rbs).
Proof.
  intros l rbs F. induction F as [|r rb l rbs Ho F IH]; intro acc.
  - exists acc. split; [reflexivity|]. rewrite app_nil_r. reflexivity.
  - cbn [fold_left].
    assert (S : concat_step ls target (Some acc) r = Some (concat_block acc rb))
      by (unfold concat_step; rewrite Ho; reflexivity).
    rewrite S. destruct (IH (concat_block acc rb)) as [acc' [E C]].
    exists acc'. split; [exact E|]. rewrite C.
    destruct acc as [[c o] t]. cbn [map concat]. simpl. rewrite app_assoc. reflexivity.
Qed.

(** [sort_by_key] leaves the ranges in ascending order of their keys. *)
Lemma Sorted_rev_app {A} (R : A -> A -> Prop) :
  forall l acc,
  Sorted (fun x y => R y x) l -> Sorted R acc ->
  (forall x y, hd_error l = Some x -> hd_error acc = Some y -> R x y) ->
  Sorted R (rev l ++ acc).
Proof.
  induction l as [|a l IH]; intros acc Hl Hacc Hhd; simpl; auto.
  rewrite <- app_assoc. simpl. apply IH.
  - inversion Hl; auto.
  - constructor; auto. destruct acc as [|y acc]; constructor. apply (Hhd a y); auto.
  - intros x y Hx Hy. simpl in Hy. injection Hy as <-.
    destruct l as [|b l]; [discriminate|]. simpl in Hx. injection Hx as <-.
    inversion Hl as [|? ? _ Hr]; subst. inversion Hr; auto.
Qed.

Lemma insert_tail_HdRel {A} (key : A -> nat) x y :
  forall t, key x <= key y -> HdRel (fun a b => key b <= key a) y t ->
  HdRel (fun a b => key b <= key a) y (insert_tail (fun a b => key a <? key b) x t).
Proof.
  intros [|z t] Hxy Ht; simpl; [constructor; auto|].
  destruct (key x <? key z); constructor; auto. inversion Ht; auto.
Qed.

Lemma insert_tail_sorted {A} (key : A -> nat) x :
  forall acc, Sorted (fun a b => key b <= key a) acc ->
  Sorted (fun a b => key b <= key a) (insert_tail (fun a b => key a <? key b) x acc).
Proof.
  induction acc as [|y t IH]; intro H; simpl; [repeat constructor|].
  destruct (key x <? key y) eqn:L.
  - apply Nat.ltb_lt in L. inversion H as [|? ? Ht Hr]; subst.
    constructor; [apply IH; auto|]. apply insert_tail_HdRel; auto; lia.
  - apply Nat.ltb_ge in L. constructor; [exact H|constructor; exact L].
Qed.

Lemma sort_by_key_sorted {A} (key : A -> nat) v :
  Sorted (fun a b => key a <= key b) (sort_by_key key v).
Proof.
  unfold sort_by_key, insertion_sort_shift_left. rewrite <- (app_nil_r (rev _)).
  apply Sorted_rev_app; [|apply Sorted_nil|intros x y _ Hy; discriminate Hy].
  assert (G : forall acc, Sorted (fun a b => key b <= key a) acc ->
    Sorted (fun a b => key b <= key a) (fold_left (fun acc x => insert_tail (fun a b => key a <? key b) x acc) v acc)).
  { induction v as [|x t IH]; intros acc H; simpl; auto. apply IH, insert_tail_sorted, H. }
  apply G. constructor.
Qed.

(** C5 (amended): a block longer than 128 instructions, or holding a
    specification-only instruction, a [SpecBlock] or a call with an abort
    action, is returned as it is, in its order, with empty ordering and
    [Prepare]-use annotations; in a reordered function its instructions
    appear unchanged and contiguous in the new code, and no ordering or
    [Prepare]-use entry has a key in their range. A function without
    specification-only instructions (and with its live-variable annotation)
    is reordered as soon as the sort of every block returns (always the
    case for blocks of at most 20 instructions): its code is the
    concatenation of the per-block results, the blocks taken in ascending
    order of their lower offsets. A function holding a
    specification-only instruction anywhere is not reordered at all:
    [compute_reordered_instructions] gives up and [process] returns the
    function data unchanged. *)
Theorem skipped_blocks_pass_through :
  (forall ls (local_is_mut_ref : TempIndex -> bool) code lower upper,
     skip_block (slice code lower upper) = true ->
     optimize_block_for_stack_machine ls local_is_mut_ref code lower upper
     = Some (mkReorderedBlock (slice code lower upper) [] []))
  /\ (forall ls target ranges rf pre r post,
        compute_reordered_instructions ls target ranges = Some (Some rf) ->
        sort_by_key fst ranges = pre ++ r :: post ->
        skip_block (slice (ft_code target) (fst r) (snd r)) = true ->
        exists c1 c2,
          rf_code rf = c1 ++ slice (ft_code target) (fst r) (snd r) ++ c2
          /\ forall k, length c1 <= k < length c1 + length (slice (ft_code target) (fst r) (snd r)) ->
               nget k (rf_ordering rf) = None /\ nget k (rf_touch_use rf) = None)
  /\ (forall ls target ranges rbs,
        existsb is_spec_only (ft_code target) = false ->
        ft_has_live_vars target = true ->
        Forall2 (fun r rb => optimize_block_for_stack_machine ls (ft_local_is_mut_ref target)
                               (ft_code target) (fst r) (snd r) = Some rb)
          (sort_by_key fst ranges) rbs ->
        exists rf, compute_reordered_instructions ls target ranges = Some (Some rf)
          /\ rf_code rf = concat (map rb_block rbs))
  /\ (forall ranges : list (CodeOffset * CodeOffset),
        Sorted (fun x y => fst x <= fst y) (sort_by_key fst ranges)
        /\ Permutation (sort_by_key fst ranges) ranges)
  /\ (forall ls local_is_mut_ref ranges data,
        existsb is_spec_only (fd_code data) = true ->
        process ls false local_is_mut_ref ranges data = Some data).
Proof.
  split; [|split; [|split; [|split]]].
  - intros ls f code lower upper H. apply optimize_skipped, H.
  - intros ls target ranges rf pre r post Hc Hs Hsk.
    apply compute_reordered_Some in Hc as [_ E]. rewrite Hs, fold_left_app in E.
    match type of E with context [@fold_left ?T ?U ?F pre ?X] =>
      revert E; destruct (@fold_left T U F pre X) as [acc1|] eqn:E1; intro E end;
      [|discriminate (eq_trans (eq_sym (concat_fold_None ls target (r :: post))) E)].
    assert (K : keys_below acc1).
    { refine (concat_fold_inv keys_below ls target _ pre ([], [], []) acc1 _ E1).
      - intros acc r0 rb Hacc Ho. apply concat_block_keys_below; auto.
        apply (optimize_keys_below _ _ _ _ _ _ Ho).
      - split; intros k v []. }
    cbn [fold_left] in E.
    assert (S : concat_step ls target (Some acc1) r
                = Some (concat_block acc1 (mkReorderedBlock (slice (ft_code target) (fst r) (snd r)) [] [])))
      by (unfold concat_step; rewrite optimize_skipped by exact Hsk; reflexivity).
    rewrite S in E. clear S.
    destruct (concat_fold_grows _ _ _ _ _ E) as [[c2 C] [O T]].
    destruct acc1 as [[c1 o1] t1]. destruct K as [Ko Kt].
    cbn [fst snd concat_block rb_block rb_ordering rb_touch_use fold_left] in *.
    exists c1, c2. split; [rewrite C, app_assoc; reflexivity|].
    intros k Hk. rewrite length_app in O, T.
    split; destruct (nget k _) as [v|] eqn:G; auto; apply nget_In in G; exfalso.
    + apply O in G as [G|G]; [apply Ko in G|]; lia.
    + apply T in G as [G|G]; [apply Kt in G|]; lia.
  - intros ls target ranges rbs Hs Hl F.
    destruct (concat_fold_Forall2 _ _ _ _ F ([], [], [])) as [[[c o] t] [E C]].
    cbn [fst] in C. exists (mkReorderedFunction c o t).
    unfold compute_reordered_instructions. rewrite Hs, Hl. cbn [negb].
    match goal with |- context [@fold_left ?T ?U ?F ?l ?X] =>
      replace (@fold_left T U F l X) with (Some (c, o, t)) by (symmetry; exact E) end.
    split; [reflexivity|exact C].
  - intro ranges. split; [apply sort_by_key_sorted|apply insertion_sort_perm].
  - intros ls f ranges data H. unfold process, compute_reordered_instructions. cbn [ft_code].
    rewrite H. reflexivity.
Qed.

Lemma skipped_blocks_pass_through_witness :
  exists rf, compute_reordered_instructions panicking_sort abort_call_fun [(2, 3); (0, 1)] = Some (Some rf)
    /\ rf_code rf = concat (map rb_block
          [reordered_of_run (run_with (block_constraints (fun _ => false) (slice (ft_code abort_call_fun) 0 1))
                               (small_order (block_constraints (fun _ => false) (slice (ft_code abort_call_fun) 0 1))));
           mkReorderedBlock (slice (ft_code abort_call_fun) 2 3) [] []])
    /\ exists c1 c2,
          rf_code rf = c1 ++ slice (ft_code abort_call_fun) 2 3 ++ c2
          /\ forall k, length c1 <= k < length c1 + length (slice (ft_code abort_call_fun) 2 3) ->
               nget k (rf_ordering rf) = None /\ nget k (rf_touch_use rf) = None.
Proof.
  destruct skipped_blocks_pass_through as [_ [B [C _]]].
  edestruct (C panicking_sort abort_call_fun [(2, 3); (0, 1)]) as [rf [Hc Hcode]];
    [reflexivity|reflexivity|repeat constructor; vm_compute; reflexivity|].
  exists rf. split; [exact Hc|split; [exact Hcode|]].
  apply (B panicking_sort abort_call_fun [(2, 3); (0, 1)] rf [(0, 1)] (2, 3) []);
    [exact Hc|reflexivity|reflexivity].
Defined.

(** ** Extra properties *)

(** X1: [make_transitively_closed n e] keeps every edge of [e]; each of its
    edges is a path of [e] whose intermediate nodes are below [n]; it has an
    edge for every such path between two nodes below [n]; so it is
    transitive on the nodes below [n]. *)
Theorem make_transitively_closed_closure (n : nat) (e : Edges) :
  let c := make_transitively_closed n e in
  (forall a b, has_edge a b e = true -> has_edge a b c = true)
  /\ (forall a b, has_edge a b c = true -> reach (fun x => x < n) e a b)
  /\ (forall a b, a < n -> b < n -> reach (fun x => x < n) e a b -> has_edge a b c = true)
  /\ (forall a k b, a < n -> k < n -> b < n ->
        has_edge a k c = true -> has_edge k b c = true -> has_edge a b c = true).
Proof.
  intro c. pose proof (fw_outer n e n (le_n n)) as F. cbv zeta in F.
  destruct F as [A [B C]]. unfold c, make_transitively_closed.
  split; [exact A|split; [exact B|split; [exact C|]]].
  intros a k b Ha Hk Hb H1 H2. apply C; auto.
  apply reach_via with k; auto.
Qed.

(** X2: [add_relatively_non_reorderable_dependencies] adds exactly the edges
    between consecutive relatively non-reorderable instructions of the
    block: [a -> b] with [a < b], both relatively non-reorderable and none
    in between. *)
Theorem relatively_non_reorderable_chain (block : list Bytecode) (e : Edges) (a b : CodeOffset) :
  has_edge a b (add_relatively_non_reorderable_dependencies block e) = true
  <-> has_edge a b e = true \/ nr_link block a b.
Proof.
  unfold add_relatively_non_reorderable_dependencies.
  match goal with |- context [fold_left ?F (enumerate block) ?I] =>
    destruct (fold_left F (enumerate block) I) as [prev e'] eqn:Fe end.
  apply nr_chain_fold in Fe as [_ E]. apply E.
Qed.

(** X3: [add_true_dependencies] adds exactly the edges [d -> u] of the
    use-def graph: [d] is one of the definitions recorded for a source slot
    of the use [u]. *)
Theorem true_dependencies_of_use_def_graph (g : UseDefGraph) (e : Edges) (a b : CodeOffset) :
  has_edge a b (add_true_dependencies g e) = true
  <-> has_edge a b e = true \/ exists defs, In (b, defs) g /\ In (Some a) defs.
Proof. apply true_deps_fold. Qed.

(** X4: every edge [a -> b] that [add_false_dependencies] adds is forward
    ([a < b]), lies before the first [Prepare] of the block, and is a real
    hazard: [b] writes a temporary that [a] reads or writes. *)
Theorem false_dependencies_sound (block : list Bytecode) (e : Edges) (a b : CodeOffset) :
  has_edge a b (add_false_dependencies block e) = true ->
  has_edge a b e = true \/ false_dep block a b.
Proof. apply false_deps_sound. Qed.

Lemma false_dependencies_sound_witness :
  has_edge 0 1 (add_false_dependencies [Assign 0 2 0 Copy; Assign 1 0 3 Copy] []) = true
  /\ (has_edge 0 1 [] = true \/ false_dep [Assign 0 2 0 Copy; Assign 1 0 3 Copy] 0 1).
Proof.
  assert (H : has_edge 0 1 (add_false_dependencies [Assign 0 2 0 Copy; Assign 1 0 3 Copy] []) = true)
    by (vm_compute; reflexivity).
  split; [exact H|].
  exact (false_dependencies_sound [Assign 0 2 0 Copy; Assign 1 0 3 Copy] [] 0 1 H).
Defined.

(** X5: every edge [a -> b] that [add_ref_arg_dependencies] adds has
    [a <= b], [a] and [b] read a common temporary, one of them is a
    reference-argument instruction ([FreezeRef], or [BorrowLoc] into a
    mutable reference), and a self-edge [a -> a] only comes from an
    instruction reading the same temporary twice. *)
Theorem ref_arg_dependencies_sound (local_is_mut_ref : TempIndex -> bool) (block : list Bytecode)
    (e : Edges) (a b : CodeOffset) :
  has_edge a b (add_ref_arg_dependencies local_is_mut_ref block e) = true ->
  has_edge a b e = true \/ ref_dep local_is_mut_ref block a b.
Proof. apply ref_deps_sound. Qed.

Lemma ref_arg_dependencies_sound_witness :
  has_edge 0 1 (add_ref_arg_dependencies (fun _ => true) add_then_borrow []) = true
  /\ (has_edge 0 1 [] = true \/ ref_dep (fun _ => true) add_then_borrow 0 1).
Proof.
  assert (H : has_edge 0 1 (add_ref_arg_dependencies (fun _ => true) add_then_borrow []) = true)
    by (vm_compute; reflexivity).
  split; [exact H|].
  exact (ref_arg_dependencies_sound (fun _ => true) add_then_borrow [] 0 1 H).
Defined.

(** X6: before the transitive closure, the dependence edges of a block
    point forward, except the edges out of a synthesized [Prepare] (offset
    at least the original block length) and a self-edge of an instruction
    reading the same temporary twice. The edges are computed before the
    sort. *)
Theorem dependence_edges_forward (local_is_mut_ref : TempIndex -> bool) (block : list Bytecode)
    (a b : CodeOffset) :
  let c := block_constraints local_is_mut_ref block in
  has_edge a b (bc_edges c) = true ->
  a < b \/ length block <= a \/ (a = b /\ ~ NoDup (sources (nth b (bc_block c) (Nop 0)))).
Proof. apply pre_closure_edges_sound. Qed.

Lemma dependence_edges_forward_witness :
  has_edge 1 0 (bc_edges (block_constraints (fun _ => false) single_add)) = true
  /\ (1 < 0 \/ length single_add <= 1
      \/ (1 = 0 /\ ~ NoDup (sources (nth 0 (bc_block (block_constraints (fun _ => false) single_add)) (Nop 0))))).
Proof.
  assert (H : has_edge 1 0 (bc_edges (block_constraints (fun _ => false) single_add)) = true)
    by (vm_compute; reflexivity).
  split; [exact H|].
  exact (dependence_edges_forward (fun _ => false) single_add 1 0 H).
Defined.

(** X7: when the sort returns (for every behaviour of the sort on more than
    20 elements that the library allows), the instruction at offset [o] of
    the extended block (original instructions and synthesized [Prepare]s)
    is found in the reordered block at [index_remapping[o]], which is in
    range; distinct offsets go to distinct places. *)
Theorem reordered_block_placement (ls : LargeSort) (local_is_mut_ref : TempIndex -> bool)
    (block : list Bytecode) (r : BlockRun) (o o' : CodeOffset) :
  run_block ls local_is_mut_ref block = Some r ->
  o < length (br_block r) -> o' < length (br_block r) ->
  let out := rb_block (reordered_of_run r) in
  nth o (br_remap r) 0 < length out
  /\ nth (nth o (br_remap r) 0) out (Nop 0) = nth o (br_block r) (Nop 0)
  /\ (nth o (br_remap r) 0 = nth o' (br_remap r) 0 -> o = o').
Proof.
  intros Hr Ho Ho' out. unfold out. clear out.
  destruct (run_block_Some _ _ _ _ Hr) as [order [-> P]].
  rewrite (run_out_length local_is_mut_ref block order P).
  split; [apply (run_remap_lt local_is_mut_ref block order P); exact Ho|split].
  - apply (run_placement local_is_mut_ref block order P). exact Ho.
  - apply (run_remap_inj local_is_mut_ref block order P); assumption.
Qed.

Lemma reordered_block_placement_witness :
  let c := block_constraints (fun _ => false) single_add in
  let r := run_with c (small_order c) in
  run_block panicking_sort (fun _ => false) single_add = Some r
  /\ 1 < length (br_block r) /\ 0 < length (br_block r)
  /\ (let out := rb_block (reordered_of_run r) in
      nth 1 (br_remap r) 0 < length out
      /\ nth (nth 1 (br_remap r) 0) out (Nop 0) = nth 1 (br_block r) (Nop 0)
      /\ (nth 1 (br_remap r) 0 = nth 0 (br_remap r) 0 -> 1 = 0)).
Proof.
  intros c r.
  assert (E : run_block panicking_sort (fun _ => false) single_add = Some r) by (vm_compute; reflexivity).
  split; [exact E|split; [vm_compute; lia|split; [vm_compute; lia|]]].
  apply (reordered_block_placement panicking_sort (fun _ => false) single_add r 1 0 E);
    vm_compute; lia.
Defined.

(** X8: when the sort returns, the ordering annotation holds at the new
    offset [index_remapping[o]] the closed dependencies and the DFS
    numberings of the old offset [o]; the dependencies are left in old
    (un-remapped) offsets. *)
Theorem ordering_annotation_entry (ls : LargeSort) (local_is_mut_ref : TempIndex -> bool)
    (block : list Bytecode) (r : BlockRun) (o : CodeOffset) :
  run_block ls local_is_mut_ref block = Some r ->
  o < length (br_block r) ->
  nget (nth o (br_remap r) 0) (rb_ordering (reordered_of_run r))
  = Some (mkOrderInfo
            (match nget o (dependencies (br_constraints r)) with Some s => s | None => [] end)
            (nth o (dfs_numberings (br_constraints r)) [])).
Proof.
  intros Hr Ho. destruct (run_block_Some _ _ _ _ Hr) as [order [-> P]].
  apply run_annotation_entry; assumption.
Qed.

Lemma ordering_annotation_entry_witness :
  let c := block_constraints (fun _ => false) single_add in
  let r := run_with c (small_order c) in
  run_block panicking_sort (fun _ => false) single_add = Some r
  /\ 1 < length (br_block r)
  /\ nget (nth 1 (br_remap r) 0) (rb_ordering (reordered_of_run r))
     = Some (mkOrderInfo
               (match nget 1 (dependencies (br_constraints r)) with Some s => s | None => [] end)
               (nth 1 (dfs_numberings (br_constraints r)) [])).
Proof.
  intros c r.
  assert (E : run_block panicking_sort (fun _ => false) single_add = Some r) by (vm_compute; reflexivity).
  split; [exact E|split; [vm_compute; lia|]].
  apply (ordering_annotation_entry panicking_sort (fun _ => false) single_add r 1 E).
  vm_compute; lia.
Defined.

(** X9: when the sort returns, an entry [k -> (u, pos, m)] of the
    [Prepare]-use annotation is an entry [p -> (u0, pos, m)] of the
    [prepare_use_map] moved by [index_remapping] ([k] the new offset of the
    synthesized [Prepare] [p], [u] that of the original instruction [u0]);
    in the reordered block, [k] holds a [Prepare] of the temporary that [u]
    reads at its non-last source [pos], with [u]'s attribute. *)
Theorem touch_use_annotation_entry (ls : LargeSort) (local_is_mut_ref : TempIndex -> bool)
    (block : list Bytecode) (r : BlockRun) (k u pos : CodeOffset) (m : bool) :
  run_block ls local_is_mut_ref block = Some r ->
  nget k (rb_touch_use (reordered_of_run r)) = Some (u, pos, m) ->
  let out := rb_block (reordered_of_run r) in
  (exists p u0, nget p (br_prepare_use r) = Some (u0, pos, m)
     /\ k = nth p (br_remap r) 0 /\ u = nth u0 (br_remap r) 0
     /\ length block <= p < length (br_block r) /\ u0 < length block
     /\ nth u out (Nop 0) = nth u0 block (Nop 0))
  /\ touch_ok out k u pos.
Proof.
  intros Hr H out. unfold out. clear out.
  destruct (run_block_Some _ _ _ _ Hr) as [order [-> P]].
  apply nget_In in H.
  destruct (run_touch_use_In local_is_mut_ref block order k u pos m P H)
    as [p [u0 [G [Ek [Eu [Hp [Hu0 [Hk [Hu [PU [Hn E]]]]]]]]]]].
  rewrite (run_out_length local_is_mut_ref block order P) in Hp.
  split; [exists p, u0; repeat split; auto; lia|].
  unfold touch_ok. auto.
Qed.

Lemma touch_use_annotation_entry_witness :
  let c := block_constraints (fun _ => false) single_add in
  let r := run_with c (small_order c) in
  run_block panicking_sort (fun _ => false) single_add = Some r
  /\ nget 0 (rb_touch_use (reordered_of_run r)) = Some (1, 0, false)
  /\ (let out := rb_block (reordered_of_run r) in
      (exists p u0, nget p (br_prepare_use r) = Some (u0, 0, false)
         /\ 0 = nth p (br_remap r) 0 /\ 1 = nth u0 (br_remap r) 0
         /\ length single_add <= p < length (br_block r) /\ u0 < length single_add
         /\ nth 1 out (Nop 0) = nth u0 single_add (Nop 0))
      /\ touch_ok out 0 1 0).
Proof.
  intros c r.
  assert (E : run_block panicking_sort (fun _ => false) single_add = Some r) by (vm_compute; reflexivity).
  assert (H : nget 0 (rb_touch_use (reordered_of_run r)) = Some (1, 0, false))
    by (vm_compute; reflexivity).
  split; [exact E|split; [exact H|]].
  exact (touch_use_annotation_entry panicking_sort (fun _ => false) single_add r 0 1 0 false E H).
Defined.

(** X10: when the sort returns, every synthesized [Prepare] (old offset [p]
    past the original block) has an entry in the [Prepare]-use annotation,
    at its new offset [index_remapping[p]], naming the new offset of its
    use. *)
Theorem touch_use_annotation_complete (ls : LargeSort) (local_is_mut_ref : TempIndex -> bool)
    (block : list Bytecode) (r : BlockRun) (p : CodeOffset) :
  run_block ls local_is_mut_ref block = Some r ->
  length block <= p -> p < length (br_block r) ->
  exists u pos m,
    nget (nth p (br_remap r) 0) (rb_touch_use (reordered_of_run r))
    = Some (nth u (br_remap r) 0, pos, m).
Proof.
  intros Hr H1 H2. destruct (run_block_Some _ _ _ _ Hr) as [order [-> P]].
  apply run_touch_use_complete; [exact P|split; assumption].
Qed.

Lemma touch_use_annotation_complete_witness :
  let c := block_constraints (fun _ => false) single_add in
  let r := run_with c (small_order c) in
  run_block panicking_sort (fun _ => false) single_add = Some r
  /\ length single_add <= 1 /\ 1 < length (br_block r)
  /\ exists u pos m,
       nget (nth 1 (br_remap r) 0) (rb_touch_use (reordered_of_run r))
       = Some (nth u (br_remap r) 0, pos, m).
Proof.
  intros c r.
  assert (E : run_block panicking_sort (fun _ => false) single_add = Some r) by (vm_compute; reflexivity).
  split; [exact E|split; [vm_compute; lia|split; [vm_compute; lia|]]].
  apply (touch_use_annotation_complete panicking_sort (fun _ => false) single_add r 1 E);
    vm_compute; lia.
Defined.

(** X11: in a reordered function (for every behaviour of the sort on more
    than 20 elements that the library allows, when no sort panics), every
    entry [k -> (u, pos, _)] of the [Prepare]-use annotation, after the
    per-block offsets are shifted by the blocks' positions in the new code,
    points at a [Prepare] at [k] of the temporary that the instruction at
    [u] reads at its non-last source [pos], with [u]'s attribute; both
    offsets are in the new code. *)
Theorem function_touch_use_points_to_prepare (ls : LargeSort) (target : FunctionTarget)
    (ranges : list (CodeOffset * CodeOffset)) (rf : ReorderedFunction) (k u pos : CodeOffset)
    (m : bool) :
  compute_reordered_instructions ls target ranges = Some (Some rf) ->
  nget k (rf_touch_use rf) = Some (u, pos, m) ->
  touch_ok (rf_code rf) k u pos.
Proof.
  intros H G. apply (function_touch_use_ok ls target ranges rf H k u pos m), nget_In, G.
Qed.

Lemma function_touch_use_points_to_prepare_witness :
  let c := block_constraints (fun _ => false) single_add in
  let rb := reordered_of_run (run_with c (small_order c)) in
  compute_reordered_instructions panicking_sort (mkFunctionTarget single_add (fun _ => false) true) [(0, 0)]
  = Some (Some (mkReorderedFunction (rb_block rb) (rb_ordering rb) [(0, (1, 0, false))]))
  /\ touch_ok (rb_block rb) 0 1 0.
Proof.
  intros c rb.
  assert (H : compute_reordered_instructions panicking_sort
                (mkFunctionTarget single_add (fun _ => false) true) [(0, 0)]
    = Some (Some (mkReorderedFunction (rb_block rb) (rb_ordering rb) [(0, (1, 0, false))])))
    by (vm_compute; reflexivity).
  split; [exact H|].
  exact (function_touch_use_points_to_prepare panicking_sort _ _ _ 0 1 0 false H eq_refl).
Defined.


(** ** [InstructionReordering::_insert_prepares] (not called by the pass) *)

(** The inner loop over [defs.iter_mut().zip(sources.iter()).take(n)];
    [base] is [block.len()] and [acc] holds [prepare_use_map] and
    [prepare_instrs]. *)
Fixpoint insert_prepares_slots (attr : AttrId) (base : nat) (usage_offset : CodeOffset)
    (defs : list (option CodeOffset)) (srcs : list TempIndex) (n : nat)
    (acc : NatMap CodeOffset * list Bytecode)
    : list (option CodeOffset) * (NatMap CodeOffset * list Bytecode) :=
  match n, defs, srcs with
  | S n', def :: defs', tmp :: srcs' =>
      let '(def', acc') :=
        match def with
        | None =>
            let prepare_offset := base + length (snd acc) in
            (Some prepare_offset,
             (nins prepare_offset usage_offset (fst acc), snd acc ++ [mk_prepare attr tmp]))
        | Some _ => (def, acc)
        end in
      let '(defs'', acc'') := insert_prepares_slots attr base usage_offset defs' srcs' n' acc' in
      (def' :: defs'', acc'')
  | _, _, _ => (defs, acc)
  end.

(** The [match] that selects the instructions that may need a [Prepare]. *)
Definition prepare_candidate (i : Bytecode) : bool :=
  match i with
  | Call _ _ _ srcs _ | Ret _ srcs => 1 <? length srcs
  | _ => false
  end.

Definition insert_prepares_instr (base : nat)
    (st : UseDefGraph * NatMap CodeOffset * list Bytecode) (ui : CodeOffset * Bytecode)
    : UseDefGraph * NatMap CodeOffset * list Bytecode :=
  let '(g, prepare_use_map, prepare_instrs) := st in
  let '(usage_offset, usage_instr) := ui in
  if negb (prepare_candidate usage_instr) then st else
  match nget usage_offset g with
  | None => st
  | Some defs =>
      let without_last_len := match defs with [] => 0 | _ => length defs - 1 end in
      let '(defs', (prepare_use_map', prepare_instrs')) :=
        insert_prepares_slots (get_attr_id usage_instr) base usage_offset defs
          (sources usage_instr) without_last_len (prepare_use_map, prepare_instrs) in
      (nins usage_offset defs' g, prepare_use_map', prepare_instrs')
  end.

(** Returns the extended block, the updated use-def graph and the
    [prepare_use_map] ([Prepare] offset to use offset). *)
Definition insert_prepares (block : list Bytecode) (use_def_graph : UseDefGraph)
    : list Bytecode * UseDefGraph * NatMap CodeOffset :=
  let '(g, prepare_use_map, prepare_instrs) :=
    fold_left (insert_prepares_instr (length block)) (enumerate block) (use_def_graph, [], []) in
  (block ++ prepare_instrs, g, prepare_use_map).

Section InsertSlots.
Variable attr : AttrId.
Variable base : nat.
Variable u : CodeOffset.

Lemma insert_prepares_slots_spec : forall defs srcs n pum instrs defs' pum' instrs',
  insert_prepares_slots attr base u defs srcs n (pum, instrs) = (defs', (pum', instrs')) ->
  (forall p, base + length instrs <= p -> nget p pum = None) ->
  length defs' = length defs
  /\ (exists new, instrs' = instrs ++ new /\ all_prepares new)
  /\ (forall pos, nth pos defs None <> None -> nth pos defs' None = nth pos defs None)
  /\ (forall pos d, nth pos defs' None = Some d ->
        nth pos defs None = Some d
        \/ (nth pos defs None = None /\ pos < n /\ pos < length srcs /\ nget d pum' = Some u
            /\ base + length instrs <= d
            /\ nth_error instrs' (d - base) = Some (mk_prepare attr (nth pos srcs 0))))
  /\ (forall pos, nth pos defs None = None -> pos < n -> pos < length srcs -> pos < length defs ->
        nth pos defs' None <> None)
  /\ (forall p v, nget p pum' = Some v ->
        nget p pum = Some v
        \/ (v = u /\ base + length instrs <= p < base + length instrs'
            /\ exists pos, nth pos defs None = None /\ pos < n /\ pos < length srcs
                           /\ nth pos defs' None = Some p))
  /\ (forall p, base + length instrs <= p < base + length instrs' -> nget p pum' = Some u)
  /\ (forall p, p < base + length instrs -> nget p pum' = nget p pum).
Proof.
  induction defs as [|d defs IH]; intros srcs n pum instrs defs' pum' instrs' H Fr.
  - destruct n, srcs; cbn in H; injection H as <- <- <-.
    all: split; [auto|split; [exists []; rewrite app_nil_r; split; [auto|constructor]|]].
    all: split; [auto|split; [intros pos d' E; left; auto|split; [intros pos _ _ _ L; cbn in L; lia|]]].
    all: split; [intros; left; auto|split; [intros; lia|auto]].
  - destruct n as [|n'].
    { cbn in H; injection H as <- <- <-.
      split; [auto|split; [exists []; rewrite app_nil_r; split; [auto|constructor]|]].
      split; [auto|split; [intros pos d' E; left; auto|split; [intros; lia|]]].
      split; [intros; left; auto|split; [intros; lia|auto]]. }
    destruct srcs as [|t srcs].
    { cbn in H; injection H as <- <- <-.
      split; [auto|split; [exists []; rewrite app_nil_r; split; [auto|constructor]|]].
      split; [auto|split; [intros pos d' E; left; auto|split; [intros pos _ _ L; cbn in L; lia|]]].
      split; [intros; left; auto|split; [intros; lia|auto]]. }
    destruct d as [x|].
    + cbn [insert_prepares_slots] in H.
      destruct (insert_prepares_slots attr base u defs srcs n' (pum, instrs)) as [ds [pm ins]] eqn:R.
      injection H as <- <- <-.
      destruct (IH _ _ _ _ _ _ _ R Fr) as [A1 [A2 [A3 [A4 [A5 [A6 [A7 A8]]]]]]].
      split; [cbn; auto|split; [exact A2|]].
      split; [intros [|pos] Hp; cbn; auto|].
      split; [intros [|pos] d' E; cbn in E |- *; [left; auto|]|].
      { destruct (A4 _ _ E) as [L|[L1 [L2 [L3 L4]]]]; [left; auto|right]. split; [auto|]. split; [lia|]. split; [cbn; lia|]. exact L4. }
      split; [intros [|pos] E; cbn in E |- *; [discriminate|]; intros; apply A5; auto; lia|].
      split; [intros p v E; destruct (A6 _ _ E) as [L|[L1 [L2 [pos [P1 [P2 [P3 P4]]]]]]]; [left; auto|right];
              split; [auto|split; [auto|exists (S pos); cbn; split; [auto|split; [lia|split; [lia|auto]]]]]|].
      split; [exact A7|exact A8].
    + cbn [insert_prepares_slots fst snd] in H.
      set (p0 := base + length instrs) in *.
      destruct (insert_prepares_slots attr base u defs srcs n'
                  (nins p0 u pum, instrs ++ [mk_prepare attr t])) as [ds [pm ins]] eqn:R.
      injection H as <- <- <-.
      assert (Fr' : forall p, base + length (instrs ++ [mk_prepare attr t]) <= p -> nget p (nins p0 u pum) = None).
      { intros p Hp. rewrite length_app in Hp. cbn in Hp. rewrite nget_nins.
        destruct (Nat.eqb_spec p p0); [unfold p0 in *; lia|apply Fr; unfold p0 in *; lia]. }
      destruct (IH _ _ _ _ _ _ _ R Fr') as [A1 [A2 [A3 [A4 [A5 [A6 [A7 A8]]]]]]].
      rewrite length_app in *. cbn [length] in *.
      destruct A2 as [new [En Hn]].
      assert (G0 : nget p0 pm = Some u)
        by (rewrite A8 by (unfold p0; lia); rewrite nget_nins, Nat.eqb_refl; auto).
      assert (Lins : length ins = length instrs + 1 + length new)
        by (rewrite En, !length_app; cbn; lia).
      split; [cbn; auto|].
      split; [exists (mk_prepare attr t :: new); split;
              [rewrite En, <- app_assoc; auto|constructor; [reflexivity|exact Hn]]|].
      split; [intros [|pos] Hp; cbn in Hp |- *; [congruence|apply A3; auto]|].
      split.
      { intros [|pos] d' E; cbn in E |- *.
        - injection E as <-. right. split; [auto|split; [lia|split; [lia|split; [exact G0|split; [unfold p0; lia|]]]]].
          rewrite En. unfold p0. rewrite Nat.add_comm, Nat.add_sub.
          rewrite <- app_assoc, nth_error_app2, Nat.sub_diag by lia. reflexivity.
        - destruct (A4 _ _ E) as [L|[L1 [L2 [L3 [L4 [L5 L6]]]]]]; [left; auto|right].
          split; [auto|split; [lia|split; [lia|split; [auto|split; [unfold p0 in *; lia|auto]]]]]. }
      split; [intros [|pos] E; cbn in E |- *; [discriminate|]; intros; apply A5; auto; lia|].
      split.
      { intros p v E. destruct (A6 _ _ E) as [L|[L1 [L2 [pos [P1 [P2 [P3 P4]]]]]]].
        - rewrite nget_nins in L. destruct (Nat.eqb_spec p p0) as [->|Hne].
          + injection L as <-. right. split; [auto|split; [unfold p0; lia|]].
            exists 0. cbn. split; [auto|split; [lia|split; [lia|auto]]].
          + left. exact L.
        - right. split; [auto|split; [unfold p0 in *; lia|]].
          exists (S pos). cbn. split; [auto|split; [lia|split; [lia|auto]]]. }
      split.
      { intros p Hp. destruct (Nat.eqb_spec p p0) as [->|Hne]; [exact G0|].
        apply A7. unfold p0 in *. lia. }
      intros p Hp. rewrite A8 by (unfold p0 in *; lia). rewrite nget_nins.
      destruct (Nat.eqb_spec p p0); [unfold p0 in *; lia|auto].
Qed.
End InsertSlots.

Lemma fold_enumerate_inv {A St} (P : nat -> St -> Prop) (step : St -> nat * A -> St) (d : A)
    (block : list A) :
  (forall k s, k < length block -> P k s -> P (S k) (step s (k, nth k block d))) ->
  forall s, P 0 s -> P (length block) (fold_left step (enumerate block) s).
Proof.
  intros Hs.
  assert (G : forall l pre s, block = pre ++ l -> P (length pre) s ->
            P (length block) (fold_left step (enumerate_from (length pre) l) s)).
  { induction l as [|x l IH]; intros pre s E Hp; cbn.
    - rewrite E, app_nil_r. exact Hp.
    - replace (S (length pre)) with (length (pre ++ [x])) by (rewrite length_app; cbn; lia).
      apply IH; [rewrite E, <- app_assoc; auto|].
      rewrite length_app. cbn. replace (length pre + 1) with (S (length pre)) by lia.
      replace x with (nth (length pre) block d)
        by (rewrite E, app_nth2, Nat.sub_diag by lia; auto).
      apply Hs; [rewrite E, length_app; cbn; lia|exact Hp]. }
  intros s H0. exact (G block [] s eq_refl H0).
Qed.

Section InsertPrepares.
Variable block : list Bytecode.
Variable g0 : UseDefGraph.

Let B := length block.
Let src_at (v : CodeOffset) := sources (nth v block (Nop 0)).

Definition ip_inv (k : nat) (st : UseDefGraph * NatMap CodeOffset * list Bytecode) : Prop :=
  let '(g, pum, instrs) := st in
  all_prepares instrs
  /\ (forall p v, nget p pum = Some v ->
        B <= p < B + length instrs /\ v < k /\ prepare_candidate (nth v block (Nop 0)) = true
        /\ exists pos defs, nget v g0 = Some defs /\ S pos < length defs /\ pos < length (src_at v)
           /\ nth pos defs None = None /\ slot g v pos = Some p
           /\ nth_error instrs (p - B)
              = Some (mk_prepare (get_attr_id (nth v block (Nop 0))) (nth pos (src_at v) 0)))
  /\ (forall p, B <= p < B + length instrs -> nget p pum <> None)
  /\ (forall v pos d, slot g v pos = Some d -> slot g0 v pos = Some d \/ nget d pum = Some v)
  /\ (forall v pos, slot g0 v pos <> None -> slot g v pos = slot g0 v pos)
  /\ (forall v pos defs, v < k -> prepare_candidate (nth v block (Nop 0)) = true ->
        nget v g0 = Some defs -> S pos < length defs -> pos < length (src_at v) ->
        nth pos defs None = None -> slot g v pos <> None)
  /\ (forall v, k <= v -> nget v g = nget v g0).

Lemma ip_inv_start : ip_inv 0 (g0, [], []).
Proof.
  cbn. split; [constructor|].
  split; [intros p v H; discriminate|].
  split; [intros; lia|].
  split; [intros; left; auto|].
  split; [auto|]. split; [intros; lia|auto].
Qed.

Lemma ip_inv_step k st :
  k < B -> ip_inv k st -> ip_inv (S k) (insert_prepares_instr B st (k, nth k block (Nop 0))).
Proof.
  intros Hk. destruct st as [[g pum] instrs].
  intros [I1 [I2 [I3 [I4 [I5 [I6 I7]]]]]].
  set (x := nth k block (Nop 0)).
  unfold insert_prepares_instr.
  destruct (prepare_candidate x) eqn:Cx; cbn [negb].
  2:{ cbn. split; [exact I1|split; [intros p v H; destruct (I2 p v H) as [? [? ?]]; split; [auto|split; [lia|auto]]|]].
      split; [exact I3|split; [exact I4|split; [exact I5|split; [|intros v Hv; apply I7; lia]]]].
      intros v pos defs Hv. destruct (Nat.eq_dec v k) as [->|Hne]; [fold x; congruence|].
      apply I6. lia. }
  destruct (nget k g) as [defs|] eqn:Gk.
  2:{ cbn. split; [exact I1|split; [intros p v H; destruct (I2 p v H) as [? [? ?]]; split; [auto|split; [lia|auto]]|]].
      split; [exact I3|split; [exact I4|split; [exact I5|split; [|intros v Hv; apply I7; lia]]]].
      intros v pos defs Hv. destruct (Nat.eq_dec v k) as [->|Hne]; [|apply I6; lia].
      intros _ G0. rewrite <- (I7 k (le_n k)), Gk in G0. discriminate. }
  assert (G0k : nget k g0 = Some defs) by (rewrite <- (I7 k (le_n k)); exact Gk).
  set (wl := match defs with [] => 0 | _ => length defs - 1 end).
  destruct (insert_prepares_slots (get_attr_id x) B k defs (sources x) wl (pum, instrs))
    as [defs' [pum' instrs']] eqn:R.
  assert (Fr : forall p, B + length instrs <= p -> nget p pum = None).
  { intros p Hp. destruct (nget p pum) as [v|] eqn:E; auto.
    destruct (I2 _ _ E) as [L _]. lia. }
  destruct (insert_prepares_slots_spec _ _ _ _ _ _ _ _ _ _ _ R Fr)
    as [S1 [[new [En Hn]] [S3 [S4 [S5 [S6 [S7 S8]]]]]]].
  assert (Hwl : forall pos, pos < wl <-> S pos < length defs)
    by (intro pos; unfold wl; destruct defs; cbn; lia).
  assert (Gv : forall v, v <> k -> nget v (nins k defs' g) = nget v g)
    by (intros v Hv; rewrite nget_nins; destruct (Nat.eqb_spec v k); [contradiction|auto]).
  assert (Gkk : nget k (nins k defs' g) = Some defs') by (rewrite nget_nins, Nat.eqb_refl; auto).
  assert (Sv : forall v pos, v <> k -> slot (nins k defs' g) v pos = slot g v pos)
    by (intros v pos Hv; unfold slot; rewrite Gv; auto).
  assert (Sk : forall pos, slot (nins k defs' g) k pos = nth pos defs' None)
    by (intro pos; unfold slot; rewrite Gkk; auto).
  assert (Sk0 : forall pos, slot g0 k pos = nth pos defs None)
    by (intro pos; unfold slot; rewrite G0k; auto).
  cbn. subst instrs'.
  split; [apply Forall_app; split; auto|].
  split.
  { intros p v E. destruct (S6 _ _ E) as [L|[-> [L1 [pos [P1 [P2 [P3 P4]]]]]]].
    - destruct (I2 _ _ L) as [R1 [R2 [R3 [pos [ds [D1 [D2 [D3 [D4 [D5 D6]]]]]]]]]].
      split; [rewrite length_app; lia|split; [lia|split; [auto|]]].
      exists pos, ds. split; [auto|split; [auto|split; [auto|split; [auto|split]]]].
      + rewrite Sv by lia. exact D5.
      + rewrite nth_error_app1 by lia. exact D6.
    - split; [lia|split; [lia|split; [exact Cx|]]].
      exists pos, defs. split; [auto|split; [apply Hwl; auto|split; [auto|split; [auto|split]]]].
      + rewrite Sk. exact P4.
      + destruct (S4 _ _ P4) as [L|[_ [_ [_ [_ [_ L]]]]]]; [congruence|exact L]. }
  split.
  { intros p Hp. destruct (Nat.lt_ge_cases p (B + length instrs)) as [Lt|Ge].
    - rewrite S8 by exact Lt. apply I3. lia.
    - rewrite S7 by (rewrite length_app in *; lia). discriminate. }
  split.
  { intros v pos d E. destruct (Nat.eq_dec v k) as [->|Hne].
    - rewrite Sk in E. destruct (S4 _ _ E) as [L|[_ [_ [_ [L _]]]]]; [left; rewrite Sk0; auto|right; auto].
    - rewrite Sv in E by auto. destruct (I4 _ _ _ E) as [L|L]; [left; auto|right].
      destruct (I2 _ _ L) as [R1 _]. rewrite S8 by lia. exact L. }
  split.
  { intros v pos Hs. destruct (Nat.eq_dec v k) as [->|Hne].
    - rewrite Sk, Sk0. rewrite Sk0 in Hs. apply S3, Hs.
    - rewrite Sv by auto. apply I5, Hs. }
  split.
  { intros v pos ds Hv Cv Gd Hl Hp Hn0. destruct (Nat.eq_dec v k) as [->|Hne].
    - rewrite G0k in Gd. injection Gd as <-. rewrite Sk. apply S5; auto; [apply Hwl; auto|lia].
    - rewrite Sv by auto. apply (I6 v pos ds); auto. lia. }
  intros v Hv. rewrite Gv by lia. apply I7. lia.
Qed.

Lemma ip_inv_final :
  ip_inv B (fold_left (insert_prepares_instr B) (enumerate block) (g0, [], [])).
Proof.
  apply (fold_enumerate_inv ip_inv (insert_prepares_instr B) (Nop 0) block).
  - intros k s Hk. apply ip_inv_step. exact Hk.
  - apply ip_inv_start.
Qed.
End InsertPrepares.

(** X12: [_insert_prepares] appends only [Prepare]s to the block; its map
    has an entry for each appended offset, and an entry [p -> v] names an
    instruction [v] of the block that is a [Call] or [Ret] with more than
    one source, a slot [pos] of [v] that is not the last one of its
    use-def entry, is below the number of sources, and had no definition;
    the slot now holds [p], and the instruction at [p] prepares the
    temporary read there, with [v]'s attribute. *)
Theorem insert_prepares_entries (block : list Bytecode) (g : UseDefGraph) :
  let '(out, g', pum) := insert_prepares block g in
  (exists instrs, out = block ++ instrs /\ all_prepares instrs)
  /\ (forall p, length block <= p < length out -> exists v, nget p pum = Some v)
  /\ (forall p v, nget p pum = Some v ->
        v < length block /\ length block <= p < length out
        /\ prepare_candidate (nth v block (Nop 0)) = true
        /\ exists pos defs, nget v g = Some defs /\ S pos < length defs
           /\ pos < length (sources (nth v block (Nop 0)))
           /\ nth pos defs None = None /\ slot g' v pos = Some p
           /\ nth p out (Nop 0)
              = mk_prepare (get_attr_id (nth v block (Nop 0))) (nth pos (sources (nth v block (Nop 0))) 0)).
Proof.
  unfold insert_prepares.
  pose proof (ip_inv_final block g) as I.
  destruct (fold_left (insert_prepares_instr (length block)) (enumerate block) (g, [], [])) as [[g' pum] instrs].
  destruct I as [I1 [I2 [I3 _]]].
  split; [exists instrs; auto|].
  split.
  { intros p Hp. rewrite length_app in Hp.
    destruct (nget p pum) as [v|] eqn:E; [eauto|]. exfalso. apply (I3 p Hp E). }
  intros p v E. destruct (I2 _ _ E) as [R1 [R2 [R3 [pos [defs [D1 [D2 [D3 [D4 [D5 D6]]]]]]]]]].
  split; [exact R2|split; [rewrite length_app; lia|split; [exact R3|]]].
  exists pos, defs. repeat (split; [assumption|]).
  rewrite app_nth2 by lia. apply nth_error_nth. exact D6.
Qed.

(** X13: [_insert_prepares] never changes a slot of the use-def graph that
    has a definition; a slot that changes gets a synthesized [Prepare]
    recorded for its use; and every definition-less slot of a [Call] or
    [Ret] with more than one source that is not the last one of its entry
    and is below the number of sources gets one. *)
Theorem insert_prepares_graph (block : list Bytecode) (g : UseDefGraph) :
  let '(out, g', pum) := insert_prepares block g in
  (forall v pos, slot g v pos <> None -> slot g' v pos = slot g v pos)
  /\ (forall v pos d, slot g' v pos = Some d -> slot g v pos = Some d \/ nget d pum = Some v)
  /\ (forall v pos defs, v < length block -> prepare_candidate (nth v block (Nop 0)) = true ->
        nget v g = Some defs -> S pos < length defs -> pos < length (sources (nth v block (Nop 0))) ->
        nth pos defs None = None -> slot g' v pos <> None).
Proof.
  unfold insert_prepares.
  pose proof (ip_inv_final block g) as I.
  destruct (fold_left (insert_prepares_instr (length block)) (enumerate block) (g, [], [])) as [[g' pum] instrs].
  destruct I as [_ [_ [_ [I4 [I5 [I6 _]]]]]].
  split; [exact I5|split; [exact I4|exact I6]].
Qed.


(** ** [InstructionReordering::_use_def_graph_for_block] (not called by the pass)

    [live_after d] is [live_vars.get_info_at(d).after]: the temporaries live
    after offset [d], each with its usage offsets, in the maps' order. *)

(** [use_def_graph.entry(a).and_modify(|edges| edges[pos] = v)] *)
Definition entry_and_modify_set (g : UseDefGraph) (a pos : nat) (v : option CodeOffset) : UseDefGraph :=
  match nget a g with
  | Some edges => nins a (list_set edges pos v) g
  | None => g
  end.

(** The loop over [sources.iter().enumerate()]. *)
Definition udg_positions (lower usage_offset def_offset temp_defined : nat) (srcs : list TempIndex)
    (g : UseDefGraph) : UseDefGraph :=
  fold_left (fun g pt =>
      let '(pos, tmp_used) := pt in
      if tmp_used =? temp_defined
      then entry_and_modify_set g (usage_offset - lower) pos (Some (def_offset - lower))
      else g)
    (enumerate srcs) g.

(** The body of the loop over [info.usage_offsets()]. *)
Definition udg_usage (code : list Bytecode) (lower upper def_offset temp_defined : nat)
    (g : UseDefGraph) (usage_offset : CodeOffset) : UseDefGraph :=
  if (usage_offset <? lower) || (upper <? usage_offset) then g else
  let srcs := sources (nth usage_offset code (Nop 0)) in
  let dsts := dests (nth def_offset code (Nop 0)) in
  if existsb (Nat.eqb temp_defined) dsts && (0 <? length srcs) then
    if usage_offset <=? def_offset then g
    else udg_positions lower usage_offset def_offset temp_defined srcs g
  else g.

(** The body of the loop over [def_offset in lower..=upper]. *)
Definition udg_def (code : list Bytecode) (lower upper : nat)
    (live_after : CodeOffset -> list (TempIndex * list CodeOffset))
    (g : UseDefGraph) (def_offset : CodeOffset) : UseDefGraph :=
  fold_left (fun g ti => fold_left (udg_usage code lower upper def_offset (fst ti)) (snd ti) g)
    (live_after def_offset) g.

(** The first loop: an entry of [None]s for each instruction of the block. *)
Definition udg_init (code : list Bytecode) (lower upper : nat) : UseDefGraph :=
  fold_left (fun g usage_offset =>
      let adjusted_usage_offset := usage_offset - lower in
      match nget adjusted_usage_offset g with
      | Some _ => g
      | None => nins adjusted_usage_offset
                  (repeat None (length (sources (nth usage_offset code (Nop 0))))) g
      end)
    (seq lower (S upper - lower)) [].

(** [None] is the panic of [code[usage_offset]] in the first loop, past the
    end of [code]. *)
Definition use_def_graph_for_block (code : list Bytecode) (lower upper : CodeOffset)
    (live_after : CodeOffset -> list (TempIndex * list CodeOffset)) : option UseDefGraph :=
  if (lower <=? upper) && (length code <=? upper) then None
  else Some (fold_left (udg_def code lower upper live_after) (seq lower (S upper - lower))
               (udg_init code lower upper)).

Lemma fold_establish {St X} (P : St -> Prop) (Q : X -> St -> Prop) (R : St -> St -> Prop)
    (f : St -> X -> St) (l : list X) :
  (forall s x, In x l -> P s -> P (f s x) /\ R s (f s x) /\ Q x (f s x)) ->
  (forall s s' y, R s s' -> Q y s -> Q y s') ->
  (forall s, R s s) -> (forall s1 s2 s3, R s1 s2 -> R s2 s3 -> R s1 s3) ->
  forall s, P s -> P (fold_left f l s) /\ R s (fold_left f l s)
                   /\ forall x, In x l -> Q x (fold_left f l s).
Proof.
  intros Hs HQ Rr Rt. induction l as [|y l IH]; intros s Ps; cbn.
  - split; [auto|split; [auto|intros _ []]].
  - destruct (Hs s y (or_introl eq_refl) Ps) as [P1 [R1 Q1]].
    destruct (IH ltac:(intros; apply Hs; [right|]; auto) _ P1) as [P2 [R2 Q2]].
    split; [auto|split; [eauto|]].
    intros x [<-|Hx]; [|auto]. eapply HQ; [exact R2|exact Q1].
Qed.

Lemma slot_and_modify g a pos v b q :
  slot (entry_and_modify_set g a pos v) b q
  = match nget a g with
    | Some e => if (b =? a) && (q =? pos) && (q <? length e) then v else slot g b q
    | None => slot g b q
    end.
Proof.
  unfold entry_and_modify_set, slot. destruct (nget a g) as [e|] eqn:E; auto.
  rewrite nget_nins. destruct (Nat.eqb_spec b a) as [->|]; cbn [andb]; [|auto].
  rewrite E. destruct (Nat.eqb_spec q pos) as [->|]; cbn [andb].
  - destruct (Nat.ltb_spec pos (length e)); [apply nth_list_set_same; auto|].
    rewrite !nth_overflow; auto. rewrite length_list_set. auto.
  - apply nth_list_set_other. auto.
Qed.

Lemma nget_and_modify g a pos v b :
  match nget b (entry_and_modify_set g a pos v) with
  | Some e' => exists e, nget b g = Some e /\ length e' = length e
  | None => nget b g = None
  end.
Proof.
  unfold entry_and_modify_set. destruct (nget a g) as [e|] eqn:E.
  - rewrite nget_nins. destruct (Nat.eqb_spec b a) as [->|].
    + exists e. split; [auto|apply length_list_set].
    + destruct (nget b g); eauto.
  - destruct (nget b g); eauto.
Qed.

Section UseDefGraphForBlock.
Variable code : list Bytecode.
Variables lower upper : nat.
Variable live_after : CodeOffset -> list (TempIndex * list CodeOffset).
Hypothesis Hle : lower <= upper.

Let srcs_of (a : nat) := sources (nth (lower + a) code (Nop 0)).
Let tmp_of (a pos : nat) := nth pos (srcs_of a) 0.

Definition udg_shape (g : UseDefGraph) : Prop :=
  forall a, match nget a g with
            | Some e => a <= upper - lower /\ length e = length (srcs_of a)
            | None => upper - lower < a
            end.

Definition udg_sound (g : UseDefGraph) : Prop :=
  forall a pos d, slot g a pos = Some d ->
    d < a /\ In (tmp_of a pos) (dests (nth (lower + d) code (Nop 0)))
    /\ exists us, In (tmp_of a pos, us) (live_after (lower + d)) /\ In (lower + a) us.

Definition udg_bound (D : nat) (g : UseDefGraph) : Prop :=
  forall a pos d, slot g a pos = Some d -> lower + d < D.

Definition udg_latest (D : nat) (g : UseDefGraph) : Prop :=
  forall a pos d us, a <= upper - lower -> pos < length (srcs_of a) -> d < a -> lower + d < D ->
    In (tmp_of a pos, us) (live_after (lower + d)) -> In (lower + a) us ->
    In (tmp_of a pos) (dests (nth (lower + d) code (Nop 0))) ->
    exists d', slot g a pos = Some d' /\ d <= d'.

(** Each slot is unchanged or set to [D - lower]. *)
Definition udg_step (D : nat) (g g' : UseDefGraph) : Prop :=
  forall a pos, slot g' a pos = slot g a pos \/ slot g' a pos = Some (D - lower).

Lemma udg_step_refl D g : udg_step D g g.
Proof. intros a pos; left; auto. Qed.

Lemma udg_step_trans D g1 g2 g3 : udg_step D g1 g2 -> udg_step D g2 g3 -> udg_step D g1 g3.
Proof.
  intros H1 H2 a pos. destruct (H2 a pos) as [E|E]; [rewrite E; apply H1|right; auto].
Qed.

Definition udg_P (D : nat) (g : UseDefGraph) : Prop :=
  udg_shape g /\ udg_sound g /\ udg_bound (S D) g.

Definition udg_reached (D a pos : nat) (g : UseDefGraph) : Prop :=
  exists d', slot g a pos = Some d' /\ D - lower <= d'.

Lemma udg_reached_step D a pos g g' :
  udg_step D g g' -> udg_reached D a pos g -> udg_reached D a pos g'.
Proof.
  intros S [d' [E L]]. unfold udg_reached.
  destruct (S a pos) as [E'|E']; rewrite E'; [rewrite E|]; eexists; split; [reflexivity|lia| reflexivity|lia].
Qed.

Lemma udg_positions_spec D u temp us :
  lower <= D -> D < u -> u <= upper ->
  In temp (dests (nth D code (Nop 0))) -> In (temp, us) (live_after D) -> In u us ->
  forall g, udg_P D g ->
  let g' := udg_positions lower u D temp (sources (nth u code (Nop 0))) g in
  udg_P D g' /\ udg_step D g g'
  /\ forall pos, pos < length (sources (nth u code (Nop 0))) ->
       nth pos (sources (nth u code (Nop 0))) 0 = temp -> udg_reached D (u - lower) pos g'.
Proof.
  intros H1 H2 H3 Hd Hl Hu g Pg g'.
  assert (Eu : lower + (u - lower) = u) by lia.
  assert (ED : lower + (D - lower) = D) by lia.
  destruct (fold_establish (udg_P D)
              (fun pt g => snd pt = temp -> udg_reached D (u - lower) (fst pt) g)
              (udg_step D)
              (fun g pt => let '(pos, tmp_used) := pt in
                 if tmp_used =? temp
                 then entry_and_modify_set g (u - lower) pos (Some (D - lower)) else g)
              (enumerate (sources (nth u code (Nop 0)))))
    with (s := g) as [P1 [R1 Q1]]; auto.
  - intros s [pos t] Hin [Sh [So Bo]].
    apply In_enumerate_from in Hin as [_ Ht]. rewrite Nat.sub_0_r in Ht.
    destruct (Nat.eqb_spec t temp) as [->|Hne].
    2:{ split; [split; auto|split; [apply udg_step_refl|intro E; cbn in E; congruence]]. }
    pose proof (Sh (u - lower)) as Shu.
    destruct (nget (u - lower) s) as [e|] eqn:Es; [|lia].
    destruct Shu as [_ Le]. unfold srcs_of in Le. rewrite Eu in Le.
    assert (Hp : pos < length e) by (rewrite Le; apply nth_error_Some; congruence).
    split; [split; [|split]|split].
    + intro b. pose proof (nget_and_modify s (u - lower) pos (Some (D - lower)) b) as N.
      pose proof (Sh b) as Shb.
      destruct (nget b (entry_and_modify_set s (u - lower) pos (Some (D - lower)))) as [e'|].
      * destruct N as [e0 [N1 N2]]. rewrite N1 in Shb. lia.
      * rewrite N in Shb. exact Shb.
    + intros b q d E. rewrite slot_and_modify, Es in E.
      destruct (Nat.eqb_spec b (u - lower)) as [Eb|]; destruct (Nat.eqb_spec q pos) as [Eq|];
        destruct (Nat.ltb_spec q (length e)); cbn [andb] in E; try (apply So; exact E).
      subst b q. injection E as <-. unfold tmp_of, srcs_of. rewrite Eu, ED.
      rewrite (nth_error_nth _ _ _ Ht). split; [lia|split; [exact Hd|exists us; auto]].
    + intros b q d E. rewrite slot_and_modify, Es in E.
      destruct (Nat.eqb_spec b (u - lower)) as [Eb|]; destruct (Nat.eqb_spec q pos) as [Eq|];
        destruct (Nat.ltb_spec q (length e)); cbn [andb] in E; try (apply (Bo b q d); exact E).
      injection E as <-. lia.
    + intros b q. rewrite slot_and_modify, Es.
      destruct (Nat.eqb_spec b (u - lower)); destruct (Nat.eqb_spec q pos);
        destruct (Nat.ltb_spec q (length e)); cbn [andb]; auto.
    + intros _. exists (D - lower). split; [|lia]. cbn [fst].
      rewrite slot_and_modify, Es, !Nat.eqb_refl. cbn [andb].
      destruct (Nat.ltb_spec pos (length e)); [auto|lia].
  - intros s s' [pos t] R Q E. apply (udg_reached_step _ _ _ s); auto.
  - apply udg_step_refl.
  - apply udg_step_trans.
  - split; [exact P1|split; [exact R1|]].
    intros pos Hp Ht. apply (Q1 (pos, temp)); [|reflexivity].
    apply In_enumerate_from. rewrite Nat.sub_0_r. split; [lia|].
    rewrite <- Ht. apply nth_error_nth'. exact Hp.
Qed.

Definition udg_Q1 (D temp u : nat) (g : UseDefGraph) : Prop :=
  lower <= u <= upper -> D < u -> In temp (dests (nth D code (Nop 0))) ->
  forall pos, pos < length (sources (nth u code (Nop 0))) ->
    nth pos (sources (nth u code (Nop 0))) 0 = temp -> udg_reached D (u - lower) pos g.

Lemma udg_Q1_step D temp u g g' : udg_step D g g' -> udg_Q1 D temp u g -> udg_Q1 D temp u g'.
Proof.
  intros S Q H1 H2 H3 pos H4 H5. apply (udg_reached_step _ _ _ g); auto.
Qed.

Lemma udg_usage_spec D temp us u g :
  lower <= D <= upper -> In (temp, us) (live_after D) -> In u us -> udg_P D g ->
  let g' := udg_usage code lower upper D temp g u in
  udg_P D g' /\ udg_step D g g' /\ udg_Q1 D temp u g'.
Proof.
  intros HD Hl Hu Pg g'. unfold g', udg_usage. clear g'.
  destruct ((u <? lower) || (upper <? u)) eqn:Hr.
  { split; [auto|split; [apply udg_step_refl|]].
    intros [A B]. apply orb_true_iff in Hr as [Hr|Hr]; apply Nat.ltb_lt in Hr; lia. }
  apply orb_false_iff in Hr as [Hr1 Hr2]. apply Nat.ltb_ge in Hr1, Hr2.
  destruct (existsb (Nat.eqb temp) (dests (nth D code (Nop 0)))
            && (0 <? length (sources (nth u code (Nop 0))))) eqn:Hc.
  - apply andb_true_iff in Hc as [Hc _]. apply existsb_exists in Hc as [t [Ht Et]].
    apply Nat.eqb_eq in Et. subst t.
    destruct (u <=? D) eqn:HuD.
    + split; [auto|split; [apply udg_step_refl|]]. intros _ HD'. apply Nat.leb_le in HuD. lia.
    + apply Nat.leb_gt in HuD.
      destruct (udg_positions_spec D u temp us ltac:(lia) HuD Hr2 Ht Hl Hu g Pg) as [P1 [S1 Q1]].
      split; [exact P1|split; [exact S1|]]. intros _ _ _ pos Hp Ht'. apply Q1; auto.
  - split; [auto|split; [apply udg_step_refl|]].
    intros _ _ Hd pos Hp _. apply andb_false_iff in Hc as [Hc|Hc].
    + assert (existsb (Nat.eqb temp) (dests (nth D code (Nop 0))) = true)
        by (apply existsb_exists; exists temp; split; [auto|apply Nat.eqb_refl]). congruence.
    + apply Nat.ltb_ge in Hc. lia.
Qed.

Lemma udg_def_spec D g :
  lower <= D <= upper -> udg_P D g ->
  let g' := udg_def code lower upper live_after g D in
  udg_P D g' /\ udg_step D g g'
  /\ forall temp us, In (temp, us) (live_after D) -> forall u, In u us -> udg_Q1 D temp u g'.
Proof.
  intros HD Pg g'. unfold g', udg_def. clear g'.
  destruct (fold_establish (udg_P D)
              (fun ti g => forall u, In u (snd ti) -> udg_Q1 D (fst ti) u g)
              (udg_step D)
              (fun g ti => fold_left (udg_usage code lower upper D (fst ti)) (snd ti) g)
              (live_after D)) with (s := g) as [P1 [R1 Q1]]; auto.
  - intros s [temp us] Hin Ps. cbn [fst snd].
    destruct (fold_establish (udg_P D) (udg_Q1 D temp) (udg_step D)
                (udg_usage code lower upper D temp) us) with (s := s) as [P2 [R2 Q2]]; auto.
    + intros s' u Hu Ps'. apply (udg_usage_spec D temp us); auto.
    + intros; eapply udg_Q1_step; eauto.
    + apply udg_step_refl.
    + apply udg_step_trans.
  - intros s s' [temp us] R Q u Hu. eapply udg_Q1_step; eauto.
  - apply udg_step_refl.
  - apply udg_step_trans.
  - split; [exact P1|split; [exact R1|]].
    intros temp us Hin u Hu. exact (Q1 (temp, us) Hin u Hu).
Qed.

Definition udg_inv (D : nat) (g : UseDefGraph) : Prop :=
  udg_shape g /\ udg_sound g /\ udg_bound D g /\ udg_latest D g.

Lemma udg_init_spec : forall k, k <= S upper - lower -> forall a,
  nget a (fold_left (fun (g : UseDefGraph) (usage_offset : nat) =>
      let adjusted_usage_offset := usage_offset - lower in
      match nget adjusted_usage_offset g with
      | Some _ => g
      | None => nins adjusted_usage_offset
                  (repeat None (length (sources (nth usage_offset code (Nop 0))))) g
      end) (seq lower k) [])
  = if a <? k then Some (repeat None (length (srcs_of a))) else None.
Proof.
  cbv zeta. induction k as [|k IH]; intros Hk a.
  - cbn. destruct a; reflexivity.
  - rewrite seq_S, fold_left_app. cbn [fold_left].
    replace (lower + k - lower) with k by lia.
    rewrite (IH ltac:(lia) k), Nat.ltb_irrefl, nget_nins.
    destruct (Nat.eqb_spec a k) as [->|Hne].
    + rewrite (proj2 (Nat.ltb_lt k (S k)) (Nat.lt_succ_diag_r k)). reflexivity.
    + rewrite IH by lia. destruct (Nat.ltb_spec a k), (Nat.ltb_spec a (S k)); auto; lia.
Qed.

Lemma udg_init_inv : udg_inv lower (udg_init code lower upper).
Proof.
  unfold udg_init.
  assert (SL : forall a pos, slot (fold_left (fun (g : UseDefGraph) (usage_offset : nat) =>
      let adjusted_usage_offset := usage_offset - lower in
      match nget adjusted_usage_offset g with
      | Some _ => g
      | None => nins adjusted_usage_offset
                  (repeat None (length (sources (nth usage_offset code (Nop 0))))) g
      end) (seq lower (S upper - lower)) []) a pos = None).
  { intros a pos. unfold slot. rewrite udg_init_spec by lia.
    destruct (a <? S upper - lower); [apply nth_repeat|reflexivity]. }
  split; [|split; [|split]].
  - intro a. rewrite udg_init_spec by lia.
    destruct (Nat.ltb_spec a (S upper - lower)); [split; [lia|apply repeat_length]|lia].
  - intros a pos d E. rewrite SL in E. discriminate.
  - intros a pos d E. rewrite SL in E. discriminate.
  - intros a pos d us _ _ _ L. lia.
Qed.

Lemma udg_outer : forall k, k <= S upper - lower ->
  udg_inv (lower + k)
    (fold_left (udg_def code lower upper live_after) (seq lower k) (udg_init code lower upper)).
Proof.
  induction k as [|k IH]; intro Hk.
  - rewrite Nat.add_0_r. apply udg_init_inv.
  - rewrite seq_S, fold_left_app. cbn [fold_left].
    destruct (IH ltac:(lia)) as [Sh [So [Bo La]]].
    set (g := fold_left (udg_def code lower upper live_after) (seq lower k) (udg_init code lower upper)) in *.
    assert (Pg : udg_P (lower + k) g)
      by (split; [auto|split; [auto|intros a pos d E; specialize (Bo a pos d E); lia]]).
    destruct (udg_def_spec (lower + k) g ltac:(lia) Pg) as [[Sh' [So' Bo']] [R Q]].
    split; [exact Sh'|split; [exact So'|split; [intros a pos d E; specialize (Bo' a pos d E); lia|]]].
    intros a pos d us Ha Hp Hd HdD Hl Hu Hdst.
    destruct (Nat.eq_dec (lower + d) (lower + k)) as [Eq|Ne].
    + assert (Hdk : d = k) by lia. subst d.
      clear Eq.
      destruct (Q (tmp_of a pos) us Hl (lower + a) Hu ltac:(lia) ltac:(lia) Hdst pos Hp eq_refl)
        as [d' [E L]].
      replace (lower + a - lower) with a in E by lia.
      exists d'. split; [exact E|lia].
    + destruct (La a pos d us Ha Hp Hd ltac:(lia) Hl Hu Hdst) as [d' [E L]].
      destruct (R a pos) as [E'|E'].
      * exists d'. split; [|lia]. exact (eq_trans E' E).
      * exists (lower + k - lower). split; [exact E'|lia].
Qed.
End UseDefGraphForBlock.

(** X14: for a block [lower..=upper] inside the code, [_use_def_graph_for_block]
    returns a graph with an entry for each block offset [0..=upper-lower],
    as long as the instruction's sources; a slot [pos] of [a] holds [d] only
    when [d < a] (no loop-carried edge), the instruction at [d] writes the
    temporary read there, and the live-variable info after [d] lists [a] as
    a usage of that temporary. *)
Theorem use_def_graph_for_block_sound (code : list Bytecode) (lower upper : CodeOffset)
    (live_after : CodeOffset -> list (TempIndex * list CodeOffset)) :
  lower <= upper -> upper < length code ->
  exists g, use_def_graph_for_block code lower upper live_after = Some g
  /\ (forall a, match nget a g with
                | Some e => a <= upper - lower /\ length e = length (sources (nth (lower + a) code (Nop 0)))
                | None => upper - lower < a
                end)
  /\ (forall a pos d, slot g a pos = Some d ->
        d < a
        /\ In (nth pos (sources (nth (lower + a) code (Nop 0))) 0) (dests (nth (lower + d) code (Nop 0)))
        /\ exists us, In (nth pos (sources (nth (lower + a) code (Nop 0))) 0, us) (live_after (lower + d))
                      /\ In (lower + a) us).
Proof.
  intros Hle Hc. unfold use_def_graph_for_block.
  replace ((lower <=? upper) && (length code <=? upper)) with false
    by (symmetry; apply andb_false_iff; right; apply Nat.leb_gt; lia).
  eexists; split; [reflexivity|].
  destruct (udg_outer code lower upper live_after Hle (S upper - lower) (le_n _)) as [Sh [So _]].
  split; [exact Sh|exact So].
Qed.

Lemma use_def_graph_for_block_sound_witness :
  0 <= 1 /\ 1 < length [Assign 0 1 0 Copy; Assign 1 2 1 Copy]
  /\ exists g, use_def_graph_for_block [Assign 0 1 0 Copy; Assign 1 2 1 Copy] 0 1
                 (fun d => if d =? 0 then [(1, [1])] else []) = Some g
  /\ (forall a, match nget a g with
                | Some e => a <= 1 - 0 /\ length e = length (sources (nth (0 + a) [Assign 0 1 0 Copy; Assign 1 2 1 Copy] (Nop 0)))
                | None => 1 - 0 < a
                end)
  /\ (forall a pos d, slot g a pos = Some d ->
        d < a
        /\ In (nth pos (sources (nth (0 + a) [Assign 0 1 0 Copy; Assign 1 2 1 Copy] (Nop 0))) 0)
              (dests (nth (0 + d) [Assign 0 1 0 Copy; Assign 1 2 1 Copy] (Nop 0)))
        /\ exists us, In (nth pos (sources (nth (0 + a) [Assign 0 1 0 Copy; Assign 1 2 1 Copy] (Nop 0))) 0, us)
                         ((fun d => if d =? 0 then [(1, [1])] else []) (0 + d))
                      /\ In (0 + a) us).
Proof.
  split; [lia|split; [cbn; lia|]].
  apply use_def_graph_for_block_sound; [lia|cbn; lia].
Defined.

(** X15: the latest definition wins. For a block inside the code, if the
    instruction at [d < a] writes the temporary that [a] reads at [pos], and
    the live-variable info after [d] lists [a] as a usage of it, then the
    slot holds [d] or a later definition. *)
Theorem use_def_graph_for_block_latest (code : list Bytecode) (lower upper : CodeOffset)
    (live_after : CodeOffset -> list (TempIndex * list CodeOffset)) :
  lower <= upper -> upper < length code ->
  exists g, use_def_graph_for_block code lower upper live_after = Some g
  /\ forall a pos d us,
       a <= upper - lower -> pos < length (sources (nth (lower + a) code (Nop 0))) -> d < a ->
       In (nth pos (sources (nth (lower + a) code (Nop 0))) 0, us) (live_after (lower + d)) ->
       In (lower + a) us ->
       In (nth pos (sources (nth (lower + a) code (Nop 0))) 0) (dests (nth (lower + d) code (Nop 0))) ->
       exists d', slot g a pos = Some d' /\ d <= d'.
Proof.
  intros Hle Hc. unfold use_def_graph_for_block.
  replace ((lower <=? upper) && (length code <=? upper)) with false
    by (symmetry; apply andb_false_iff; right; apply Nat.leb_gt; lia).
  eexists; split; [reflexivity|].
  destruct (udg_outer code lower upper live_after Hle (S upper - lower) (le_n _)) as [_ [_ [_ La]]].
  intros a pos d us Ha Hp Hd Hl Hu Hdst. apply (La a pos d us); auto. lia.
Qed.

Lemma use_def_graph_for_block_latest_witness :
  0 <= 1 /\ 1 < length [Assign 0 1 0 Copy; Assign 1 2 1 Copy]
  /\ exists g, use_def_graph_for_block [Assign 0 1 0 Copy; Assign 1 2 1 Copy] 0 1
                 (fun d => if d =? 0 then [(1, [1])] else []) = Some g
  /\ forall a pos d us,
       a <= 1 - 0 -> pos < length (sources (nth (0 + a) [Assign 0 1 0 Copy; Assign 1 2 1 Copy] (Nop 0))) ->
       d < a ->
       In (nth pos (sources (nth (0 + a) [Assign 0 1 0 Copy; Assign 1 2 1 Copy] (Nop 0))) 0, us)
          ((fun d => if d =? 0 then [(1, [1])] else []) (0 + d)) ->
       In (0 + a) us ->
       In (nth pos (sources (nth (0 + a) [Assign 0 1 0 Copy; Assign 1 2 1 Copy] (Nop 0))) 0)
          (dests (nth (0 + d) [Assign 0 1 0 Copy; Assign 1 2 1 Copy] (Nop 0))) ->
       exists d', slot g a pos = Some d' /\ d <= d'.
Proof.
  split; [lia|split; [cbn; lia|]].
  apply use_def_graph_for_block_latest; [lia|cbn; lia].
Defined.


